(** * TURBO: turn-based game engine -- controller protocol and AI search

    A shallow embedding of the engine's state history manager, turn manager,
    game controller and of its Greedy, Minimax (alpha-beta) and Monte Carlo
    Tree Search players, with the properties of the specification proved
    (or refuted) on the embedded code.

    Conventions of the embedding.
    - A JavaScript [number] that carries a score is a [num]: a rational, one
      of the two infinities, or NaN.  Scores are computed exactly; rounding
      to doubles is modelled for [SeededRandom] (module [Double]), whose
      results it decides.  Signed zero is not modelled (it never changes a
      comparison).
    - Counters, depths, indices and time stamps are integers ([Z]).
    - Objects are values; [deepClone] is therefore the identity and
      "structurally equal" is Leibniz equality.
    - [Math.random()] is an oracle: the n-th call returns [Math_random n].
    - A method that may throw returns an [outcome] together with the state
      the object is left in. *)

From Stdlib Require Import ZArith QArith Qround Lia List String Bool.
From Stdlib Require Import Ascii DecimalString Permutation Lqa Qabs Qpower.
From Stdlib Require Import Orders OrdersTac.
Import ListNotations.

Set Implicit Arguments.
Set Warnings "-register-all".

(* ================================================================== *)
(** ** JavaScript numbers *)

Inductive num : Type :=
| NaN
| NInf
| Fin (q : Q)
| PInf.

Module JS.

Definition Qlt_bool (x y : Q) : bool := negb (Qle_bool y x).

(** [x < y] *)
Definition ltb (x y : num) : bool :=
  match x, y with
  | NaN, _ | _, NaN => false
  | NInf, NInf => false
  | NInf, _ => true
  | Fin p, Fin q => Qlt_bool p q
  | Fin _, PInf => true
  | _, _ => false
  end.

(** [x <= y] *)
Definition leb (x y : num) : bool :=
  match x, y with
  | NaN, _ | _, NaN => false
  | NInf, _ => true
  | Fin p, Fin q => Qle_bool p q
  | _, PInf => true
  | _, _ => false
  end.

(** [x > y] *)
Definition gtb (x y : num) : bool := ltb y x.

Definition isNaN (x : num) : bool :=
  match x with NaN => true | _ => false end.

Definition isFinite (x : num) : bool :=
  match x with Fin _ => true | _ => false end.

(** [Math.max(x, y)] and [Math.min(x, y)]: NaN if either argument is. *)
Definition max (x y : num) : num :=
  match x, y with
  | NaN, _ | _, NaN => NaN
  | _, _ => if ltb x y then y else x
  end.

Definition min (x y : num) : num :=
  match x, y with
  | NaN, _ | _, NaN => NaN
  | _, _ => if ltb y x then y else x
  end.

Definition neg (x : num) : num :=
  match x with
  | NaN => NaN
  | NInf => PInf
  | Fin q => Fin (- q)
  | PInf => NInf
  end.

(** [x + y] *)
Definition add (x y : num) : num :=
  match x, y with
  | NaN, _ | _, NaN => NaN
  | PInf, NInf | NInf, PInf => NaN
  | PInf, _ | _, PInf => PInf
  | NInf, _ | _, NInf => NInf
  | Fin p, Fin q => Fin (p + q)
  end.

(** [x - y] *)
Definition sub (x y : num) : num := add x (neg y).

Definition sign (q : Q) : comparison := (0 ?= q)%Q.

(** [x * y]; an infinity times zero is NaN. *)
Definition mul (x y : num) : num :=
  let inf_times (pos : bool) (q : Q) :=
    match sign q with
    | Eq => NaN
    | Lt => if pos then PInf else NInf
    | Gt => if pos then NInf else PInf
    end in
  match x, y with
  | NaN, _ | _, NaN => NaN
  | Fin p, Fin q => Fin (p * q)
  | PInf, PInf | NInf, NInf => PInf
  | PInf, NInf | NInf, PInf => NInf
  | PInf, Fin q | Fin q, PInf => inf_times true q
  | NInf, Fin q | Fin q, NInf => inf_times false q
  end.

(** [x / y]; a finite number over an infinity is zero, a non-zero number
    over zero is an infinity of its sign, [0/0] and [inf/inf] are NaN. *)
Definition div (x y : num) : num :=
  match x, y with
  | NaN, _ | _, NaN => NaN
  | Fin p, Fin q =>
      match sign q with
      | Eq => match sign p with Eq => NaN | Lt => PInf | Gt => NInf end
      | _ => Fin (p / q)
      end
  | Fin _, _ => Fin 0
  | PInf, Fin q => match sign q with Gt => NInf | _ => PInf end
  | NInf, Fin q => match sign q with Gt => PInf | _ => NInf end
  | _, _ => NaN
  end.

Definition of_Z (z : Z) : num := Fin (inject_Z z).

End JS.

(** The comparison function handed to [Array.prototype.sort] returns a
    number; the sort reads NaN as [+0]. *)
Definition SortCompare (v : num) : comparison :=
  match v with
  | NaN => Eq
  | NInf => Lt
  | PInf => Gt
  | Fin q => (q ?= 0)%Q
  end.

(** [Array.prototype.sort] is stable; on a consistent comparison function
    every stable sort gives the same array, here by insertion from the
    right. *)
Section ArraySort.
Context {T : Type}.
Variable comparefn : T -> T -> num.

Fixpoint sort_insert (x : T) (l : list T) : list T :=
  match l with
  | [] => [x]
  | y :: l' =>
      match SortCompare (comparefn x y) with
      | Gt => y :: sort_insert x l'
      | _ => x :: l
      end
  end.

Fixpoint Array_sort (l : list T) : list T :=
  match l with
  | [] => []
  | x :: l' => sort_insert x (Array_sort l')
  end.
End ArraySort.

(** The [n]-th result of [Math.random()]: a multiple of [2^-53] in [[0,1)],
    read from an arbitrary stream of integers. *)
Definition Math_random (bits : nat -> Z) (n : nat) : Q :=
  Qmake (bits n mod 2 ^ 53) (Z.to_pos (2 ^ 53)).

(** [Math.floor(r * len)] for a draw [r] and an array length. *)
Definition random_index (r : Q) (len : nat) : Z :=
  Qfloor (r * inject_Z (Z.of_nat len)).

(* ================================================================== *)
(** ** Data model (core/interfaces/IGame, ai/interfaces/IAI) *)

Inductive PlayerType : Type := HUMAN | AI.

Inductive GamePhase : Type :=
  NOT_STARTED | SETUP | PLAYING | PAUSED | COMPLETED.

Inductive AILevel : Type := EASY | MEDIUM | HARD | EXPERT.

(** [metadata] is an opaque bag the engine never reads; it is left out. *)
Record IPlayer : Type := mkPlayer {
  id : string;
  name : string;
  player_type : PlayerType
}.

Record ITurnInfo : Type := mkTurnInfo {
  turnNumber : Z;
  currentPlayerId : string;
  movesThisTurn : Z;
  maxMovesPerTurn : option Z;
  timeStarted : Z
}.

Record IGameState (TState : Type) : Type := mkState {
  gameData : TState;
  turnInfo : ITurnInfo;
  players : list IPlayer;
  phase : GamePhase;
  isComplete : bool;
  winnerId : option string
}.

Record IGameAction (TAction : Type) : Type := mkAction {
  action_type : string;
  playerId : string;
  data : TAction;
  timestamp : option Z
}.

Record IActionValidation : Type := mkValidation {
  isValid : bool;
  reason : option string
}.

Record ISideEffect : Type := mkSideEffect {
  effect_type : string;
  description : string
}.

(** An [Error] object is its message. *)
Record IActionResult (TState : Type) : Type := mkResult {
  success : bool;
  newState : option (IGameState TState);
  error : option string;
  sideEffects : option (list ISideEffect)
}.

Record IGameConfig : Type := mkConfig {
  config_players : list IPlayer;
  seed : option string
}.

Record IAIConfig : Type := mkAIConfig {
  cfg_playerId : string;
  cfg_difficulty : AILevel;
  cfg_thinkingTime : option (Z * Z);
  cfg_randomSeed : option string;
  cfg_maxDepth : option Z;
  cfg_async : bool
}.

(** [deepClone]: on values a structural copy is the value itself. *)
Definition deepClone {T : Type} (obj : T) : T := obj.

(** [x || d] for an optional number: [undefined] and [0] are falsy. *)
Definition number_or (x : option Z) (d : Z) : Z :=
  match x with
  | Some v => if (v =? 0)%Z then d else v
  | None => d
  end.

(** [s || d] for an optional string: [undefined] and [""] are falsy. *)
Definition string_or (x : option string) (d : string) : string :=
  match x with
  | Some EmptyString => d
  | Some s => s
  | None => d
  end.

(* ================================================================== *)
(** ** BaseAI *)

Record BaseAI : Type := mkBaseAI {
  ai_playerId : string;
  difficulty : AILevel;
  thinkingTime : Z * Z;
  randomSeed : option string;
  async : bool
}.

Definition getDefaultThinkingTime (level : AILevel) : Z * Z :=
  match level with
  | EASY => (200, 800)
  | MEDIUM => (300, 1200)
  | HARD => (500, 1500)
  | EXPERT => (800, 2000)
  end%Z.

Definition BaseAI_new (config : IAIConfig) : BaseAI :=
  {| ai_playerId := cfg_playerId config;
     difficulty := cfg_difficulty config;
     thinkingTime :=
       match cfg_thinkingTime config with
       | Some t => t
       | None => getDefaultThinkingTime (cfg_difficulty config)
       end;
     randomSeed := cfg_randomSeed config;
     async := cfg_async config |}.

Definition getDifficultyNoiseFactor (ai : BaseAI) : Q :=
  match difficulty ai with
  | EASY => 2
  | MEDIUM => 1
  | HARD => 1 # 2
  | EXPERT => 1 # 5
  end.

Section BaseAI.
Variable bits : nat -> Z.

(** [simulateThinking] draws once when a timer was injected, and not at
    all otherwise; the delay itself has no effect on the result.  The
    function returns the position of the next draw. *)
Definition simulateThinking (ai : BaseAI) (n : nat) : nat :=
  if async ai then S n else n.

(** [addNoise(value, maxNoise)], using draw number [n]. *)
Definition addNoise (ai : BaseAI) (value : num) (maxNoise : Q) (n : nat)
  : num :=
  let noiseFactor := getDifficultyNoiseFactor ai in
  let noise := (Math_random bits n - (1 # 2)) * maxNoise * noiseFactor in
  JS.add value (Fin noise).

Definition isMyTurn {TState} (ai : BaseAI) (state : IGameState TState)
  : bool :=
  String.eqb (currentPlayerId (turnInfo state)) (ai_playerId ai).

Definition getOpponentIds {TState} (ai : BaseAI)
  (state : IGameState TState) : list string :=
  map id
    (filter (fun p => negb (String.eqb (id p) (ai_playerId ai)))
            (players state)).
End BaseAI.

(** An action paired with its (noisy) value, and the order
    [(a, b) => b.value - a.value] both players sort by. *)
Definition by_value_desc {A : Type} (a b : A * num) : num :=
  JS.sub (snd b) (snd a).

Definition best_action {A : Type} (evaluatedActions : list (A * num))
  : option A :=
  option_map fst (hd_error (Array_sort by_value_desc evaluatedActions)).

(* ================================================================== *)
(** ** GreedyAI *)

Section GreedyAI.
Variables TState TAction : Type.
Variable bits : nat -> Z.
Variable evaluateAction :
  IGameAction TAction -> IGameState TState -> num.

(** The [forEach] that adds noise to every evaluated action in turn. *)
Fixpoint greedy_add_noise (ai : BaseAI)
  (evaluatedActions : list (IGameAction TAction * num)) (n : nat)
  : list (IGameAction TAction * num) :=
  match evaluatedActions with
  | [] => []
  | (a, v) :: rest =>
      (a, addNoise bits ai v 20 n) :: greedy_add_noise ai rest (S n)
  end.

(** [GreedyAI.chooseAction]; [n] is the position of the next draw. *)
Definition Greedy_chooseAction (ai : BaseAI) (state : IGameState TState)
  (availableActions : list (IGameAction TAction)) (n : nat)
  : option (IGameAction TAction) :=
  let n := simulateThinking ai n in
  match availableActions with
  | [] => None
  | _ =>
      let evaluatedActions :=
        map (fun action => (action, evaluateAction action state))
            availableActions in
      best_action (greedy_add_noise ai evaluatedActions n)
  end.
End GreedyAI.

(* ================================================================== *)
(** ** MinimaxAI *)

Definition getDepthByDifficulty (level : AILevel) : Z :=
  match level with
  | EASY => 1
  | MEDIUM => 2
  | HARD => 3
  | EXPERT => 4
  end.

Record MinimaxAI : Type := mkMinimaxAI {
  minimax_base : BaseAI;
  maxDepth : Z
}.

Definition MinimaxAI_new (config : IAIConfig) : MinimaxAI :=
  {| minimax_base := BaseAI_new config;
     maxDepth :=
       number_or (cfg_maxDepth config)
                 (getDepthByDifficulty (cfg_difficulty config)) |}.

Section MinimaxAI.
Variables TState TAction : Type.
Variable bits : nat -> Z.

(** The abstract methods a game supplies.  The second argument of
    [getActionsForState] is [None] when the state lists no opponent
    ([getOpponentIds(state)[0]] is [undefined]). *)
Variable simulateAction :
  IGameAction TAction -> IGameState TState -> IGameState TState.
Variable getActionsForState :
  IGameState TState -> option string -> list (IGameAction TAction).
Variable isTerminalState : IGameState TState -> bool.
Variable evaluateState : IGameState TState -> num.

Variable ai : MinimaxAI.

(** The two [for] loops of [minimax]; [rec] is the recursive call on a
    successor state with the current window. *)
Fixpoint max_loop (rec : IGameState TState -> num -> num -> option num)
  (state : IGameState TState) (actions : list (IGameAction TAction))
  (maxEval alpha beta : num) : option num :=
  match actions with
  | [] => Some maxEval
  | action :: rest =>
      let newState := simulateAction action state in
      match rec newState alpha beta with
      | None => None
      | Some evalValue =>
          let maxEval := JS.max maxEval evalValue in
          let alpha := JS.max alpha evalValue in
          if JS.leb beta alpha then Some maxEval
          else max_loop rec state rest maxEval alpha beta
      end
  end.

Fixpoint min_loop (rec : IGameState TState -> num -> num -> option num)
  (state : IGameState TState) (actions : list (IGameAction TAction))
  (minEval alpha beta : num) : option num :=
  match actions with
  | [] => Some minEval
  | action :: rest =>
      let newState := simulateAction action state in
      match rec newState alpha beta with
      | None => None
      | Some evalValue =>
          let minEval := JS.min minEval evalValue in
          let beta := JS.min beta evalValue in
          if JS.leb beta alpha then Some minEval
          else min_loop rec state rest minEval alpha beta
      end
  end.

(** [minimax]; [None] when [fuel] nested calls did not reach a leaf
    (with a negative or unbounded depth the source recurses until a
    terminal state). *)
Fixpoint minimax (fuel : nat) (state : IGameState TState) (depth : Z)
  (alpha beta : num) (maximizingPlayer : bool) : option num :=
  match fuel with
  | O => None
  | S fuel' =>
      if (depth =? 0)%Z || isTerminalState state
      then Some (evaluateState state)
      else
        let currentPlayerId :=
          if maximizingPlayer
          then Some (ai_playerId (minimax_base ai))
          else hd_error (getOpponentIds (minimax_base ai) state) in
        let actions := getActionsForState state currentPlayerId in
        if maximizingPlayer
        then max_loop
               (fun s a b => minimax fuel' s (depth - 1) a b false)
               state actions NInf alpha beta
        else min_loop
               (fun s a b => minimax fuel' s (depth - 1) a b true)
               state actions PInf alpha beta
  end.

(** The [map] of [chooseAction]: one search and one noise draw per root
    action, in order. *)
Fixpoint minimax_evaluate (fuel : nat) (state : IGameState TState)
  (actions : list (IGameAction TAction)) (n : nat)
  : option (list (IGameAction TAction * num)) :=
  match actions with
  | [] => Some []
  | action :: rest =>
      let newState := simulateAction action state in
      match minimax fuel newState (maxDepth ai - 1) NInf PInf false with
      | None => None
      | Some value =>
          let ea := (action, addNoise bits (minimax_base ai) value 10 n) in
          match minimax_evaluate fuel state rest (S n) with
          | None => None
          | Some l => Some (ea :: l)
          end
      end
  end.

(** [MinimaxAI.chooseAction]: [None] when the search ran out of fuel,
    [Some None] for [null], [Some (Some a)] for an action. *)
Definition Minimax_chooseAction (fuel : nat) (state : IGameState TState)
  (availableActions : list (IGameAction TAction)) (n : nat)
  : option (option (IGameAction TAction)) :=
  let n := simulateThinking (minimax_base ai) n in
  match availableActions with
  | [] => Some None
  | _ =>
      match minimax_evaluate fuel state availableActions n with
      | None => None
      | Some evaluatedActions => Some (best_action evaluatedActions)
      end
  end.

(** *** The search without pruning

    The reference the pruned search is compared with: the same recursion,
    every action of every ply visited, no window. *)
Fixpoint fold_max (rec : IGameState TState -> option num)
  (state : IGameState TState) (actions : list (IGameAction TAction))
  (maxEval : num) : option num :=
  match actions with
  | [] => Some maxEval
  | action :: rest =>
      match rec (simulateAction action state) with
      | None => None
      | Some evalValue =>
          fold_max rec state rest (JS.max maxEval evalValue)
      end
  end.

Fixpoint fold_min (rec : IGameState TState -> option num)
  (state : IGameState TState) (actions : list (IGameAction TAction))
  (minEval : num) : option num :=
  match actions with
  | [] => Some minEval
  | action :: rest =>
      match rec (simulateAction action state) with
      | None => None
      | Some evalValue =>
          fold_min rec state rest (JS.min minEval evalValue)
      end
  end.

Fixpoint minimax_unpruned (fuel : nat) (state : IGameState TState)
  (depth : Z) (maximizingPlayer : bool) : option num :=
  match fuel with
  | O => None
  | S fuel' =>
      if (depth =? 0)%Z || isTerminalState state
      then Some (evaluateState state)
      else
        let currentPlayerId :=
          if maximizingPlayer
          then Some (ai_playerId (minimax_base ai))
          else hd_error (getOpponentIds (minimax_base ai) state) in
        let actions := getActionsForState state currentPlayerId in
        if maximizingPlayer
        then fold_max
               (fun s => minimax_unpruned fuel' s (depth - 1) false)
               state actions NInf
        else fold_min
               (fun s => minimax_unpruned fuel' s (depth - 1) true)
               state actions PInf
  end.

Fixpoint unpruned_evaluate (fuel : nat) (state : IGameState TState)
  (actions : list (IGameAction TAction)) (n : nat)
  : option (list (IGameAction TAction * num)) :=
  match actions with
  | [] => Some []
  | action :: rest =>
      let newState := simulateAction action state in
      match minimax_unpruned fuel newState (maxDepth ai - 1) false with
      | None => None
      | Some value =>
          let ea := (action, addNoise bits (minimax_base ai) value 10 n) in
          match unpruned_evaluate fuel state rest (S n) with
          | None => None
          | Some l => Some (ea :: l)
          end
      end
  end.

Definition Unpruned_chooseAction (fuel : nat) (state : IGameState TState)
  (availableActions : list (IGameAction TAction)) (n : nat)
  : option (option (IGameAction TAction)) :=
  let n := simulateThinking (minimax_base ai) n in
  match availableActions with
  | [] => Some None
  | _ =>
      match unpruned_evaluate fuel state availableActions n with
      | None => None
      | Some evaluatedActions => Some (best_action evaluatedActions)
      end
  end.
End MinimaxAI.

(* ================================================================== *)
(** ** Monte Carlo Tree Search *)

(** A search node owns its children.  The [parent] back-reference of the
    source is the path from the root: [backpropagate], which follows it
    upwards, is here the return from the recursive descent. *)
Inductive MCTSNode (TState TAction : Type) : Type :=
  Node (state : IGameState TState)
       (action : option (IGameAction TAction))
       (children : list (MCTSNode TState TAction))
       (visits : Z)
       (totalValue : num).

Section MCTSNode.
Context {TState TAction : Type}.
#[local] Abbreviation node := (MCTSNode TState TAction).

Definition node_state (nd : node) := let (s, _, _, _, _) := nd in s.
Definition node_action (nd : node) := let (_, a, _, _, _) := nd in a.
Definition children (nd : node) := let (_, _, c, _, _) := nd in c.
Definition visits (nd : node) := let (_, _, _, v, _) := nd in v.
Definition totalValue (nd : node) := let (_, _, _, _, t) := nd in t.

Definition MCTSNode_new (state : IGameState TState)
  (action : option (IGameAction TAction)) : node :=
  Node state action [] 0 (Fin 0).

Definition isLeaf (nd : node) : bool :=
  (List.length (children nd) =? 0)%nat.

(** [Math.sqrt] and [Math.log] belong to the host. *)
Variables Math_sqrt Math_log : num -> num.

Definition getUCB1Value (this child : node) (c : num) : num :=
  if (visits child =? 0)%Z then PInf
  else
    let exploitation :=
      JS.div (totalValue child) (JS.of_Z (visits child)) in
    let exploration :=
      JS.mul c (Math_sqrt (JS.div (Math_log (JS.of_Z (visits this)))
                                  (JS.of_Z (visits child)))) in
    JS.add exploitation exploration.

(** The [for] loop of [getBestChild]; the best child is carried with its
    position [i] in [children]. *)
Fixpoint best_child_loop (this : node) (c : num) (rest : list node)
  (i : nat) (bestChild : nat * node) (bestValue : num) : nat * node :=
  match rest with
  | [] => bestChild
  | child :: rest' =>
      let value := getUCB1Value this child c in
      if JS.gtb value bestValue
      then best_child_loop this c rest' (S i) (i, child) value
      else best_child_loop this c rest' (S i) bestChild bestValue
  end.

Definition getBestChild (this : node) (explorationConstant : num)
  : option (nat * node) :=
  match children this with
  | [] => None
  | first :: _ =>
      let bestValue := getUCB1Value this first explorationConstant in
      Some (best_child_loop this explorationConstant (children this) 0%nat
                            (0%nat, first) bestValue)
  end.
End MCTSNode.

Definition getIterationsByDifficulty (level : AILevel) : Z :=
  match level with
  | EASY => 100
  | MEDIUM => 500
  | HARD => 1000
  | EXPERT => 2000
  end.

Record MCTSAI : Type := mkMCTSAI {
  mcts_base : BaseAI;
  iterations : Z;
  explorationConstant : num
}.

Definition MCTSAI_new (config : IAIConfig) : MCTSAI :=
  {| mcts_base := BaseAI_new config;
     iterations := getIterationsByDifficulty (cfg_difficulty config);
     explorationConstant := Fin (1414 # 1000) |}.

(** Replace the [k]-th element of a list by what [f] makes of it; [None]
    when there is no such element or [f] fails. *)
Section UpdateNth.
Context {A B : Type}.
Variable f : A -> option (A * B).

Fixpoint update_nth (l : list A) (k : nat) : option (list A * B) :=
  match l, k with
  | [], _ => None
  | x :: rest, O =>
      match f x with
      | None => None
      | Some (x', b) => Some (x' :: rest, b)
      end
  | x :: rest, S k' =>
      match update_nth rest k' with
      | None => None
      | Some (rest', b) => Some (x :: rest', b)
      end
  end.
End UpdateNth.

Section MCTSAI.
Variables TState TAction : Type.
#[local] Abbreviation node := (MCTSNode TState TAction).
Variable bits : nat -> Z.
Variables Math_sqrt Math_log : num -> num.

(** The abstract methods.  A playout may draw random numbers: it is given
    the position of the next draw and returns the position after it. *)
Variable simulatePlayout : IGameState TState -> nat -> num * nat.
Variable getActionsForState :
  IGameState TState -> option string -> list (IGameAction TAction).
Variable simulateAction :
  IGameAction TAction -> IGameState TState -> IGameState TState.
Variable isTerminalState : IGameState TState -> bool.

Variable ai : MCTSAI.

(** One visit of [backpropagate] at a node. *)
Definition visit (nd : node) (ch : list node) (value : num) : node :=
  Node (node_state nd) (node_action nd) ch
       (visits nd + 1) (JS.add (totalValue nd) value).

(** The children [expand] adds to a node. *)
Definition expand_children (nd : node) : list node :=
  let currentPlayerId := currentPlayerId (turnInfo (node_state nd)) in
  let actions := getActionsForState (node_state nd) (Some currentPlayerId) in
  children nd ++
  map (fun action =>
         MCTSNode_new (simulateAction action (node_state nd)) (Some action))
      actions.

(** What one iteration does once selection has stopped at [nd]:
    expansion unless the state is terminal, a playout from the node
    reached, and the visits of that node and of [nd].  [None] stands for
    the TypeError of reading a child that is not there. *)
Definition simulate_from (nd : node) (n : nat)
  : option (node * (num * nat)) :=
  if negb (isTerminalState (node_state nd)) then
    let ch := expand_children nd in
    match ch with
    | [] =>
        let (value, n') := simulatePlayout (node_state nd) n in
        Some (visit nd ch value, (value, n'))
    | _ =>
        let k := random_index (Math_random bits n) (List.length ch) in
        if (k <? 0)%Z then None
        else
          match
            update_nth
              (fun child =>
                 let (value, n') :=
                   simulatePlayout (node_state child) (S n) in
                 Some (visit child (children child) value, (value, n')))
              ch (Z.to_nat k)
          with
          | None => None
          | Some (ch', (value, n')) =>
              Some (visit nd ch' value, (value, n'))
          end
    end
  else
    let (value, n') := simulatePlayout (node_state nd) n in
    Some (visit nd (children nd) value, (value, n')).

(** One iteration, seen from [nd]: selection descends into the best
    child while [nd] has children and is not terminal; on the way back
    every node of the path is visited once with the playout's value. *)
Fixpoint iterate (nd : node) (n : nat) {struct nd}
  : option (node * (num * nat)) :=
  match nd with
  | Node st act ch vis tot =>
      if negb (isLeaf nd) && negb (isTerminalState st) then
        match getBestChild Math_sqrt Math_log nd (explorationConstant ai) with
        | None => simulate_from nd n
        | Some (i, _) =>
            match update_nth (fun child => iterate child n) ch i
            with
            | None => None
            | Some (ch', (value, n')) =>
                Some (visit nd ch' value, (value, n'))
            end
        end
      else simulate_from nd n
  end.

(** The [for] loop over the iterations. *)
Fixpoint run_iterations (count : nat) (root : node) (n : nat)
  : option (node * nat) :=
  match count with
  | O => Some (root, n)
  | S count' =>
      match iterate root n with
      | None => None
      | Some (root', (_, n')) => run_iterations count' root' n'
      end
  end.

(** The tree [chooseAction] has built when its loop ends. *)
Definition MCTS_search (state : IGameState TState) (n : nat)
  : option (node * nat) :=
  run_iterations (Z.to_nat (iterations ai)) (MCTSNode_new state None) n.

Fixpoint most_visited (rest : list node) (bestChild : node) : node :=
  match rest with
  | [] => bestChild
  | child :: rest' =>
      if (visits child >? visits bestChild)%Z
      then most_visited rest' child
      else most_visited rest' bestChild
  end.

(** [MCTSAI.chooseAction]: [None] for a TypeError, [Some None] for
    [null]. *)
Definition MCTS_chooseAction (state : IGameState TState)
  (availableActions : list (IGameAction TAction)) (n : nat)
  : option (option (IGameAction TAction)) :=
  let n := simulateThinking (mcts_base ai) n in
  match availableActions with
  | [] => Some None
  | _ =>
      match MCTS_search state n with
      | None => None
      | Some (root, _) =>
          match children root with
          | [] => Some None
          | first :: _ =>
              Some (node_action (most_visited (children root) first))
          end
      end
  end.

(** A node on which an iteration goes one level down: it is not terminal
    and it has children or can be given some. *)
Definition productive (nd : node) : Prop :=
  isTerminalState (node_state nd) = false /\
  (children nd <> [] \/
   getActionsForState (node_state nd)
     (Some (currentPlayerId (turnInfo (node_state nd)))) <> []).

Definition sum_visits (l : list node) : Z :=
  fold_right (fun child acc => visits child + acc)%Z 0%Z l.
End MCTSAI.

(** The bookkeeping of [backpropagate], as every tree of the search has
    it: a visit count is not negative, the sum of finite playout values
    is finite, and no child is visited more often than its parent. *)
Inductive well_counted {TState TAction : Type}
  : MCTSNode TState TAction -> Prop :=
| well_counted_node st act ch vis tot :
    (0 <= vis)%Z ->
    JS.isFinite tot = true ->
    Forall (fun child => (visits child <= vis)%Z) ch ->
    Forall well_counted ch ->
    well_counted (Node st act ch vis tot).

(* ================================================================== *)
(** ** Arrays used as stacks *)

Definition push {A : Type} (arr : list A) (x : A) : list A := arr ++ [x].

(** [arr.pop()]: the last element, and the array without it. *)
Definition pop {A : Type} (arr : list A) : option A * list A :=
  (last (map Some arr) None, removelast arr).

(** [arr.shift()] drops the first element. *)
Definition shift {A : Type} (arr : list A) : list A := tl arr.

(* ================================================================== *)
(** ** GameStateManager *)

Record GameStateManager (TState : Type) : Type := mkStateManager {
  currentState : option (IGameState TState);
  history : list (IGameState TState);
  redoStack : list (IGameState TState);
  maxHistorySize : Z;
  checkpoints : list (string * option (IGameState TState))
}.

Section GameStateManager.
Variable TState : Type.
#[local] Abbreviation manager := (GameStateManager TState).

Definition GameStateManager_new (maxHistorySize : option Z) : manager :=
  {| currentState := None;
     history := [];
     redoStack := [];
     maxHistorySize := match maxHistorySize with Some m => m | None => 100 end;
     checkpoints := [] |}.

Definition setState (m : manager) (state : IGameState TState) : manager :=
  let history1 :=
    match currentState m with
    | Some cur => push (history m) (deepClone cur)
    | None => history m
    end in
  let history2 :=
    if (Z.of_nat (List.length history1) >? maxHistorySize m)%Z
    then shift history1
    else history1 in
  {| currentState := Some (deepClone state);
     history := history2;
     redoStack := [];
     maxHistorySize := maxHistorySize m;
     checkpoints := checkpoints m |}.

Definition getCurrentState (m : manager) : option (IGameState TState) :=
  option_map deepClone (currentState m).

Definition getHistory (m : manager) : list (IGameState TState) :=
  map deepClone (history m).

Definition canUndo (m : manager) : bool :=
  (0 <? List.length (history m))%nat.

Definition canRedo (m : manager) : bool :=
  (0 <? List.length (redoStack m))%nat.

Definition StateManager_undo (m : manager) : bool * manager :=
  match currentState m with
  | Some cur =>
      if canUndo m then
        let (popped, history') := pop (history m) in
        (true,
         {| currentState := popped;
            history := history';
            redoStack := push (redoStack m) (deepClone cur);
            maxHistorySize := maxHistorySize m;
            checkpoints := checkpoints m |})
      else (false, m)
  | None => (false, m)
  end.

Definition StateManager_redo (m : manager) : bool * manager :=
  if canRedo m then
    let history' :=
      match currentState m with
      | Some cur => push (history m) (deepClone cur)
      | None => history m
      end in
    let (popped, redo') := pop (redoStack m) in
    (true,
     {| currentState := popped;
        history := history';
        redoStack := redo';
        maxHistorySize := maxHistorySize m;
        checkpoints := checkpoints m |})
  else (false, m).

(** [restoreCheckpoint] pushes on the history without the size check. *)
Definition restoreCheckpoint (m : manager) (checkpointId : string)
  : bool * manager :=
  match
    find (fun kv => String.eqb (fst kv) checkpointId) (checkpoints m)
  with
  | Some (_, Some checkpoint) =>
      (true,
       {| currentState := Some (deepClone checkpoint);
          history :=
            match currentState m with
            | Some cur => push (history m) (deepClone cur)
            | None => history m
            end;
          redoStack := redoStack m;
          maxHistorySize := maxHistorySize m;
          checkpoints := checkpoints m |})
  | _ => (false, m)
  end.

Definition StateManager_reset (m : manager) : manager :=
  {| currentState := None;
     history := [];
     redoStack := [];
     maxHistorySize := maxHistorySize m;
     checkpoints := [] |}.

(** The operations a client can apply, and a run of them. *)
Inductive manager_op : Type :=
| OpSetState (state : IGameState TState)
| OpUndo
| OpRedo
| OpReset.

Definition apply_op (m : manager) (op : manager_op) : manager :=
  match op with
  | OpSetState state => setState m state
  | OpUndo => snd (StateManager_undo m)
  | OpRedo => snd (StateManager_redo m)
  | OpReset => StateManager_reset m
  end.

Definition run_ops (m : manager) (ops : list manager_op) : manager :=
  fold_left apply_op ops m.
End GameStateManager.

(* ================================================================== *)
(** ** Turn order strategies and TurnManager *)

Inductive outcome (A : Type) : Type :=
| Returns (a : A)
| Throws (message : string).
Arguments Throws {A} message.

(** A strategy object: its private state has type [sigma]; [getNextPlayer]
    yields [None] for [undefined]. *)
Record ITurnOrderStrategy (sigma : Type) : Type := mkStrategy {
  getNextPlayer : sigma -> string -> list string -> option string * sigma;
  strategy_reset : option (sigma -> sigma)
}.

(** [arr.indexOf(x)] on strings, [-1] when absent. *)
Fixpoint indexOf (arr : list string) (x : string) : Z :=
  match arr with
  | [] => -1
  | y :: rest =>
      if String.eqb y x then 0
      else let i := indexOf rest x in if (i <? 0)%Z then -1 else i + 1
  end%Z.

(** [arr[i]] for an integer [i]. *)
Definition at_index {A : Type} (arr : list A) (i : Z) : option A :=
  if (i <? 0)%Z then None else nth_error arr (Z.to_nat i).

Module TurnOrderStrategies.

Definition sequential : ITurnOrderStrategy unit :=
  {| getNextPlayer := fun st currentPlayerId players =>
       let currentIndex := indexOf players currentPlayerId in
       let nextIndex :=
         Z.rem (currentIndex + 1) (Z.of_nat (List.length players)) in
       (at_index players nextIndex, st);
     strategy_reset := None |}.

(** The private state is the position of the next draw. *)
Definition random (bits : nat -> Z) : ITurnOrderStrategy nat :=
  {| getNextPlayer := fun n _ players =>
       (at_index players
          (random_index (Math_random bits n) (List.length players)),
        S n);
     strategy_reset := None |}.

(** The private state is [currentIndex]. *)
Definition custom (sequence : list string) : ITurnOrderStrategy Z :=
  {| getNextPlayer := fun currentIndex _ _ =>
       (at_index sequence currentIndex,
        Z.rem (currentIndex + 1) (Z.of_nat (List.length sequence)));
     strategy_reset := Some (fun _ => 0%Z) |}.

End TurnOrderStrategies.

Record TurnManager (sigma : Type) : Type := mkTurnManager {
  tm_players : list IPlayer;
  currentPlayerIndex : Z;
  turnOrderStrategy : ITurnOrderStrategy sigma;
  strategyState : sigma
}.

Section TurnManager.
Variable sigma : Type.
#[local] Abbreviation turn_manager := (TurnManager sigma).

Definition reset_strategy (tm : turn_manager) : sigma :=
  match strategy_reset (turnOrderStrategy tm) with
  | Some reset => reset (strategyState tm)
  | None => strategyState tm
  end.

Definition TurnManager_initialize (tm : turn_manager)
  (players : list IPlayer) : outcome unit * turn_manager :=
  if (List.length players <? 1)%nat
  then (Throws "At least 1 players required", tm)
  else
    (Returns tt,
     {| tm_players := players;
        currentPlayerIndex := 0;
        turnOrderStrategy := turnOrderStrategy tm;
        strategyState := reset_strategy tm |}).

(** [players.findIndex(p => p.id === nextPlayerId)] *)
Fixpoint findIndex_id (l : list IPlayer) (nextPlayerId : option string)
  : Z :=
  match l with
  | [] => -1
  | p :: rest =>
      if match nextPlayerId with
         | Some x => String.eqb (id p) x
         | None => false
         end
      then 0
      else let i := findIndex_id rest nextPlayerId in
           if (i <? 0)%Z then -1 else i + 1
  end%Z.

Definition TurnManager_getNextPlayer (tm : turn_manager)
  : outcome string * turn_manager :=
  match tm_players tm with
  | [] => (Throws "Turn manager not initialized", tm)
  | _ =>
      match at_index (tm_players tm) (currentPlayerIndex tm) with
      | None => (Throws "TypeError", tm)
      | Some current =>
          let currentPlayerId := id current in
          let playerIds := map id (tm_players tm) in
          let (nextPlayerId, st') :=
            getNextPlayer (turnOrderStrategy tm) (strategyState tm)
                          currentPlayerId playerIds in
          let tm' :=
            {| tm_players := tm_players tm;
               currentPlayerIndex :=
                 findIndex_id (tm_players tm) nextPlayerId;
               turnOrderStrategy := turnOrderStrategy tm;
               strategyState := st' |} in
          match nextPlayerId with
          | Some next =>
              if (currentPlayerIndex tm' =? -1)%Z
              then (Throws ("Invalid next player ID: " ++ next), tm')
              else (Returns next, tm')
          | None => (Throws "Invalid next player ID: undefined", tm')
          end
      end
  end.

Definition TurnManager_reset (tm : turn_manager) : turn_manager :=
  {| tm_players := [];
     currentPlayerIndex := 0;
     turnOrderStrategy := turnOrderStrategy tm;
     strategyState := reset_strategy tm |}.
End TurnManager.

Definition TurnManager_new : TurnManager unit :=
  {| tm_players := [];
     currentPlayerIndex := 0;
     turnOrderStrategy := TurnOrderStrategies.sequential;
     strategyState := tt |}.

(* ================================================================== *)
(** ** GameController *)

(** The events of the bus, in the order they are emitted.  Handlers are
    outside the engine; what the engine does is recorded as a log. *)
Inductive GameEvent (TState TAction : Type) : Type :=
| gameStarted (state : IGameState TState) (config : IGameConfig)
| gameEnded (winner : option string) (why : option string)
            (state : IGameState TState)
| gameReset
| turnStarted (player : string) (turn : Z)
| turnEnded (player : string) (turn : Z)
| actionExecuted (action : IGameAction TAction)
                 (result : IActionResult TState)
                 (state : IGameState TState)
| actionUndone (state : IGameState TState)
| actionRedone (state : IGameState TState)
| sideEffect (effect : ISideEffect).
Arguments gameReset {TState TAction}.
Arguments turnStarted {TState TAction} player turn.
Arguments turnEnded {TState TAction} player turn.
Arguments sideEffect {TState TAction} effect.
Arguments gameStarted {TState TAction} state config.
Arguments gameEnded {TState TAction} winner why state.
Arguments actionUndone {TState TAction} state.
Arguments actionRedone {TState TAction} state.

Record EndCheck : Type := mkEndCheck {
  isEnded : bool;
  end_winnerId : option string;
  end_reason : option string
}.

(** The rules of a game ([IGameRules]); pure functions. *)
Record IGameRules (TState TAction : Type) : Type := mkRules {
  createInitialState : IGameConfig -> IGameState TState;
  validateAction :
    IGameAction TAction -> IGameState TState -> IActionValidation;
  rules_executeAction :
    IGameAction TAction -> IGameState TState -> IActionResult TState;
  getValidActions : IGameState TState -> list (IGameAction TAction);
  checkEndCondition : IGameState TState -> EndCheck
}.

Record GameController (TState TAction : Type) : Type := mkController {
  rules : IGameRules TState TAction;
  stateManager : GameStateManager TState;
  turnManager : TurnManager unit;
  eventBus : list (GameEvent TState TAction);
  config : option IGameConfig
}.

Section GameController.
Variables TState TAction : Type.
#[local] Abbreviation controller := (GameController TState TAction).
#[local] Abbreviation game_state := (IGameState TState).

(** Methods are state transformers that may throw. *)
Definition M (A : Type) : Type := controller -> outcome A * controller.

Definition ret {A : Type} (a : A) : M A := fun c => (Returns a, c).

Definition throw {A : Type} (message : string) : M A :=
  fun c => (Throws message, c).

Definition bind {A B : Type} (m : M A) (k : A -> M B) : M B :=
  fun c =>
    match m c with
    | (Returns a, c') => k a c'
    | (Throws message, c') => (Throws message, c')
    end.

#[local] Notation "x <- m ;; k" := (bind m (fun x => k))
  (at level 61, m at next level, right associativity).
#[local] Notation "m ;;; k" := (bind m (fun _ => k))
  (at level 61, right associativity).

Definition emit (e : GameEvent TState TAction) : M unit :=
  fun c =>
    (Returns tt,
     {| rules := rules c;
        stateManager := stateManager c;
        turnManager := turnManager c;
        eventBus := eventBus c ++ [e];
        config := config c |}).

Definition with_stateManager {A : Type}
  (f : GameStateManager TState -> A * GameStateManager TState) : M A :=
  fun c =>
    let (a, m) := f (stateManager c) in
    (Returns a,
     {| rules := rules c;
        stateManager := m;
        turnManager := turnManager c;
        eventBus := eventBus c;
        config := config c |}).

Definition with_turnManager {A : Type}
  (f : TurnManager unit -> outcome A * TurnManager unit) : M A :=
  fun c =>
    let (r, tm) := f (turnManager c) in
    (r,
     {| rules := rules c;
        stateManager := stateManager c;
        turnManager := tm;
        eventBus := eventBus c;
        config := config c |}).

Definition set_config (cfg : option IGameConfig) : M unit :=
  fun c =>
    (Returns tt,
     {| rules := rules c;
        stateManager := stateManager c;
        turnManager := turnManager c;
        eventBus := eventBus c;
        config := cfg |}).

Definition the_rules : M (IGameRules TState TAction) :=
  fun c => (Returns (rules c), c).

Fixpoint emit_all (es : list (GameEvent TState TAction)) : M unit :=
  match es with
  | [] => ret tt
  | e :: rest => emit e ;;; emit_all rest
  end.

Definition GameController_new (r : IGameRules TState TAction)
  : controller :=
  {| rules := r;
     stateManager := GameStateManager_new TState None;
     turnManager := TurnManager_new;
     eventBus := [];
     config := None |}.

Definition validateConfig (cfg : IGameConfig) : M unit :=
  if (List.length (config_players cfg) <? 2)%nat
  then throw "At least 2 players are required"
  else
    let playerIds := nodup string_dec (map id (config_players cfg)) in
    if negb (List.length playerIds =? List.length (config_players cfg))%nat
    then throw "Player IDs must be unique"
    else ret tt.

Definition commit (state : game_state) : M unit :=
  with_stateManager (fun m => (tt, setState m state)).

Definition initialize (cfg : IGameConfig) : M unit :=
  validateConfig cfg ;;;
  set_config (Some cfg) ;;;
  r <- the_rules ;;
  let initialState := createInitialState r cfg in
  commit initialState ;;;
  with_turnManager
    (fun tm => TurnManager_initialize tm (config_players cfg)) ;;;
  emit (gameStarted initialState cfg) ;;;
  emit (turnStarted (currentPlayerId (turnInfo initialState))
                    (turnNumber (turnInfo initialState))).

Definition getState : M game_state :=
  fun c =>
    match getCurrentState (stateManager c) with
    | Some state => (Returns state, c)
    | None => (Throws "Game not initialized", c)
    end.

Definition handleGameEnd (winner why : option string) : M unit :=
  state <- getState ;;
  let endState :=
    {| gameData := gameData state;
       turnInfo := turnInfo state;
       players := players state;
       phase := COMPLETED;
       isComplete := true;
       winnerId := winner |} in
  commit endState ;;;
  emit (gameEnded winner why endState).

Definition executeAction (action : IGameAction TAction)
  : M (IActionResult TState) :=
  currentState <- getState ;;
  r <- the_rules ;;
  let validation := validateAction r action currentState in
  if negb (isValid validation) then
    ret {| success := false;
           newState := None;
           error := Some (string_or (reason validation) "Invalid action");
           sideEffects := None |}
  else
    let result := rules_executeAction r action currentState in
    match success result, newState result with
    | true, Some newState =>
        commit newState ;;;
        emit (actionExecuted action result newState) ;;;
        emit_all
          (match sideEffects result with
           | Some effects => map sideEffect effects
           | None => []
           end) ;;;
        let endCheck := checkEndCondition r newState in
        (if isEnded endCheck
         then handleGameEnd (end_winnerId endCheck) (end_reason endCheck)
         else ret tt) ;;;
        ret result
    | _, _ => ret result
    end.

(** [endTurn]; [now] is what [Date.now()] returns. *)
Definition endTurn (now : Z) : M unit :=
  currentState <- getState ;;
  if isComplete currentState then ret tt
  else
    let currentPlayerId := currentPlayerId (turnInfo currentState) in
    nextPlayerId <- with_turnManager (@TurnManager_getNextPlayer unit) ;;
    let currentTurnNumber := turnNumber (turnInfo currentState) in
    let newState :=
      {| gameData := gameData currentState;
         turnInfo :=
           {| turnNumber := currentTurnNumber + 1;
              currentPlayerId := nextPlayerId;
              movesThisTurn := 0;
              maxMovesPerTurn := maxMovesPerTurn (turnInfo currentState);
              timeStarted := now |};
         players := players currentState;
         phase := phase currentState;
         isComplete := isComplete currentState;
         winnerId := winnerId currentState |} in
    commit newState ;;;
    emit (turnEnded currentPlayerId currentTurnNumber) ;;;
    emit (turnStarted nextPlayerId (currentTurnNumber + 1)).

Definition isGameOver : M bool :=
  state <- getState ;; ret (isComplete state).

Definition getWinner : M (option string) :=
  state <- getState ;;
  ret (if isComplete state then winnerId state else None).

Definition reset : M unit :=
  with_stateManager (fun m => (tt, StateManager_reset m)) ;;;
  with_turnManager (fun tm => (Returns tt, TurnManager_reset tm)) ;;;
  set_config None ;;;
  emit gameReset.

Definition getAvailableActions : M (list (IGameAction TAction)) :=
  currentState <- getState ;;
  r <- the_rules ;;
  ret (getValidActions r currentState).

Definition undo : M bool :=
  ok <- with_stateManager (@StateManager_undo TState) ;;
  (if ok : bool
   then state <- getState ;; emit (actionUndone state)
   else ret tt) ;;;
  ret ok.

Definition redo : M bool :=
  ok <- with_stateManager (@StateManager_redo TState) ;;
  (if ok : bool
   then state <- getState ;; emit (actionRedone state)
   else ret tt) ;;;
  ret ok.
End GameController.

(* ================================================================== *)
(** ** Example games

    Small concrete games on which the definitions above are run. *)

Module Example.

Definition alice : IPlayer := mkPlayer "p1" "Alice" HUMAN.
Definition bob : IPlayer := mkPlayer "p2" "Bob" HUMAN.

Definition other (who : string) : string :=
  if String.eqb who "p1" then "p2" else "p1".

(** A game on the positions of a binary tree: from position [k] a player
    moves to [2k+1] or [2k+2]; positions from 7 on are terminal. *)
Definition position (k : Z) (current : string) : IGameState Z :=
  {| gameData := k;
     turnInfo := mkTurnInfo 1 current 0 None 0;
     players := [alice; bob];
     phase := PLAYING;
     isComplete := false;
     winnerId := None |}.

Definition move (who : string) (k : Z) : IGameAction Z :=
  mkAction "move" who k None.

Definition simulateAction (a : IGameAction Z) (s : IGameState Z)
  : IGameState Z :=
  position (data a) (other (currentPlayerId (turnInfo s))).

Definition isTerminalState (s : IGameState Z) : bool :=
  (7 <=? gameData s)%Z.

Definition getActionsForState (s : IGameState Z) (who : option string)
  : list (IGameAction Z) :=
  let who := match who with Some w => w | None => EmptyString end in
  if isTerminalState s then []
  else [move who (2 * gameData s + 1); move who (2 * gameData s + 2)].

(** The score of a position, read off a fixed table. *)
Definition evaluateState (s : IGameState Z) : num :=
  Fin (inject_Z ((gameData s * 7) mod 11 - 5)).

Definition evaluateAction (a : IGameAction Z) (s : IGameState Z) : num :=
  evaluateState (simulateAction a s).

(** A score that is not a number at one leaf (position 14), where a
    division by zero or a missing field would give NaN. *)
Definition score_with_NaN (s : IGameState Z) : num :=
  match gameData s with
  | 11%Z | 12%Z => Fin 3
  | 13%Z => Fin 5
  | 14%Z => NaN
  | _ => Fin 1
  end.

Definition simulatePlayout (s : IGameState Z) (n : nat) : num * nat :=
  (evaluateState s, n).

(** Every draw is 0.5: no noise. *)
Definition bits_half : nat -> Z := fun _ => (2 ^ 52)%Z.

(** The first draw is 0.875, the others 0.5. *)
Definition bits_high_first : nat -> Z :=
  fun n => match n with O => (7 * 2 ^ 50)%Z | _ => (2 ^ 52)%Z end.

Definition ai_config (level : AILevel) (depth : option Z) : IAIConfig :=
  mkAIConfig "p1" level None None depth false.

(** The moves [who] has at position [k]. *)
Definition moves_at (k : Z) (who : string) : list (IGameAction Z) :=
  getActionsForState (position k who) (Some who).

(** Coarse stand-ins for [Math.sqrt] and [Math.log], exact at 0 and 1,
    for running the search on an example. *)
Definition rough_sqrt (x : num) : num :=
  match x with
  | Fin q => if JS.Qlt_bool q 0 then NaN else Fin q
  | NInf => NaN
  | other => other
  end.

Definition rough_log (x : num) : num :=
  match x with
  | Fin q =>
      match JS.sign q with
      | Lt => Fin (q - 1)
      | Eq => NInf
      | Gt => NaN
      end
  | NInf => NaN
  | other => other
  end.

Definition minimax_ai (level : AILevel) (depth : Z) : MinimaxAI :=
  MinimaxAI_new (ai_config level (Some depth)).

Definition mcts_ai (level : AILevel) : MCTSAI :=
  MCTSAI_new (ai_config level None).

(** A node visited twice with one visited and one unvisited child. *)
Definition half_explored : MCTSNode Z Z :=
  Node (position 0 "p1") None
       [Node (position 1 "p2") (Some (move "p1" 1)) [] 2 (Fin 3);
        Node (position 2 "p2") (Some (move "p1" 2)) [] 0 (Fin 0)]
       2 (Fin 3).

(** A position in which no player may move although it is not terminal. *)
Definition stuck_actions (s : IGameState Z) (who : option string)
  : list (IGameAction Z) := [].

(** Rules of a counting game: an action adds its number to the counter,
    only the current player may act, ten or more ends the game. *)
Definition counting_rules : IGameRules Z Z :=
  {| createInitialState := fun cfg =>
       {| gameData := 0%Z;
          turnInfo :=
            mkTurnInfo 1 (match config_players cfg with
                          | p :: _ => id p
                          | [] => EmptyString
                          end) 0 None 0;
          players := config_players cfg;
          phase := PLAYING;
          isComplete := false;
          winnerId := None |};
     validateAction := fun a s =>
       if String.eqb (playerId a) (currentPlayerId (turnInfo s))
       then mkValidation true None
       else mkValidation false (Some "Not your turn"%string);
     rules_executeAction := fun a s =>
       mkResult true
         (Some {| gameData := (gameData s + data a)%Z;
                  turnInfo :=
                    mkTurnInfo (turnNumber (turnInfo s))
                               (currentPlayerId (turnInfo s))
                               (movesThisTurn (turnInfo s) + 1)
                               (maxMovesPerTurn (turnInfo s))
                               (timeStarted (turnInfo s));
                  players := players s;
                  phase := phase s;
                  isComplete := isComplete s;
                  winnerId := winnerId s |})
         None (Some [mkSideEffect "added" "the counter grew"]);
     getValidActions := fun s =>
       [mkAction "add" (currentPlayerId (turnInfo s)) 1%Z None];
     checkEndCondition := fun s =>
       if (10 <=? gameData s)%Z
       then mkEndCheck true (Some (currentPlayerId (turnInfo s))) None
       else mkEndCheck false None None |}.

Definition two_players : IGameConfig := mkConfig [alice; bob] None.

Definition initial_state : IGameState Z :=
  createInitialState counting_rules two_players.

(** Run a method and keep the controller it leaves. *)
Definition after {A : Type} (m : M Z Z A) (c : GameController Z Z)
  : GameController Z Z := snd (m c).

(** A freshly initialized game. *)
Definition started : GameController Z Z :=
  after (initialize two_players) (GameController_new counting_rules).

(** The same game after [endTurn()] and then [undo()]. *)
Definition turn_undone : GameController Z Z :=
  after (@undo Z Z) (after (endTurn 5) started).

(** The game after p1 has added 3. *)
Definition played : GameController Z Z :=
  after (executeAction (mkAction "add" "p1" 3%Z None)) started.

Definition played_state : IGameState Z :=
  {| gameData := 3%Z;
     turnInfo := mkTurnInfo 1 "p1" 1 None 0;
     players := [alice; bob];
     phase := PLAYING;
     isComplete := false;
     winnerId := None |}.

End Example.

(** What the specification says of [endTurn()]: the successor is computed
    from the state's [turnInfo.currentPlayerId]. *)
Definition endTurn_follows_state_player {TState TAction : Type}
  (c : GameController TState TAction) (now : Z) : Prop :=
  forall current,
    currentState (stateManager c) = Some current ->
    isComplete current = false ->
    exists c' s',
      endTurn now c = (Returns tt, c') /\
      currentState (stateManager c') = Some s' /\
      Some (currentPlayerId (turnInfo s')) =
        fst (getNextPlayer (turnOrderStrategy (turnManager c))
               (strategyState (turnManager c))
               (currentPlayerId (turnInfo current))
               (map id (tm_players (turnManager c)))) /\
      turnNumber (turnInfo s') = (turnNumber (turnInfo current) + 1)%Z /\
      movesThisTurn (turnInfo s') = 0%Z.

(* ================================================================== *)
(** ** Further methods of the state manager and of the turn manager *)

(** [map.set(key, value)] on a [Map] kept as an association list in
    insertion order: an existing key keeps its place. *)
Fixpoint Map_set {V : Type} (key : string) (value : V)
  (map : list (string * V)) : list (string * V) :=
  match map with
  | [] => [(key, value)]
  | (k, v) :: rest =>
      if String.eqb k key then (key, value) :: rest
      else (k, v) :: Map_set key value rest
  end.

(** [`checkpoint_${Date.now()}`] *)
Definition checkpoint_id (now : Z) : string :=
  ("checkpoint_" ++ NilZero.string_of_int (Z.to_int now))%string.

(** [createCheckpoint]; [now] is what [Date.now()] returns. *)
Definition createCheckpoint {TState : Type} (m : GameStateManager TState)
  (now : Z) : string * GameStateManager TState :=
  let checkpointId := checkpoint_id now in
  let checkpoint := option_map deepClone (currentState m) in
  (checkpointId,
   {| currentState := currentState m;
      history := history m;
      redoStack := redoStack m;
      maxHistorySize := maxHistorySize m;
      checkpoints := Map_set checkpointId checkpoint (checkpoints m) |}).

(** A run of operations that leaves the checkpoints alone. *)
Definition keeps_checkpoints {TState : Type} (op : manager_op TState)
  : bool :=
  match op with
  | OpReset _ => false
  | _ => true
  end.

Section TurnManagerMore.
Variable sigma : Type.

(** [getCurrentPlayer]: [None] stands for [undefined] (a cursor outside
    the list). *)
Definition TurnManager_getCurrentPlayer (tm : TurnManager sigma)
  : outcome (option IPlayer) :=
  match tm_players tm with
  | [] => Throws "Turn manager not initialized"
  | _ => Returns (at_index (tm_players tm) (currentPlayerIndex tm))
  end.

Definition TurnManager_getPlayers (tm : TurnManager sigma) : list IPlayer :=
  tm_players tm.

Definition TurnManager_getPlayer (tm : TurnManager sigma) (playerId : string)
  : option IPlayer :=
  find (fun p => String.eqb (id p) playerId) (tm_players tm).

(** [k] calls of [getNextPlayer] in a row: the manager they leave, and
    what each call returned or threw. *)
Fixpoint TurnManager_calls (k : nat) (tm : TurnManager sigma)
  : list (outcome string) * TurnManager sigma :=
  match k with
  | O => ([], tm)
  | S k' =>
      let (r, tm') := TurnManager_getNextPlayer tm in
      let (rs, tm'') := TurnManager_calls k' tm' in
      (r :: rs, tm'')
  end.
End TurnManagerMore.

(** [setStrategy]: the manager takes the new strategy object, reset. *)
Definition TurnManager_setStrategy {sigma tau : Type} (tm : TurnManager sigma)
  (strategy : ITurnOrderStrategy tau) (st : tau) : TurnManager tau :=
  {| tm_players := tm_players tm;
     currentPlayerIndex := currentPlayerIndex tm;
     turnOrderStrategy := strategy;
     strategyState :=
       match strategy_reset strategy with
       | Some reset => reset st
       | None => st
       end |}.

(** [k] calls of a strategy's [getNextPlayer] in a row, from the same
    current player and player list: the answers and the private state
    left. *)
Fixpoint strategy_calls {sigma : Type} (strategy : ITurnOrderStrategy sigma)
  (k : nat) (st : sigma) (currentPlayerId : string) (players : list string)
  : list (option string) * sigma :=
  match k with
  | O => ([], st)
  | S k' =>
      let (r, st') := getNextPlayer strategy st currentPlayerId players in
      let (rs, st'') := strategy_calls strategy k' st' currentPlayerId players in
      (r :: rs, st'')
  end.

(* ================================================================== *)
(** ** Further methods of the controller *)

Section GameControllerMore.
Variables TState TAction : Type.

(** [isComplete()] and [performAction], the two aliases. *)
Definition GameController_isComplete : M TState TAction bool :=
  bind (@getState TState TAction) (fun state => ret (isComplete state)).

Definition performAction (action : IGameAction TAction)
  : M TState TAction (IActionResult TState) :=
  executeAction action.

Definition getActionHistory
  : M TState TAction (list (IGameState TState)) :=
  fun c => (Returns (getHistory (stateManager c)), c).

(** [endTurn()] called once for each reading of the clock in the list. *)
Fixpoint endTurns (clock : list Z) : M TState TAction unit :=
  match clock with
  | [] => ret tt
  | now :: later => bind (endTurn now) (fun _ => endTurns later)
  end.

(** An AI player as the controller sees it: what [chooseAction] resolves
    to.  The registry [aiPlayers] is a [Map] from player id to AI, kept
    here beside the controller. *)
Definition IAIPlayer : Type :=
  IGameState TState -> list (IGameAction TAction) ->
  option (IGameAction TAction).

Definition AIPlayers : Type := list (string * IAIPlayer).

Definition registerAI (aiPlayers : AIPlayers) (playerId : string)
  (ai : IAIPlayer) : AIPlayers :=
  Map_set playerId ai aiPlayers.

Definition unregisterAI (aiPlayers : AIPlayers) (playerId : string)
  : AIPlayers :=
  filter (fun kv => negb (String.eqb (fst kv) playerId)) aiPlayers.

Definition Map_get {V : Type} (map : list (string * V)) (key : string)
  : option V :=
  option_map snd (find (fun kv => String.eqb (fst kv) key) map).

Definition isAIPlayer (aiPlayers : AIPlayers) (playerId : string) : bool :=
  match Map_get aiPlayers playerId with Some _ => true | None => false end.

(** The state [handleGameEnd] commits. *)
Definition ended_state (state : IGameState TState) (winner : option string)
  : IGameState TState :=
  {| gameData := gameData state;
     turnInfo := turnInfo state;
     players := players state;
     phase := COMPLETED;
     isComplete := true;
     winnerId := winner |}.

(** [executeAITurn], once its promise has resolved. *)
Definition executeAITurn (aiPlayers : AIPlayers) : M TState TAction unit :=
  bind (@getState TState TAction) (fun currentState =>
  let currentPlayerId := currentPlayerId (turnInfo currentState) in
  match Map_get aiPlayers currentPlayerId with
  | None => throw ("No AI registered for player " ++ currentPlayerId)
  | Some ai =>
      bind (@getAvailableActions TState TAction) (fun availableActions =>
      match ai currentState availableActions with
      | Some action => bind (executeAction action) (fun _ => ret tt)
      | None => ret tt
      end)
  end).
End GameControllerMore.


(* ================================================================== *)
(** ** Double-precision arithmetic *)

(** [SeededRandom] computes with numbers far from the integers the rest
    of the library handles, so its arithmetic is modelled with the
    rounding of the doubles: the result of an operation is the exact
    result rounded to the nearest double, to the even one of two that
    are equally near, and to an infinity beyond the largest.  The zero
    has no sign. *)
Module Double.

(** The integer nearest to [x], the even one of two that are equally
    near. *)
Definition nearest_even (x : Q) : Z :=
  let f := Qfloor x in
  match Qcompare (x - inject_Z f) (1 # 2) with
  | Lt => f
  | Gt => (f + 1)%Z
  | Eq => if Z.even f then f else (f + 1)%Z
  end.

(** The exponent [e] with [2^e <= a < 2^(e+1)], for [a > 0]. *)
Definition binade (a : Q) : Z :=
  let e := (Z.log2 (Qnum a) - Z.log2 (Zpos (Qden a)))%Z in
  if Qle_bool (2 ^ e) a then e else (e - 1)%Z.

(** The distance between the doubles around [a > 0]: they have 53
    significant bits, and lie [2^-1074] apart below [2^-1022]. *)
Definition ulp (a : Q) : Q := 2 ^ (Z.max (binade a) (-1022) - 52).

(** The double nearest to [a > 0], were there no largest one. *)
Definition nearest_double (a : Q) : Q :=
  inject_Z (nearest_even (a / ulp a)) * ulp a.

(** A real number rounded to a double; what rounds to [2^1024] is
    infinite. *)
Definition round (q : Q) : num :=
  let q := Qred q in
  match Qnum q with
  | Z0 => Fin 0
  | Zpos _ =>
      let x := nearest_double q in
      if Qle_bool (2 ^ 1024) x then PInf else Fin (Qred x)
  | Zneg _ =>
      let x := nearest_double (- q) in
      if Qle_bool (2 ^ 1024) x then NInf else Fin (Qred (- x))
  end.

Definition rounded (x : num) : num :=
  match x with
  | Fin q => round q
  | _ => x
  end.

(** [x + y], [x - y], [x * y] and [x / y] *)
Definition add (x y : num) : num := rounded (JS.add x y).
Definition sub (x y : num) : num := rounded (JS.sub x y).
Definition mul (x y : num) : num := rounded (JS.mul x y).
Definition div (x y : num) : num := rounded (JS.div x y).

Definition truncate (q : Q) : Z :=
  if Qle_bool 0 q then Qfloor q else Qceiling q.

(** [x % y]: what is left of [x] after the multiples of [y], with the
    sign of [x]; it is a double whenever [x] and [y] are. *)
Definition rem (x y : num) : num :=
  match x, y with
  | Fin p, Fin q =>
      match JS.sign q with
      | Eq => NaN
      | _ => Fin (p - q * inject_Z (truncate (p / q)))
      end
  | Fin p, (NInf | PInf) => Fin p
  | _, _ => NaN
  end.

(** [Math.floor(x)] *)
Definition floor (x : num) : num :=
  match x with
  | Fin q => Fin (inject_Z (Qfloor q))
  | _ => x
  end.

End Double.

(* ================================================================== *)
(** ** SeededRandom *)

(** [ToInt32], which the bitwise operators apply to their operands and
    to their result. *)
Definition ToInt32 (z : Z) : Z := ((z + 2 ^ 31) mod 2 ^ 32 - 2 ^ 31)%Z.

(** [charCodeAt] on a string of one-byte characters. *)
Definition charCode (c : ascii) : Z := Z.of_N (N_of_ascii c).

(** The loop of [hashString]: [(hash << 5) - hash + char], then
    [hash & hash].  The operands stay below [2^37], where the integers
    are doubles and their sums exact. *)
Fixpoint hashString_loop (str : string) (hash : Z) : Z :=
  match str with
  | EmptyString => hash
  | String c rest =>
      let char := charCode c in
      let hash := (ToInt32 (ToInt32 hash * 2 ^ 5) - hash + char)%Z in
      let hash := ToInt32 hash in
      hashString_loop rest hash
  end.

Definition hashString (str : string) : Z :=
  Z.abs (hashString_loop str 0).

(** The generator is its [seed] field.  The constructor hashes a string
    seed and takes a number as it is. *)
Definition SeededRandom : Type := num.

Definition SeededRandom_new (seed : string + num) : SeededRandom :=
  match seed with
  | inl str => JS.of_Z (hashString str)
  | inr number => number
  end.

(** [next]: the number returned and the generator after the call. *)
Definition SeededRandom_next (seed : SeededRandom) : num * SeededRandom :=
  let seed :=
    Double.rem (Double.add (Double.mul seed (JS.of_Z 9301)) (JS.of_Z 49297))
               (JS.of_Z 233280) in
  (Double.div seed (JS.of_Z 233280), seed).

Definition nextInt (min max : num) (seed : SeededRandom)
  : num * SeededRandom :=
  let (r, seed) := SeededRandom_next seed in
  (Double.add
     (Double.floor
        (Double.mul r (Double.add (Double.sub max min) (JS.of_Z 1))))
     min,
   seed).

Definition nextBoolean (probability : option num) (seed : SeededRandom)
  : bool * SeededRandom :=
  let probability :=
    match probability with Some p => p | None => Fin (1 # 2) end in
  let (r, seed) := SeededRandom_next seed in
  (JS.ltb r probability, seed).

(** A number used as the key of an array: an index if it is an integer
    from 0 to [2^32 - 2], the name of a property otherwise. *)
Definition array_index (key : num) : option nat :=
  match key with
  | Fin q =>
      let i := Qfloor q in
      if Qeq_bool q (inject_Z i) && (0 <=? i)%Z && (i <? 2 ^ 32 - 1)%Z
      then Some (Z.to_nat i)
      else None
  | _ => None
  end.

(** Two numbers that name the same property. *)
Definition same_key (x y : num) : bool :=
  match x, y with
  | NaN, NaN | NInf, NInf | PInf, PInf => true
  | Fin p, Fin q => Qeq_bool p q
  | _, _ => false
  end.

(** An array that is written by key: its elements, [None] for
    [undefined], and beside them the properties that writes at keys
    which are no indices create. *)
Record JSArray (T : Type) : Type := mkJSArray {
  array_elements : list (option T);
  array_properties : list (num * option T)
}.

Section JSArray.
Context {T : Type}.

Definition Array_get (arr : JSArray T) (key : num) : option T :=
  match array_index key with
  | Some k => nth k (array_elements arr) None
  | None =>
      match find (fun kv => same_key (fst kv) key) (array_properties arr) with
      | Some (_, v) => v
      | None => None
      end
  end.

Fixpoint property_set (key : num) (value : option T)
  (props : list (num * option T)) : list (num * option T) :=
  match props with
  | [] => [(key, value)]
  | (k, v) :: rest =>
      if same_key k key then (key, value) :: rest
      else (k, v) :: property_set key value rest
  end.

(** [arr[key] = value]: a write behind the end extends the array. *)
Definition Array_set (arr : JSArray T) (key : num) (value : option T)
  : JSArray T :=
  match array_index key with
  | Some k =>
      let elements := array_elements arr in
      {| array_elements :=
           if (k <? List.length elements)%nat
           then firstn k elements ++ value :: skipn (S k) elements
           else elements ++ repeat None (k - List.length elements) ++ [value];
         array_properties := array_properties arr |}
  | None =>
      {| array_elements := array_elements arr;
         array_properties := property_set key value (array_properties arr) |}
  end.

(** [[arr[i], arr[j]] = [arr[j], arr[i]]] *)
Definition Array_swap (arr : JSArray T) (i j : num) : JSArray T :=
  let at_j := Array_get arr j in
  let at_i := Array_get arr i in
  Array_set (Array_set arr i at_j) j at_i.

(** [arr.slice(0, end)]: [end] is cut to an integer, NaN counting as 0,
    and a negative [end] counts from the end. *)
Definition Array_slice0 (elements : list (option T)) (finish : num)
  : list (option T) :=
  match finish with
  | NaN | NInf => []
  | PInf => elements
  | Fin q =>
      let finish := Double.truncate q in
      if (finish <? 0)%Z
      then firstn
             (Z.to_nat (Z.max 0 (Z.of_nat (List.length elements) + finish)))
             elements
      else firstn (Z.to_nat finish) elements
  end.

(** The loop of [shuffle], [i] running down from [length - 1] to 1. *)
Fixpoint shuffle_loop (i : nat) (result : JSArray T) (seed : SeededRandom)
  : JSArray T * SeededRandom :=
  match i with
  | O => (result, seed)
  | S i' =>
      let (j, seed) := nextInt (JS.of_Z 0) (JS.of_Z (Z.of_nat i)) seed in
      shuffle_loop i' (Array_swap result (JS.of_Z (Z.of_nat i)) j) seed
  end.

Definition shuffle (array : list T) (seed : SeededRandom)
  : JSArray T * SeededRandom :=
  let result := mkJSArray (map Some array) [] in
  shuffle_loop (List.length array - 1) result seed.

Definition pick (array : list T) (seed : SeededRandom)
  : option T * SeededRandom :=
  match array with
  | [] => (None, seed)
  | _ =>
      let (j, seed) :=
        nextInt (JS.of_Z 0) (JS.of_Z (Z.of_nat (List.length array) - 1))
                seed in
      (Array_get (mkJSArray (map Some array) []) j, seed)
  end.

Definition pickMultiple (array : list T) (count : num) (seed : SeededRandom)
  : list (option T) * SeededRandom :=
  let (shuffled, seed) := shuffle array seed in
  (Array_slice0 (array_elements shuffled)
     (JS.min count (JS.of_Z (Z.of_nat (List.length array)))),
   seed).
End JSArray.

(* ================================================================== *)
(** ** Further example data *)

Module MoreExamples.
Import Example.

(** The state manager of the game after p1's move has been undone. *)
Definition undone : GameStateManager Z :=
  snd (StateManager_undo (stateManager played)).

(** A manager that keeps one state, with a checkpoint taken at time 7 and
    a full history. *)
Definition full_manager : GameStateManager Z :=
  setState
    (snd (createCheckpoint
            (setState (GameStateManager_new Z (Some 1%Z)) initial_state) 7))
    played_state.

(** A turn manager whose strategy names a player who is not in the
    game. *)
Definition stray_manager : TurnManager Z :=
  mkTurnManager [alice; bob] 0 (TurnOrderStrategies.custom ["p3"%string]) 0%Z.

(** The counting game with rules that accept every move of the current
    player and then fail to execute it. *)
Definition failing_rules : IGameRules Z Z :=
  {| createInitialState := createInitialState counting_rules;
     validateAction := validateAction counting_rules;
     rules_executeAction := fun _ _ =>
       mkResult false None (Some "out of order"%string) None;
     getValidActions := getValidActions counting_rules;
     checkEndCondition := checkEndCondition counting_rules |}.

Definition refused : GameController Z Z :=
  after (initialize two_players) (GameController_new failing_rules).

(** The move that ends the counting game at once, and the state it
    gives. *)
Definition winning_move : IGameAction Z := mkAction "add" "p1" 10%Z None.

Definition won_state : IGameState Z :=
  {| gameData := 10%Z;
     turnInfo := mkTurnInfo 1 "p1" 1 None 0;
     players := [alice; bob];
     phase := PLAYING;
     isComplete := false;
     winnerId := None |}.

(** An AI that takes the first action it is offered. *)
Definition first_action : IAIPlayer Z Z :=
  fun _ availableActions => hd_error availableActions.

End MoreExamples.
(* ================================================================== *)
(** ** Relations used to state and prove the properties *)

(** Equality and order of numbers as propositions.  On numbers other than
    NaN they are what [===], [<] and [<=] decide; NaN is put below
    everything so that the order is total. *)
Definition num_eq (x y : num) : Prop :=
  match x, y with
  | NaN, NaN | NInf, NInf | PInf, PInf => True
  | Fin p, Fin q => p == q
  | _, _ => False
  end.

Definition num_lt (x y : num) : Prop :=
  match x, y with
  | _, NaN => False
  | NaN, _ => True
  | _, NInf => False
  | NInf, _ => True
  | Fin p, Fin q => p < q
  | Fin _, PInf => True
  | PInf, _ => False
  end.

Definition num_le (x y : num) : Prop := num_lt x y \/ num_eq x y.

Definition real (x : num) : Prop := x <> NaN.

(** Two evaluated actions that [chooseAction] cannot tell apart: the same
    action with equal values. *)
Definition same_evaluation {A : Type} (x y : A * num) : Prop :=
  fst x = fst y /\ num_eq (snd x) (snd y).

(** What a search of window [(a, b)] may return for a position of exact
    value [v]: [v] itself inside the window, a bound on [v] outside. *)
Definition within_window (a b r v : num) : Prop :=
  real r /\
  (num_le r a -> num_le v r) /\
  (num_le b r -> num_le r v) /\
  (num_lt a r -> num_lt r b -> num_eq r v).

(** What the operations keep: the history and the redo stack together
    hold at most [maxHistorySize] states. *)
Definition within_bound {TState : Type} (m : GameStateManager TState)
  : Prop :=
  (Z.of_nat (List.length (history m) + List.length (redoStack m))
   <= maxHistorySize m)%Z.

(* ================================================================== *)
(** * Properties *)

(** ** Numbers *)

Module NumOrd.
Definition t := num.
Definition eq := num_eq.
Definition lt := num_lt.
Definition le := num_le.

#[global] Instance eq_equiv : Equivalence eq.
Proof.
  split.
  - intros []; simpl; auto with qarith.
  - intros [] []; simpl; auto with qarith.
  - intros [] [] []; simpl; try tauto. intros; etransitivity; eauto.
Qed.

#[global] Instance lt_strorder : StrictOrder lt.
Proof.
  split.
  - intros [] H; simpl in H; auto. revert H. apply Qlt_irrefl.
  - intros [] [] []; simpl; try tauto. apply Qlt_trans.
Qed.

#[global] Instance lt_compat : Proper (eq ==> eq ==> iff) lt.
Proof.
  intros [] [] E1 [] [] E2; simpl in *; try tauto.
  now rewrite E1, E2.
Qed.

Lemma le_lteq : forall x y, le x y <-> lt x y \/ eq x y.
Proof. reflexivity. Qed.

Lemma lt_total : forall x y, lt x y \/ eq x y \/ lt y x.
Proof.
  intros [] []; simpl; auto.
  destruct (Q_dec q q0) as [[H | H] | H]; auto.
Qed.
End NumOrd.

Module NumOrderTac := MakeOrderTac NumOrd NumOrd.
Ltac num_order :=
  change num_eq with NumOrd.eq in *;
  change num_lt with NumOrd.lt in *;
  change num_le with NumOrd.le in *;
  NumOrderTac.order.

Lemma Qlt_bool_iff (p q : Q) : JS.Qlt_bool p q = true <-> p < q.
Proof.
  unfold JS.Qlt_bool. rewrite negb_true_iff, <- not_true_iff_false.
  rewrite Qle_bool_iff. split; [apply Qnot_le_lt | apply Qlt_not_le].
Qed.

Lemma ltb_lt (x y : num) :
  real x -> real y -> (JS.ltb x y = true <-> num_lt x y).
Proof.
  unfold real. destruct x, y; simpl; intros; try tauto; try easy.
  apply Qlt_bool_iff.
Qed.

Lemma leb_le (x y : num) :
  real x -> real y -> (JS.leb x y = true <-> num_le x y).
Proof.
  unfold real, num_le.
  destruct x, y; simpl; intros; try tauto; try (split; auto; intuition easy).
  rewrite Qle_bool_iff. apply Qle_lteq.
Qed.

Lemma leb_false (x y : num) :
  real x -> real y -> (JS.leb x y = false <-> num_lt y x).
Proof.
  intros Hx Hy. rewrite <- not_true_iff_false, leb_le by assumption.
  split; intros; num_order.
Qed.

Lemma ltb_false (x y : num) :
  real x -> real y -> (JS.ltb x y = false <-> num_le y x).
Proof.
  intros Hx Hy. rewrite <- not_true_iff_false, ltb_lt by assumption.
  split; intros; num_order.
Qed.

Lemma max_real (x y : num) : real x -> real y -> real (JS.max x y).
Proof.
  unfold real, JS.max. destruct x, y; try easy;
    destruct (JS.ltb _ _); easy.
Qed.

Lemma min_real (x y : num) : real x -> real y -> real (JS.min x y).
Proof.
  unfold real, JS.min. destruct x, y; try easy;
    destruct (JS.ltb _ _); easy.
Qed.

Lemma max_cases (x y : num) :
  real x -> real y ->
  (num_lt x y /\ JS.max x y = y) \/ (num_le y x /\ JS.max x y = x).
Proof.
  intros Hx Hy.
  assert (E : JS.max x y = if JS.ltb x y then y else x)
    by (destruct x, y; try reflexivity; now elim Hx + elim Hy).
  rewrite E. destruct (JS.ltb x y) eqn:L.
  - left. split; [now apply ltb_lt | reflexivity].
  - right. split; [now apply ltb_false | reflexivity].
Qed.

Lemma min_cases (x y : num) :
  real x -> real y ->
  (num_lt y x /\ JS.min x y = y) \/ (num_le x y /\ JS.min x y = x).
Proof.
  intros Hx Hy.
  assert (E : JS.min x y = if JS.ltb y x then y else x)
    by (destruct x, y; try reflexivity; now elim Hx + elim Hy).
  rewrite E. destruct (JS.ltb y x) eqn:L.
  - left. split; [now apply ltb_lt | reflexivity].
  - right. split; [now apply ltb_false | reflexivity].
Qed.

Lemma max_r (x y : num) : real x -> real y -> num_lt x y -> JS.max x y = y.
Proof.
  intros Hx Hy H. destruct (max_cases Hx Hy) as [[_ E] | [H' E]];
    [exact E | num_order].
Qed.

Lemma max_l (x y : num) : real x -> real y -> num_le y x -> JS.max x y = x.
Proof.
  intros Hx Hy H. destruct (max_cases Hx Hy) as [[H' E] | [_ E]];
    [num_order | exact E].
Qed.

Lemma min_r (x y : num) : real x -> real y -> num_lt y x -> JS.min x y = y.
Proof.
  intros Hx Hy H. destruct (min_cases Hx Hy) as [[_ E] | [H' E]];
    [exact E | num_order].
Qed.

Lemma min_l (x y : num) : real x -> real y -> num_le x y -> JS.min x y = x.
Proof.
  intros Hx Hy H. destruct (min_cases Hx Hy) as [[H' E] | [_ E]];
    [num_order | exact E].
Qed.

(** ** Choosing the best evaluated action *)

Lemma SortCompare_sub (a a' b b' : num) :
  num_eq a a' -> num_eq b b' ->
  SortCompare (JS.sub b a) = SortCompare (JS.sub b' a').
Proof.
  destruct a, a', b, b'; simpl; intros Ea Eb; try easy.
  now rewrite Ea, Eb.
Qed.

Section BestAction.
Context {A : Type}.

Lemma sort_insert_same (x y : A * num) l1 l2 :
  same_evaluation x y -> Forall2 same_evaluation l1 l2 ->
  Forall2 same_evaluation
    (sort_insert by_value_desc x l1) (sort_insert by_value_desc y l2).
Proof.
  intros Hxy H. induction H as [| x1 y1 l1 l2 H1 H IH]; simpl.
  - constructor; [assumption | constructor].
  - unfold by_value_desc at 1 3.
    assert (E : SortCompare (JS.sub (snd x1) (snd x)) =
                SortCompare (JS.sub (snd y1) (snd y))).
    { destruct Hxy as (_ & Ev), H1 as (_ & Ev1).
      now apply SortCompare_sub. }
    rewrite E. clear E.
    destruct (SortCompare (JS.sub (snd y1) (snd y))).
    + constructor; [assumption | now constructor].
    + constructor; [assumption | now constructor].
    + constructor; assumption.
Qed.

Lemma Array_sort_same (l1 l2 : list (A * num)) :
  Forall2 same_evaluation l1 l2 ->
  Forall2 same_evaluation
    (Array_sort by_value_desc l1) (Array_sort by_value_desc l2).
Proof.
  induction 1; simpl; [constructor | now apply sort_insert_same].
Qed.

Lemma best_action_same (l1 l2 : list (A * num)) :
  Forall2 same_evaluation l1 l2 -> best_action l1 = best_action l2.
Proof.
  intros H. apply Array_sort_same in H. unfold best_action.
  destruct H as [| x y ? ? (E & _) _]; simpl; congruence.
Qed.
End BestAction.

Lemma addNoise_same (bits : nat -> Z) (base : BaseAI) (v v' : num)
  (k : Q) (n : nat) :
  num_eq v v' ->
  num_eq (addNoise bits base v k n) (addNoise bits base v' k n).
Proof.
  unfold addNoise. destruct v, v'; simpl; intros E; try easy.
  rewrite E. reflexivity.
Qed.

(** Without noise the scale of the noise does not matter. *)
Lemma addNoise_zero (bits : nat -> Z) (base : BaseAI) (v : num)
  (k k' : Q) (n : nat) :
  Math_random bits n == 1 # 2 ->
  num_eq (addNoise bits base v k n) (addNoise bits base v k' n).
Proof.
  unfold addNoise. intros E. destruct v; simpl; try easy.
  rewrite E. ring.
Qed.

(** The head of the array sorted by descending value. *)

Lemma SortCompare_desc (a b : num) :
  real a -> real b ->
  (SortCompare (JS.sub b a) = Gt <-> num_lt a b).
Proof.
  unfold real. destruct a as [| | p |], b as [| | q |]; simpl;
    intros Ha Hb; try tauto; try easy.
  rewrite <- Qgt_alt. split; intros H.
  - apply Qlt_minus_iff. exact H.
  - apply Qlt_minus_iff in H. exact H.
Qed.

Section FirstMaximum.
Context {A : Type}.

Lemma hd_sort_insert (x : A * num) (l : list (A * num)) :
  hd_error (sort_insert by_value_desc x l) =
  match hd_error l with
  | None => Some x
  | Some y =>
      match SortCompare (by_value_desc x y) with
      | Gt => Some y
      | _ => Some x
      end
  end.
Proof.
  destruct l as [| y l]; [reflexivity |]. simpl.
  destruct (SortCompare (by_value_desc x y)); reflexivity.
Qed.

(** The head of the sorted array is the first entry of greatest value. *)
Lemma sorted_head_is_first_maximum (l : list (A * num)) :
  l <> [] ->
  Forall (fun x => real (snd x)) l ->
  exists pre best post,
    l = pre ++ best :: post /\
    hd_error (Array_sort by_value_desc l) = Some best /\
    Forall (fun x => num_lt (snd x) (snd best)) pre /\
    Forall (fun x => num_le (snd x) (snd best)) post.
Proof.
  induction l as [| x l IH]; intros Hne Hreal; [contradiction |].
  inversion Hreal as [| ? ? Hx Hl]; subst.
  cbn [Array_sort]. rewrite hd_sort_insert.
  destruct l as [| y l'].
  - exists [], x, []. repeat split; constructor.
  - destruct (IH ltac:(discriminate) Hl)
      as (pre & best & post & E & Hhd & Hpre & Hpost).
    rewrite Hhd.
    assert (Hb : real (snd best)).
    { rewrite Forall_forall in Hl. apply Hl. rewrite E.
      apply in_elt. }
    unfold by_value_desc.
    pose proof (@SortCompare_desc (snd x) (snd best) Hx Hb) as Hcmp.
    destruct (NumOrd.lt_total (snd x) (snd best)) as [Hlt | Hge].
    + apply Hcmp in Hlt. rewrite Hlt.
      exists (x :: pre), best, post. rewrite E.
      split; [reflexivity |]. split; [reflexivity |].
      split; [| exact Hpost].
      constructor; [| exact Hpre]. apply Hcmp. exact Hlt.
    + assert (Hle : num_le (snd best) (snd x))
        by (destruct Hge; num_order).
      assert (Hhead :
        match SortCompare (JS.sub (snd best) (snd x)) with
        | Gt => Some best
        | _ => Some x
        end = Some x).
      { destruct (SortCompare (JS.sub (snd best) (snd x))) eqn:Ec;
          try reflexivity.
        assert (num_lt (snd x) (snd best)) by now apply Hcmp.
        num_order. }
      rewrite Hhead.
      exists [], x, (y :: l'). split; [reflexivity |].
      split; [reflexivity |]. split; [constructor |].
      rewrite E. apply Forall_app. split; [| constructor].
      * eapply Forall_impl; [| exact Hpre]. cbn beta. intros; num_order.
      * exact Hle.
      * eapply Forall_impl; [| exact Hpost]. cbn beta. intros; num_order.
Qed.
End FirstMaximum.

Lemma add_real (v : num) (q : Q) : real v -> real (JS.add v (Fin q)).
Proof. unfold real. destruct v; simpl; easy. Qed.

(** ** Minimax: the pruned search against the unpruned one *)

Section MinimaxFacts.
Variables TState TAction : Type.
Variable bits : nat -> Z.
Variable simulateAction :
  IGameAction TAction -> IGameState TState -> IGameState TState.
Variable getActionsForState :
  IGameState TState -> option string -> list (IGameAction TAction).
Variable isTerminalState : IGameState TState -> bool.
Variable evaluateState : IGameState TState -> num.
Variable ai : MinimaxAI.

#[local] Abbreviation pruned :=
  (minimax simulateAction getActionsForState isTerminalState evaluateState ai).
#[local] Abbreviation unpruned :=
  (minimax_unpruned simulateAction getActionsForState isTerminalState
     evaluateState ai).

(** C8. At a ply that is neither at depth 0 nor terminal, when
    [getActionsForState] returns no action for the player to move,
    [minimax] returns its initial sentinel: minus infinity at a maximizing
    ply and plus infinity at a minimizing one, and not an evaluation of
    the state. *)
Theorem minimax_no_actions_returns_sentinel
  (fuel : nat) (state : IGameState TState) (depth : Z) (alpha beta : num)
  (maximizingPlayer : bool) :
  depth <> 0%Z ->
  isTerminalState state = false ->
  getActionsForState state
    (if maximizingPlayer
     then Some (ai_playerId (minimax_base ai))
     else hd_error (getOpponentIds (minimax_base ai) state)) = [] ->
  pruned (S fuel) state depth alpha beta maximizingPlayer =
  Some (if maximizingPlayer then NInf else PInf).
Proof.
  intros Hd Ht Ha. simpl.
  apply Z.eqb_neq in Hd. rewrite Hd, Ht. simpl.
  destruct maximizingPlayer; rewrite Ha; reflexivity.
Qed.

Section Loops.
Variable rec : IGameState TState -> num -> num -> option num.
Variable urec : IGameState TState -> option num.
Variable state : IGameState TState.
Hypothesis urec_real : forall s v, urec s = Some v -> real v.
Hypothesis rec_ok :
  forall s a b v, real a -> real b -> num_lt a b -> urec s = Some v ->
    exists r, rec s a b = Some r /\ within_window a b r v.

Lemma fold_max_real actions : forall t v,
  real t -> fold_max simulateAction urec state actions t = Some v -> real v.
Proof.
  induction actions as [| x rest IH]; simpl; intros t v Ht H.
  - now inversion H; subst.
  - destruct (urec _) as [vi |] eqn:E; [| discriminate].
    eapply IH; [| exact H]. apply max_real; eauto.
Qed.

Lemma fold_min_real actions : forall t v,
  real t -> fold_min simulateAction urec state actions t = Some v -> real v.
Proof.
  induction actions as [| x rest IH]; simpl; intros t v Ht H.
  - now inversion H; subst.
  - destruct (urec _) as [vi |] eqn:E; [| discriminate].
    eapply IH; [| exact H]. apply min_real; eauto.
Qed.

Lemma fold_max_ge actions : forall t v,
  real t -> fold_max simulateAction urec state actions t = Some v ->
  num_le t v.
Proof.
  induction actions as [| x rest IH]; simpl; intros t v Ht H.
  - inversion H; subst. num_order.
  - destruct (urec _) as [vi |] eqn:E; [| discriminate].
    assert (Hvi : real vi) by eauto.
    apply IH in H; [| now apply max_real].
    destruct (max_cases Ht Hvi) as [[? E1] | [? E1]]; rewrite E1 in H;
      num_order.
Qed.

Lemma fold_min_le actions : forall t v,
  real t -> fold_min simulateAction urec state actions t = Some v ->
  num_le v t.
Proof.
  induction actions as [| x rest IH]; simpl; intros t v Ht H.
  - inversion H; subst. num_order.
  - destruct (urec _) as [vi |] eqn:E; [| discriminate].
    assert (Hvi : real vi) by eauto.
    apply IH in H; [| now apply min_real].
    destruct (min_cases Ht Hvi) as [[? E1] | [? E1]]; rewrite E1 in H;
      num_order.
Qed.

(** The maximizing loop.  [a] is the window's lower end at entry of the
    node, [al] what the loop has raised it to, [m] the running maximum of
    the pruned loop and [t] that of the unpruned one. *)
Lemma max_loop_ok (a b : num) actions : forall m al t v,
  real a -> real b -> real m -> real al -> real t ->
  num_lt al b ->
  num_le a al -> num_le m al -> (num_le al a \/ num_le al m) ->
  num_le t m -> (num_lt a m -> num_le m t) ->
  fold_max simulateAction urec state actions t = Some v ->
  exists r,
    max_loop simulateAction rec state actions m al b = Some r /\
    within_window a b r v.
Proof.
  induction actions as [| x rest IH];
    simpl; intros m al t v Ha Hb Hm Hal Ht Hlt Haal Hmal Hor I1 I2 H.
  - inversion H; subst. exists m. split; [reflexivity |].
    repeat split; intros; auto; try num_order.
    specialize (I2 ltac:(assumption)). num_order.
  - destruct (urec _) as [vi |] eqn:E; [| discriminate].
    assert (Hvi : real vi) by eauto.
    destruct (rec_ok Hal Hb Hlt E) as (ri & -> & Hri & W1 & W2 & W3).
    destruct (NumOrd.lt_total al ri) as [Hc | Hc].
    + (* the child raises alpha *)
      rewrite (max_r Hal Hri Hc).
      rewrite (max_r Hm Hri) by num_order.
      destruct (JS.leb b ri) eqn:L.
      * apply leb_le in L; [| assumption ..].
        specialize (W2 L).
        apply fold_max_ge in H; [| now apply max_real].
        exists ri. split; [reflexivity |].
        destruct (max_cases Ht Hvi) as [[? E3] | [? E3]]; rewrite E3 in H;
          repeat split; intros; auto; num_order.
      * apply leb_false in L; [| assumption ..].
        specialize (W3 Hc L).
        rewrite (max_r Ht Hvi) in H by num_order.
        apply (IH ri ri vi v); auto;
          first [num_order | right; num_order | intros; num_order].
    + (* the child stays at or below alpha *)
      assert (Hle : num_le ri al) by (destruct Hc; num_order).
      specialize (W1 Hle).
      rewrite (max_l Hal Hri Hle).
      replace (JS.leb b al) with false
        by (symmetry; apply leb_false; assumption).
      apply (IH (JS.max m ri) al (JS.max t vi) v); auto;
        try (now apply max_real); clear IH H W2 W3;
        destruct (max_cases Hm Hri) as [[? E1] | [? E1]]; rewrite E1;
        destruct (max_cases Ht Hvi) as [[? E3] | [? E3]]; rewrite ?E3;
        try num_order;
        try (destruct Hor; [left | right]; num_order);
        try (intros A; try specialize (I2 A); destruct Hor; num_order).
Qed.

(** The minimizing loop, dually: [be] is the lowered upper end. *)
Lemma min_loop_ok (a b : num) actions : forall m be t v,
  real a -> real b -> real m -> real be -> real t ->
  num_lt a be ->
  num_le be b -> num_le be m -> (num_le b be \/ num_le m be) ->
  num_le m t -> (num_lt m b -> num_le t m) ->
  fold_min simulateAction urec state actions t = Some v ->
  exists r,
    min_loop simulateAction rec state actions m a be = Some r /\
    within_window a b r v.
Proof.
  induction actions as [| x rest IH];
    simpl; intros m be t v Ha Hb Hm Hbe Ht Hlt Hbeb Hbem Hor I1 I2 H.
  - inversion H; subst. exists m. split; [reflexivity |].
    repeat split; intros; auto; try num_order.
    specialize (I2 ltac:(assumption)). num_order.
  - destruct (urec _) as [vi |] eqn:E; [| discriminate].
    assert (Hvi : real vi) by eauto.
    destruct (rec_ok Ha Hbe Hlt E) as (ri & -> & Hri & W1 & W2 & W3).
    destruct (NumOrd.lt_total ri be) as [Hc | Hc].
    + (* the child lowers beta *)
      rewrite (min_r Hbe Hri Hc).
      rewrite (min_r Hm Hri) by num_order.
      destruct (JS.leb ri a) eqn:L.
      * apply leb_le in L; [| assumption ..].
        specialize (W1 L).
        apply fold_min_le in H; [| now apply min_real].
        exists ri. split; [reflexivity |].
        destruct (min_cases Ht Hvi) as [[? E3] | [? E3]]; rewrite E3 in H;
          repeat split; intros; auto; num_order.
      * apply leb_false in L; [| assumption ..].
        specialize (W3 L Hc).
        rewrite (min_r Ht Hvi) in H by num_order.
        apply (IH ri ri vi v); auto;
          first [num_order | right; num_order | intros; num_order].
    + (* the child stays at or above beta *)
      assert (Hle : num_le be ri) by (destruct Hc; num_order).
      specialize (W2 Hle).
      rewrite (min_l Hbe Hri Hle).
      replace (JS.leb be a) with false
        by (symmetry; apply leb_false; assumption).
      apply (IH (JS.min m ri) be (JS.min t vi) v); auto;
        try (now apply min_real); clear IH H W1 W3;
        destruct (min_cases Hm Hri) as [[? E1] | [? E1]]; rewrite E1;
        destruct (min_cases Ht Hvi) as [[? E3] | [? E3]]; rewrite ?E3;
        try num_order;
        try (destruct Hor; [left | right]; num_order);
        try (intros A; try specialize (I2 A); destruct Hor; num_order).
Qed.

Lemma fold_max_total actions : forall t,
  (forall s, exists v, urec s = Some v) ->
  exists v, fold_max simulateAction urec state actions t = Some v.
Proof.
  induction actions as [| x rest IH]; simpl; intros t Hrec; eauto.
  destruct (Hrec (simulateAction x state)) as [vi ->]. auto.
Qed.

Lemma fold_min_total actions : forall t,
  (forall s, exists v, urec s = Some v) ->
  exists v, fold_min simulateAction urec state actions t = Some v.
Proof.
  induction actions as [| x rest IH]; simpl; intros t Hrec; eauto.
  destruct (Hrec (simulateAction x state)) as [vi ->]. auto.
Qed.
End Loops.

Hypothesis evaluateState_real : forall s, real (evaluateState s).

Lemma NInf_le (x : num) : real x -> num_le NInf x.
Proof. unfold num_le, real; destruct x; simpl; auto; easy. Qed.

Lemma le_PInf (x : num) : real x -> num_le x PInf.
Proof. unfold num_le, real; destruct x; simpl; auto; easy. Qed.

Lemma not_lt_NInf (x : num) : real x -> ~ num_lt x NInf.
Proof. destruct x; simpl; auto. Qed.

Lemma not_PInf_lt (x : num) : real x -> ~ num_lt PInf x.
Proof. destruct x; simpl; auto. Qed.

Lemma unpruned_real fuel : forall s d m v,
  unpruned fuel s d m = Some v -> real v.
Proof.
  induction fuel as [| fuel IH]; simpl; intros s d m v H; [discriminate |].
  destruct ((d =? 0)%Z || isTerminalState s).
  - inversion H; subst. apply evaluateState_real.
  - destruct m.
    + apply fold_max_real in H;
        first [exact H | easy | intros ? ?; apply IH].
    + apply fold_min_real in H;
        first [exact H | easy | intros ? ?; apply IH].
Qed.

(** Alpha-beta is sound for every window: whenever the unpruned search
    returns, so does the pruned one, with a result inside the window equal
    to the exact value and a bound on it outside. *)
Lemma pruned_within_window fuel : forall s d a b m v,
  real a -> real b -> num_lt a b ->
  unpruned fuel s d m = Some v ->
  exists r, pruned fuel s d a b m = Some r /\ within_window a b r v.
Proof.
  induction fuel as [| fuel IH]; simpl; intros s d a b m v Ha Hb Hab H;
    [discriminate |].
  destruct ((d =? 0)%Z || isTerminalState s).
  - inversion H; subst. eexists; split; [reflexivity |].
    repeat split; intros; auto; num_order.
  - pose proof (NInf_le Ha). pose proof (le_PInf Hb).
    pose proof (not_lt_NInf Ha). pose proof (not_PInf_lt Hb).
    destruct m.
    + apply max_loop_ok
        with (urec := fun s => unpruned fuel s (d - 1) false) (t := NInf);
        first [ exact H | assumption | easy | num_order
              | left; num_order | intros ? ?; apply unpruned_real
              | intros; now apply IH | intros; tauto ].
    + apply min_loop_ok
        with (urec := fun s => unpruned fuel s (d - 1) true) (t := PInf);
        first [ exact H | assumption | easy | num_order
              | left; num_order | intros ? ?; apply unpruned_real
              | intros; now apply IH | intros; tauto ].
Qed.

Lemma unpruned_total fuel : forall s d m,
  (0 <= d)%Z -> (Z.to_nat d < fuel)%nat ->
  exists v, unpruned fuel s d m = Some v.
Proof.
  induction fuel as [| fuel IH]; simpl; intros s d m Hd Hf; [lia |].
  destruct (d =? 0)%Z eqn:E0; simpl; [eauto |].
  destruct (isTerminalState s); [eauto |].
  apply Z.eqb_neq in E0.
  destruct m; [apply fold_max_total | apply fold_min_total];
    intros s'; apply IH; lia.
Qed.

Lemma evaluate_same fuel state actions : forall n l,
  unpruned_evaluate bits simulateAction getActionsForState isTerminalState
    evaluateState ai fuel state actions n = Some l ->
  exists l',
    minimax_evaluate bits simulateAction getActionsForState isTerminalState
      evaluateState ai fuel state actions n = Some l' /\
    Forall2 same_evaluation l' l.
Proof.
  induction actions as [| x rest IH]; simpl; intros n l H.
  - inversion H; subst. eauto.
  - destruct (unpruned _ _ _ _) as [v |] eqn:E; [| discriminate].
    destruct (unpruned_evaluate _ _ _ _ _ _ _ _ _ _) as [l0 |] eqn:E0;
      [| discriminate].
    inversion H; subst; clear H.
    assert (RN : real NInf) by easy.
    assert (RP : real PInf) by easy.
    destruct (@pruned_within_window fuel _ _ NInf PInf false v RN RP I E)
      as (r & -> & Hr & W1 & W2 & W3).
    destruct (IH _ _ E0) as (l' & -> & Hl').
    eexists; split; [reflexivity |].
    constructor; [| assumption].
    assert (Hv : real v) by (eapply unpruned_real; eauto).
    assert (Erv : num_eq r v).
    { pose proof (NInf_le Hr). pose proof (le_PInf Hr).
      destruct (NumOrd.lt_total NInf r) as [? | [? | ?]];
        destruct (NumOrd.lt_total r PInf) as [? | [? | ?]];
        first [ now apply W3
              | pose proof (NInf_le Hv); pose proof (le_PInf Hv);
                try (assert (num_le v r) by (apply W1; num_order));
                try (assert (num_le r v) by (apply W2; num_order));
                num_order ]. }
    split; [reflexivity |]. now apply addNoise_same.
Qed.

Lemma unpruned_evaluate_total fuel state actions : forall n,
  (1 <= maxDepth ai)%Z -> (Z.to_nat (maxDepth ai) <= fuel)%nat ->
  exists l,
    unpruned_evaluate bits simulateAction getActionsForState isTerminalState
      evaluateState ai fuel state actions n = Some l.
Proof.
  intros n Hd Hf. revert n.
  induction actions as [| x rest IH]; simpl; intros n; eauto.
  destruct (@unpruned_total fuel (simulateAction x state)
              (maxDepth ai - 1) false) as [v ->]; try lia.
  destruct (IH (S n)) as [l ->]. eauto.
Qed.

Lemma unpruned_evaluate_values fuel state actions : forall n l,
  unpruned_evaluate bits simulateAction getActionsForState isTerminalState
    evaluateState ai fuel state actions n = Some l ->
  map fst l = actions /\ Forall (fun x => real (snd x)) l.
Proof.
  induction actions as [| x rest IH]; simpl; intros n l H.
  - inversion H; subst. split; constructor.
  - destruct (unpruned _ _ _ _) as [v |] eqn:E; [| discriminate].
    destruct (unpruned_evaluate _ _ _ _ _ _ _ _ _ _) as [l0 |] eqn:E0;
      [| discriminate].
    inversion H; subst; clear H.
    destruct (IH _ _ E0) as [Hmap Hreal].
    split; [simpl; now rewrite Hmap |].
    constructor; [| exact Hreal].
    simpl. unfold addNoise. apply add_real.
    eapply unpruned_real; eauto.
Qed.

(** C1. With an evaluator that returns numbers (never NaN), and for every
    stream of random draws -- in particular the one whose draws are all
    0.5, which makes every noise term zero -- [chooseAction] with
    alpha-beta pruning returns the root action the unpruned search of the
    same [maxDepth] returns: whenever the unpruned search finishes within
    [fuel] nested calls so does the pruned one, with the same action; for
    [maxDepth >= 1] both finish as soon as [fuel >= maxDepth]; and on a
    non-empty list of actions the action both return is the first of the
    available actions whose exact (unpruned) minimax value, after noise,
    is greatest. *)
Theorem alpha_beta_selects_unpruned_action
  (fuel : nat) (state : IGameState TState)
  (availableActions : list (IGameAction TAction)) (n : nat) :
  (forall r,
     Unpruned_chooseAction bits simulateAction getActionsForState
       isTerminalState evaluateState ai fuel state availableActions n
       = Some r ->
     Minimax_chooseAction bits simulateAction getActionsForState
       isTerminalState evaluateState ai fuel state availableActions n
       = Some r) /\
  ((1 <= maxDepth ai)%Z -> (Z.to_nat (maxDepth ai) <= fuel)%nat ->
   exists r,
     Unpruned_chooseAction bits simulateAction getActionsForState
       isTerminalState evaluateState ai fuel state availableActions n
       = Some r /\
     Minimax_chooseAction bits simulateAction getActionsForState
       isTerminalState evaluateState ai fuel state availableActions n
       = Some r) /\
  ((1 <= maxDepth ai)%Z -> (Z.to_nat (maxDepth ai) <= fuel)%nat ->
   availableActions <> [] ->
   exists values before action value behind,
     unpruned_evaluate bits simulateAction getActionsForState
       isTerminalState evaluateState ai fuel state availableActions
       (simulateThinking (minimax_base ai) n) = Some values /\
     map fst values = availableActions /\
     values = before ++ (action, value) :: behind /\
     Forall (fun x => num_lt (snd x) value) before /\
     Forall (fun x => num_le (snd x) value) behind /\
     Unpruned_chooseAction bits simulateAction getActionsForState
       isTerminalState evaluateState ai fuel state availableActions n
       = Some (Some action) /\
     Minimax_chooseAction bits simulateAction getActionsForState
       isTerminalState evaluateState ai fuel state availableActions n
       = Some (Some action)).
Proof.
  assert (Same : forall r,
     Unpruned_chooseAction bits simulateAction getActionsForState
       isTerminalState evaluateState ai fuel state availableActions n
       = Some r ->
     Minimax_chooseAction bits simulateAction getActionsForState
       isTerminalState evaluateState ai fuel state availableActions n
       = Some r).
  { unfold Unpruned_chooseAction, Minimax_chooseAction.
    destruct availableActions as [| x rest]; [trivial |].
    intros r H.
    destruct (unpruned_evaluate _ _ _ _ _ _ _ _ _ _) as [l |] eqn:E;
      [| discriminate].
    destruct (evaluate_same _ _ _ _ E) as (l' & -> & Hl).
    inversion H; subst. f_equal. now apply best_action_same. }
  split; [exact Same |].
  split.
  - intros Hd Hf.
    assert (exists r,
       Unpruned_chooseAction bits simulateAction getActionsForState
         isTerminalState evaluateState ai fuel state availableActions n
         = Some r) as [r Hr].
    { unfold Unpruned_chooseAction.
      destruct availableActions as [| x rest]; [eauto |].
      destruct (@unpruned_evaluate_total fuel state (x :: rest)
                  (simulateThinking (minimax_base ai) n) Hd Hf) as [l ->].
      eauto. }
    exists r. split; [exact Hr | now apply Same].
  - intros Hd Hf Hne.
    destruct (@unpruned_evaluate_total fuel state availableActions
                (simulateThinking (minimax_base ai) n) Hd Hf) as [l El].
    destruct (unpruned_evaluate_values _ _ _ _ El) as [Hmap Hreal].
    assert (Hl : l <> []).
    { intros ->. simpl in Hmap. congruence. }
    destruct (sorted_head_is_first_maximum Hl Hreal)
      as (pre & [a v] & post & E & Hhd & Hpre & Hpost).
    assert (Hu :
      Unpruned_chooseAction bits simulateAction getActionsForState
        isTerminalState evaluateState ai fuel state availableActions n
      = Some (Some a)).
    { unfold Unpruned_chooseAction.
      destruct availableActions as [| x rest]; [contradiction |].
      rewrite El. unfold best_action. rewrite Hhd. reflexivity. }
    exists l, pre, a, v, post.
    split; [exact El |]. split; [exact Hmap |]. split; [exact E |].
    split; [exact Hpre |]. split; [exact Hpost |].
    split; [exact Hu | now apply Same].
Qed.
End MinimaxFacts.

(** ** MinimaxAI constructor *)

(** C10. An explicit [maxDepth] of 0 is not used: 0 is falsy, so the depth
    falls back to the default of the difficulty (EASY 1, MEDIUM 2, HARD 3,
    EXPERT 4). *)
Theorem maxDepth_zero_falls_back_to_default
  (player : string) (level : AILevel) (thinking : option (Z * Z))
  (seed : option string) (timer : bool) :
  maxDepth (MinimaxAI_new (mkAIConfig player level thinking seed (Some 0%Z) timer))
  = getDepthByDifficulty level /\
  getDepthByDifficulty level =
    match level with EASY => 1 | MEDIUM => 2 | HARD => 3 | EXPERT => 4 end%Z.
Proof. split; [reflexivity | destruct level; reflexivity]. Qed.

(** ** State history *)

Arguments pop : simpl never.
Arguments push : simpl never.

Section StackFacts.
Context {A : Type}.

Lemma pop_push (l : list A) (x : A) : pop (push l x) = (Some x, l).
Proof.
  unfold pop, push. rewrite map_app. simpl.
  rewrite last_last, removelast_last. reflexivity.
Qed.

Lemma last_push (l : list A) (x : A) :
  last (map Some (push l x)) None = Some x.
Proof. unfold push. rewrite map_app. simpl. apply last_last. Qed.

Lemma removelast_push (l : list A) (x : A) : removelast (push l x) = l.
Proof. apply removelast_last. Qed.

Lemma pop_nonempty (l : list A) :
  l <> [] -> exists x l', l = push l' x /\ pop l = (Some x, l').
Proof.
  intros H. destruct (exists_last H) as (l' & x & ->).
  exists x, l'. split; [reflexivity | apply pop_push].
Qed.

Lemma length_push (l : list A) (x : A) :
  List.length (push l x) = S (List.length l).
Proof. unfold push. rewrite length_app. simpl. lia. Qed.
End StackFacts.

Section StateManagerFacts.
Variable TState : Type.
#[local] Abbreviation manager := (GameStateManager TState).

Lemma setState_within_bound (m : manager) (state : IGameState TState) :
  (0 <= maxHistorySize m)%Z -> within_bound m ->
  within_bound (setState m state) /\
  maxHistorySize (setState m state) = maxHistorySize m.
Proof.
  unfold within_bound, setState. intros H0 H. simpl. split; [| reflexivity].
  rewrite Nat.add_0_r.
  destruct (currentState m) as [cur |].
  - rewrite length_push.
    destruct (Z.gtb_spec (Z.of_nat (S (List.length (history m))))
                (maxHistorySize m)).
    + unfold shift, push.
      destruct (history m); simpl in *; rewrite ?length_app; simpl; lia.
    + rewrite length_push. lia.
  - destruct (Z.gtb_spec (Z.of_nat (List.length (history m)))
                (maxHistorySize m)); [| lia].
    unfold shift. destruct (history m); simpl in *; lia.
Qed.

Lemma undo_within_bound (m : manager) :
  within_bound m ->
  within_bound (snd (StateManager_undo m)) /\
  maxHistorySize (snd (StateManager_undo m)) = maxHistorySize m.
Proof.
  unfold within_bound, StateManager_undo. intros H.
  destruct (currentState m) as [cur |]; [| auto].
  unfold canUndo. destruct (history m) as [| h0 hs] eqn:E.
  - simpl. rewrite E. auto.
  - replace (0 <? List.length (h0 :: hs))%nat with true by reflexivity.
    destruct (@pop_nonempty _ (h0 :: hs)) as (x & l' & E1 & E2); [easy |].
    rewrite E2. simpl. split; [| reflexivity].
    rewrite length_push. rewrite E1, length_push in H. lia.
Qed.

Lemma redo_within_bound (m : manager) :
  within_bound m ->
  within_bound (snd (StateManager_redo m)) /\
  maxHistorySize (snd (StateManager_redo m)) = maxHistorySize m.
Proof.
  unfold within_bound, StateManager_redo. intros H.
  unfold canRedo. destruct (redoStack m) as [| r0 rs] eqn:E.
  - simpl. rewrite E. auto.
  - replace (0 <? List.length (r0 :: rs))%nat with true by reflexivity.
    destruct (@pop_nonempty _ (r0 :: rs)) as (x & l' & E1 & E2); [easy |].
    rewrite E2. simpl. split; [| reflexivity].
    rewrite E1, length_push in H.
    destruct (currentState m); rewrite ?length_push; lia.
Qed.

Lemma run_ops_within_bound (ops : list (manager_op TState)) :
  forall m : manager,
  (0 <= maxHistorySize m)%Z -> within_bound m ->
  within_bound (run_ops m ops) /\
  maxHistorySize (run_ops m ops) = maxHistorySize m.
Proof.
  unfold run_ops.
  induction ops as [| op ops IH]; simpl; intros m H0 H; [auto |].
  assert (within_bound (apply_op m op) /\
          maxHistorySize (apply_op m op) = maxHistorySize m) as [H1 H2].
  { destruct op; simpl.
    - now apply setState_within_bound.
    - now apply undo_within_bound.
    - now apply redo_within_bound.
    - unfold within_bound; simpl. auto. }
  destruct (IH (apply_op m op)) as [H3 H4]; [lia | assumption |].
  split; [assumption | congruence].
Qed.

(** C9. Whatever sequence of [setState], [undo], [redo] and [reset] is
    applied to a new state manager whose configured maximum (100 by
    default) is not negative, the history never holds more states than the
    maximum; and a [setState] on a full history drops the oldest entry and
    nothing else. *)
Theorem history_never_exceeds_maximum
  (maxSize : option Z) (ops : list (manager_op TState)) :
  (0 <= maxHistorySize (GameStateManager_new TState maxSize))%Z ->
  maxHistorySize (GameStateManager_new TState None) = 100%Z /\
  (Z.of_nat
     (List.length
        (history (run_ops (GameStateManager_new TState maxSize) ops)))
   <= maxHistorySize (GameStateManager_new TState maxSize))%Z /\
  (forall (m : manager) (cur state : IGameState TState),
     currentState m = Some cur ->
     Z.of_nat (List.length (history m)) = maxHistorySize m ->
     history (setState m state) = tl (history m ++ [cur]) /\
     Z.of_nat (List.length (history (setState m state)))
     = maxHistorySize m).
Proof.
  intros H0. split; [reflexivity |]. split.
  - destruct (@run_ops_within_bound ops (GameStateManager_new TState maxSize))
      as [H1 H2]; [assumption | exact H0 |].
    unfold within_bound in H1. rewrite H2 in H1. lia.
  - intros m cur state Hc Hl. unfold setState. simpl. rewrite Hc.
    rewrite length_push.
    destruct (Z.gtb_spec (Z.of_nat (S (List.length (history m))))
                (maxHistorySize m)); [| lia].
    unfold shift, push, deepClone. split; [reflexivity |].
    destruct (history m); simpl in *; [lia |].
    rewrite length_app. simpl. lia.
Qed.
End StateManagerFacts.

(** ** Controller *)

Section ControllerFacts.
Variables TState TAction : Type.
#[local] Abbreviation controller := (GameController TState TAction).

(** C3. When [rules.validateAction] reports the action invalid,
    [executeAction] returns a failure carrying the reason (or "Invalid
    action") and leaves the whole controller as it was: current state,
    history, redo stack and the log of emitted events. *)
Theorem invalid_action_changes_nothing
  (c : controller) (action : IGameAction TAction)
  (current : IGameState TState) :
  currentState (stateManager c) = Some current ->
  isValid (validateAction (rules c) action current) = false ->
  executeAction action c =
    (Returns
       {| success := false;
          newState := None;
          error :=
            Some (string_or (reason (validateAction (rules c) action current))
                            "Invalid action");
          sideEffects := None |},
     c) /\
  currentState (stateManager (snd (executeAction action c)))
    = currentState (stateManager c) /\
  history (stateManager (snd (executeAction action c)))
    = history (stateManager c) /\
  redoStack (stateManager (snd (executeAction action c)))
    = redoStack (stateManager c) /\
  eventBus (snd (executeAction action c)) = eventBus c.
Proof.
  intros Hc Hv.
  assert (E : executeAction action c =
    (Returns
       {| success := false;
          newState := None;
          error :=
            Some (string_or (reason (validateAction (rules c) action current))
                            "Invalid action");
          sideEffects := None |},
     c)).
  { unfold executeAction, bind, getState, getCurrentState, the_rules.
    rewrite Hc. simpl. unfold deepClone. rewrite Hv. reflexivity. }
  rewrite E. simpl. auto.
Qed.

(** C5. On an initialized controller with a non-empty history, [undo()]
    and then [redo()] both return [true], and the current state -- and
    with it the history and the redo stack -- is what it was before the
    undo, whatever the depth of the history. *)
Theorem undo_then_redo_restores
  (c : controller) (current : IGameState TState) :
  currentState (stateManager c) = Some current ->
  history (stateManager c) <> [] ->
  exists c1 c2,
    undo c = (Returns true, c1) /\
    redo c1 = (Returns true, c2) /\
    currentState (stateManager c2) = Some current /\
    history (stateManager c2) = history (stateManager c) /\
    redoStack (stateManager c2) = redoStack (stateManager c).
Proof.
  intros Hc Hh.
  destruct (pop_nonempty Hh) as (prev & older & Eh & Ep).
  assert (Hcan : canUndo (stateManager c) = true).
  { unfold canUndo. rewrite Eh, length_push. reflexivity. }
  unfold undo, bind, with_stateManager, StateManager_undo.
  rewrite Hc, Hcan, Ep. simpl.
  eexists. eexists. split; [reflexivity |].
  unfold redo, bind, with_stateManager, StateManager_redo, canRedo. simpl.
  rewrite length_push, last_push, removelast_push. simpl.
  split; [reflexivity |]. simpl. unfold deepClone. rewrite Eh. auto.
Qed.

Lemma findIndex_id_found (l : list IPlayer) (x : string) :
  In x (map id l) -> (0 <= findIndex_id l (Some x))%Z.
Proof.
  induction l as [| p l IH]; simpl; [tauto |].
  intros [E | H].
  - subst. rewrite String.eqb_refl. lia.
  - destruct (String.eqb (id p) x); [lia |].
    specialize (IH H).
    destruct (Z.ltb_spec (findIndex_id l (Some x)) 0); lia.
Qed.

Lemma TurnManager_getNextPlayer_listed (tm : TurnManager unit)
  (p : IPlayer) (next : string) (st' : unit) :
  at_index (tm_players tm) (currentPlayerIndex tm) = Some p ->
  getNextPlayer (turnOrderStrategy tm) (strategyState tm)
                (id p) (map id (tm_players tm)) = (Some next, st') ->
  In next (map id (tm_players tm)) ->
  TurnManager_getNextPlayer tm =
    (Returns next,
     {| tm_players := tm_players tm;
        currentPlayerIndex := findIndex_id (tm_players tm) (Some next);
        turnOrderStrategy := turnOrderStrategy tm;
        strategyState := st' |}).
Proof.
  intros Hp Hnext Hin.
  pose proof (findIndex_id_found _ _ Hin) as Hidx.
  unfold TurnManager_getNextPlayer.
  rewrite Hp, Hnext.
  cbn [currentPlayerIndex].
  destruct (Z.eqb_spec (findIndex_id (tm_players tm) (Some next)) (-1));
    [lia |].
  destruct (tm_players tm); [easy | reflexivity].
Qed.

(** What [endTurn()] does.  On an initialized game that is not complete,
    it asks the turn-order strategy for the successor of the
    player at the turn manager's own cursor, over the full list of player
    ids; when the strategy answers with a listed player, that player
    becomes [currentPlayerId], [turnNumber] grows by exactly 1,
    [movesThisTurn] is reset to 0, the new state is committed over the
    old one, and [turnEnded] then [turnStarted] are emitted.  When the
    cursor is on the state's current player, the successor is that of
    [turnInfo.currentPlayerId]. *)
Theorem endTurn_advances_from_turn_manager_cursor
  (c : controller) (now : Z) (current : IGameState TState)
  (p : IPlayer) (next : string) (st' : unit) :
  currentState (stateManager c) = Some current ->
  isComplete current = false ->
  at_index (tm_players (turnManager c))
           (currentPlayerIndex (turnManager c)) = Some p ->
  getNextPlayer (turnOrderStrategy (turnManager c))
                (strategyState (turnManager c))
                (id p) (map id (tm_players (turnManager c)))
    = (Some next, st') ->
  In next (map id (tm_players (turnManager c))) ->
  exists c' s',
    endTurn now c = (Returns tt, c') /\
    currentState (stateManager c') = Some s' /\
    currentPlayerId (turnInfo s') = next /\
    turnNumber (turnInfo s') = (turnNumber (turnInfo current) + 1)%Z /\
    movesThisTurn (turnInfo s') = 0%Z /\
    timeStarted (turnInfo s') = now /\
    gameData s' = gameData current /\
    eventBus c' =
      eventBus c ++
      [turnEnded (currentPlayerId (turnInfo current))
                 (turnNumber (turnInfo current));
       turnStarted next (turnNumber (turnInfo current) + 1)%Z] /\
    (id p = currentPlayerId (turnInfo current) ->
     Some (currentPlayerId (turnInfo s')) =
       fst (getNextPlayer (turnOrderStrategy (turnManager c))
              (strategyState (turnManager c))
              (currentPlayerId (turnInfo current))
              (map id (tm_players (turnManager c))))).
Proof.
  intros Hc Hcomplete Hp Hnext Hin.
  unfold endTurn, bind, getState, getCurrentState, with_turnManager.
  rewrite Hc. simpl. unfold deepClone. rewrite Hcomplete.
  rewrite (TurnManager_getNextPlayer_listed _ Hp Hnext Hin).
  eexists. eexists. split; [reflexivity |]. simpl.
  rewrite <- app_assoc. simpl.
  repeat split; try reflexivity.
  intros Esync. rewrite <- Esync, Hnext. reflexivity.
Qed.

Lemma indexOf_listed (l : list string) (x : string) :
  In x l -> (0 <= indexOf l x < Z.of_nat (List.length l))%Z.
Proof.
  induction l as [| y l IH]; simpl; [tauto |].
  intros [E | H].
  - subst. rewrite String.eqb_refl. lia.
  - destruct (String.eqb y x); [lia |].
    specialize (IH H).
    destruct (Z.ltb_spec (indexOf l x) 0); lia.
Qed.

Lemma at_index_listed {A : Type} (l : list A) (i : Z) :
  (0 <= i < Z.of_nat (List.length l))%Z ->
  exists y, at_index l i = Some y /\ In y l.
Proof.
  intros H. unfold at_index.
  destruct (Z.ltb_spec i 0); [lia |].
  destruct (nth_error l (Z.to_nat i)) as [y |] eqn:E.
  - exists y. split; [reflexivity |]. eapply nth_error_In; eauto.
  - apply nth_error_None in E. lia.
Qed.

Lemma at_index_In {A : Type} (l : list A) (i : Z) (y : A) :
  at_index l i = Some y -> In y l.
Proof.
  unfold at_index. destruct (i <? 0)%Z; [discriminate |].
  apply nth_error_In.
Qed.

(** The sequential strategy, which is the one the controller's turn
    manager is built with, always answers with a listed player when it is
    asked from a listed one: from a cursor inside the player list
    [endTurn()] does not throw. *)
Lemma sequential_next_is_listed (players : list IPlayer) (i : Z)
  (p : IPlayer) :
  at_index players i = Some p ->
  exists next,
    getNextPlayer TurnOrderStrategies.sequential tt (id p) (map id players)
      = (Some next, tt) /\
    In next (map id players).
Proof.
  intros Hp. apply at_index_In in Hp.
  assert (Hin : In (id p) (map id players)) by now apply in_map.
  pose proof (indexOf_listed _ _ Hin) as Hi.
  set (len := Z.of_nat (List.length (map id players))) in *.
  assert (Hrem : (0 <= Z.rem (indexOf (map id players) (id p) + 1) len
                  < len)%Z).
  { rewrite Z.rem_mod_nonneg by lia. apply Z.mod_pos_bound. lia. }
  destruct (at_index_listed (map id players) Hrem) as (next & E & Hn).
  exists next. simpl. fold len. rewrite E. auto.
Qed.
End ControllerFacts.

(** ** Monte Carlo Tree Search *)

Lemma Math_random_range (bits : nat -> Z) (n : nat) :
  0 <= Math_random bits n /\ Math_random bits n < 1.
Proof.
  unfold Math_random.
  change (2 ^ 53)%Z with 9007199254740992%Z.
  change (Z.to_pos 9007199254740992) with 9007199254740992%positive.
  pose proof (Z.mod_pos_bound (bits n) 9007199254740992 eq_refl).
  unfold Qle, Qlt. cbn [Qnum Qden]. lia.
Qed.

Lemma random_index_range (bits : nat -> Z) (n len : nat) :
  (0 < len)%nat ->
  (0 <= random_index (Math_random bits n) len < Z.of_nat len)%Z.
Proof.
  intros Hlen. unfold random_index.
  destruct (Math_random_range bits n) as [H0 H1].
  set (r := Math_random bits n) in *.
  set (L := inject_Z (Z.of_nat len)).
  assert (HL : 0 < L).
  { unfold L. rewrite <- (Zlt_Qlt 0). lia. }
  split.
  - change 0%Z with (Qfloor 0). apply Qfloor_resp_le.
    apply Qmult_le_0_compat; [assumption | now apply Qlt_le_weak].
  - rewrite Zlt_Qlt. apply Qle_lt_trans with (r * L); [apply Qfloor_le |].
    fold L. rewrite <- (Qmult_1_l L) at 2.
    now apply Qmult_lt_compat_r.
Qed.

Section MCTSFacts.
Variables TState TAction : Type.
#[local] Abbreviation node := (MCTSNode TState TAction).
Variable bits : nat -> Z.
Variables Math_sqrt Math_log : num -> num.
Variable simulatePlayout : IGameState TState -> nat -> num * nat.
Variable getActionsForState :
  IGameState TState -> option string -> list (IGameAction TAction).
Variable simulateAction :
  IGameAction TAction -> IGameState TState -> IGameState TState.
Variable isTerminalState : IGameState TState -> bool.

#[local] Abbreviation UCB1 := (getUCB1Value Math_sqrt Math_log).

Lemma gtb_PInf (x : num) : JS.gtb x PInf = false.
Proof. destruct x; reflexivity. Qed.

Lemma gtb_PInf_finite (x : num) :
  JS.isFinite x = true -> JS.gtb PInf x = true.
Proof. destruct x; simpl; easy. Qed.

(** The loop of [getBestChild] always holds a child of the node at the
    position it records. *)
Lemma best_child_loop_is_child (this : node) (c : num) (rest : list node) :
  forall pre bi bc bv,
  children this = pre ++ rest ->
  nth_error (children this) bi = Some bc ->
  let r := best_child_loop Math_sqrt Math_log this c rest
             (List.length pre) (bi, bc) bv in
  nth_error (children this) (fst r) = Some (snd r).
Proof.
  induction rest as [| child rest IH]; simpl; intros pre bi bc bv E Hb;
    [assumption |].
  assert (E' : children this = (pre ++ [child]) ++ rest)
    by (rewrite <- app_assoc; exact E).
  assert (L' : S (List.length pre) = List.length (pre ++ [child]))
    by (rewrite length_app; simpl; lia).
  rewrite L'.
  destruct (JS.gtb _ bv); apply IH; auto.
  rewrite E, nth_error_app2, Nat.sub_diag by lia. reflexivity.
Qed.

Lemma getBestChild_is_child (this : node) (c : num) :
  children this <> [] ->
  exists i best,
    getBestChild Math_sqrt Math_log this c = Some (i, best) /\
    nth_error (children this) i = Some best.
Proof.
  intros H. unfold getBestChild.
  destruct (children this) as [| first l] eqn:E; [easy |].
  pose proof (@best_child_loop_is_child this c (first :: l) [] 0%nat first
                (UCB1 this first c)) as Hl.
  rewrite E in Hl. specialize (Hl eq_refl eq_refl).
  cbv zeta in Hl. change (List.length (@nil node)) with 0%nat in Hl.
  revert Hl.
  destruct (best_child_loop _ _ _ _ _ _ _ _) as [i best].
  intros Hl. exists i, best. auto.
Qed.

(** The loop of [getBestChild] ends on an unvisited child once it holds
    one, or while an unvisited one is still to come and the value held is
    finite. *)
Lemma best_child_loop_unvisited (this : node) (c : num) (rest : list node) :
  forall pre bi bc bv,
  children this = pre ++ rest ->
  nth_error (children this) bi = Some bc ->
  (forall ch, In ch rest -> visits ch <> 0%Z ->
              JS.isFinite (UCB1 this ch c) = true) ->
  (visits bc = 0%Z /\ bv = PInf) \/
  (JS.isFinite bv = true /\ exists ch, In ch rest /\ visits ch = 0%Z) ->
  let r := best_child_loop Math_sqrt Math_log this c rest
             (List.length pre) (bi, bc) bv in
  nth_error (children this) (fst r) = Some (snd r) /\
  visits (snd r) = 0%Z.
Proof.
  induction rest as [| child rest IH]; simpl; intros pre bi bc bv E Hb Hfin Hcase.
  - destruct Hcase as [[Hv _] | [_ (ch & [] & _)]]. auto.
  - assert (E' : children this = (pre ++ [child]) ++ rest)
      by (rewrite <- app_assoc; exact E).
    assert (L' : S (List.length pre) = List.length (pre ++ [child]))
      by (rewrite length_app; simpl; lia).
    assert (Hchild : nth_error (children this) (List.length pre) = Some child)
      by (rewrite E, nth_error_app2, Nat.sub_diag by lia; reflexivity).
    rewrite L'.
    destruct Hcase as [[Hv ->] | [Hbv (ch & Hin & Hch)]].
    + rewrite gtb_PInf. apply IH; auto.
    + destruct (Z.eq_dec (visits child) 0) as [Hz | Hnz].
      * assert (Ev : UCB1 this child c = PInf).
        { unfold getUCB1Value. rewrite Hz. reflexivity. }
        rewrite Ev, gtb_PInf_finite by assumption.
        apply IH; auto.
      * assert (Hrest : exists ch, In ch rest /\ visits ch = 0%Z).
        { destruct Hin as [-> | Hin]; [contradiction | eauto]. }
        destruct (JS.gtb _ bv); apply IH; auto.
Qed.

(** The loop on a node with an unvisited child, when the UCB1 value of
    every visited child is finite. *)
Lemma getBestChild_unvisited_when_finite (this : node) (c : num) :
  (exists ch, In ch (children this) /\ visits ch = 0%Z) ->
  (forall ch, In ch (children this) -> visits ch <> 0%Z ->
              JS.isFinite (UCB1 this ch c) = true) ->
  exists i best,
    getBestChild Math_sqrt Math_log this c = Some (i, best) /\
    nth_error (children this) i = Some best /\
    visits best = 0%Z /\
    UCB1 this best c = PInf.
Proof.
  intros Hex Hfin. unfold getBestChild.
  destruct (children this) as [| first l] eqn:E.
  - destruct Hex as (ch & [] & _).
  - pose proof (@best_child_loop_unvisited this c (first :: l) [] 0%nat first
                  (UCB1 this first c)) as Hl.
    rewrite E in Hl. specialize (Hl eq_refl eq_refl Hfin).
    cbv zeta in Hl. change (List.length (@nil node)) with 0%nat in Hl.
    assert (Hstart :
      (visits first = 0%Z /\ UCB1 this first c = PInf) \/
      (JS.isFinite (UCB1 this first c) = true /\
       exists ch, In ch (first :: l) /\ visits ch = 0%Z)).
    { destruct (Z.eq_dec (visits first) 0) as [Hz | Hnz].
      - left. split; [assumption |].
        unfold getUCB1Value. rewrite Hz. reflexivity.
      - right. split; [apply Hfin; simpl; auto | exact Hex]. }
    specialize (Hl Hstart). revert Hl.
    destruct (best_child_loop _ _ _ _ _ _ _ _) as [i best].
    simpl. intros [Hn Hv].
    exists i, best. repeat split; auto.
    unfold getUCB1Value. rewrite Hv. reflexivity.
Qed.

(** The UCB1 value of a visited child is finite: its mean playout value
    is a finite sum over a positive count, the logarithm of the parent's
    count (at least 1) is a finite number that is not negative, and so is
    the square root of its quotient by the child's count. *)
Lemma UCB1_finite (this ch : node) (c : num) :
  (forall q, 1 <= q -> exists l, Math_log (Fin q) = Fin l /\ 0 <= l) ->
  (forall q, 0 <= q -> exists r, Math_sqrt (Fin q) = Fin r) ->
  JS.isFinite c = true ->
  JS.isFinite (totalValue ch) = true ->
  (1 <= visits ch <= visits this)%Z ->
  JS.isFinite (UCB1 this ch c) = true.
Proof.
  intros Hlog Hsqrt Hc Htot Hv. unfold getUCB1Value.
  destruct (Z.eqb_spec (visits ch) 0); [lia |].
  destruct (totalValue ch) as [| | t |]; try discriminate.
  destruct c as [| | c' |]; try discriminate.
  assert (Hpos : 0 < inject_Z (visits ch))
    by (rewrite <- (Zlt_Qlt 0); lia).
  assert (Hsign : JS.sign (inject_Z (visits ch)) = Lt)
    by (unfold JS.sign; apply Qlt_alt; exact Hpos).
  destruct (Hlog (inject_Z (visits this))) as (l & El & Hl).
  { rewrite <- (Zle_Qle 1). lia. }
  unfold JS.of_Z. rewrite El. cbn [JS.div]. rewrite Hsign.
  destruct (Hsqrt (l / inject_Z (visits ch))) as (r & Er).
  { apply Qle_shift_div_l; [exact Hpos |]. now rewrite Qmult_0_l. }
  rewrite Er. reflexivity.
Qed.

(** C7. In a tree with the bookkeeping of [backpropagate] (counts that
    are not negative, finite sums of playout values, no child visited
    more often than its parent), with a finite exploration constant and
    with [Math.log] and [Math.sqrt] finite where the host's are, a node
    that has an unvisited child gets an unvisited child from
    [getBestChild]: the UCB1 value of every visited child is finite and
    that of an unvisited one is plus infinity, which no finite value
    exceeds. *)
Theorem getBestChild_returns_unvisited_child (this : node) (c : num) :
  (forall q, 1 <= q -> exists l, Math_log (Fin q) = Fin l /\ 0 <= l) ->
  (forall q, 0 <= q -> exists r, Math_sqrt (Fin q) = Fin r) ->
  JS.isFinite c = true ->
  well_counted this ->
  (exists ch, In ch (children this) /\ visits ch = 0%Z) ->
  exists i best,
    getBestChild Math_sqrt Math_log this c = Some (i, best) /\
    nth_error (children this) i = Some best /\
    visits best = 0%Z /\
    UCB1 this best c = PInf /\
    forall ch, In ch (children this) -> visits ch <> 0%Z ->
      JS.isFinite (UCB1 this ch c) = true.
Proof.
  intros Hlog Hsqrt Hc Hwell Hex.
  assert (Hfin : forall ch, In ch (children this) -> visits ch <> 0%Z ->
                   JS.isFinite (UCB1 this ch c) = true).
  { intros ch Hin Hvisited.
    destruct Hwell as [st act chs vis tot Hvis Htot Hle Hch].
    cbn [children] in Hin.
    rewrite Forall_forall in Hle, Hch.
    specialize (Hle ch Hin). specialize (Hch ch Hin).
    destruct Hch as [st' act' chs' vis' tot' Hvis' Htot' _ _].
    cbn [visits] in *.
    apply UCB1_finite; auto. cbn [visits]. lia. }
  destruct (@getBestChild_unvisited_when_finite this c Hex Hfin)
    as (i & best & H1 & H2 & H3 & H4).
  exists i, best. repeat split; assumption.
Qed.

(** *** One visit per iteration *)

Variable ai : MCTSAI.

#[local] Abbreviation simulate :=
  (simulate_from bits simulatePlayout getActionsForState simulateAction
     isTerminalState).
#[local] Abbreviation step :=
  (iterate bits Math_sqrt Math_log simulatePlayout getActionsForState
     simulateAction isTerminalState ai).
#[local] Abbreviation goes_down :=
  (productive getActionsForState isTerminalState).
#[local] Abbreviation expansion :=
  (expand_children getActionsForState simulateAction).

Lemma node_induction (P : node -> Prop) :
  (forall st act ch vis tot, Forall P ch -> P (Node st act ch vis tot)) ->
  forall nd, P nd.
Proof.
  intros H. fix IH 1. intros [st act ch vis tot]. apply H.
  induction ch as [| x ch IHch]; constructor; [apply IH | exact IHch].
Qed.

Lemma sum_visits_app (l1 l2 : list node) :
  sum_visits (l1 ++ l2) = (sum_visits l1 + sum_visits l2)%Z.
Proof.
  unfold sum_visits. induction l1 as [| x l1 IH]; simpl; [reflexivity |].
  rewrite IH. lia.
Qed.

Lemma sum_visits_expansion (nd : node) :
  sum_visits (expansion nd) = sum_visits (children nd).
Proof.
  unfold expand_children. rewrite sum_visits_app.
  generalize (getActionsForState (node_state nd)
                (Some (currentPlayerId (turnInfo (node_state nd))))).
  intros actions. assert (E : sum_visits
    (map (fun action =>
            MCTSNode_new (simulateAction action (node_state nd))
                         (Some action)) actions) = 0%Z)
    by (induction actions as [| a actions IH]; simpl in *; lia).
  rewrite E. lia.
Qed.

Lemma update_nth_visits {B : Type} (f : node -> option (node * B))
  (l : list node) : forall k,
  (k < List.length l)%nat ->
  Forall (fun x => exists x' b,
            f x = Some (x', b) /\ visits x' = (visits x + 1)%Z) l ->
  exists l' b,
    update_nth f l k = Some (l', b) /\
    l' <> [] /\
    sum_visits l' = (sum_visits l + 1)%Z.
Proof.
  induction l as [| x l IH]; simpl; intros k Hk Hf; [lia |].
  inversion Hf as [| ? ? (x' & b & Ex & Hx) Hl]; subst.
  destruct k as [| k].
  - rewrite Ex. exists (x' :: l), b. repeat split; [easy |].
    unfold sum_visits. simpl. lia.
  - destruct (IH k) as (l' & b' & -> & _ & Hs); [lia | assumption |].
    exists (x :: l'), b'. repeat split; [easy |].
    unfold sum_visits in *. simpl. lia.
Qed.

Lemma simulate_from_visits (nd : node) (n : nat) :
  exists nd' r,
    simulate nd n = Some (nd', r) /\
    node_state nd' = node_state nd /\
    visits nd' = (visits nd + 1)%Z /\
    (isTerminalState (node_state nd) = false -> expansion nd <> [] ->
     children nd' <> [] /\
     sum_visits (children nd') = (sum_visits (children nd) + 1)%Z).
Proof.
  unfold simulate_from.
  destruct (isTerminalState (node_state nd)) eqn:Et; simpl.
  - destruct (simulatePlayout (node_state nd) n) as [value n'].
    eexists; eexists. split; [reflexivity |].
    destruct nd; simpl. repeat split; easy.
  - pose proof (sum_visits_expansion nd) as Hsum.
    destruct (expansion nd) as [| c0 cs] eqn:Ee.
    + destruct (simulatePlayout (node_state nd) n) as [value n'].
      eexists; eexists. split; [reflexivity |].
      destruct nd; simpl. repeat split; easy.
    + pose proof (@random_index_range bits n (List.length (c0 :: cs))
                    ltac:(simpl; lia)) as [Hlo Hhi].
      destruct (Z.ltb_spec
                  (random_index (Math_random bits n) (List.length (c0 :: cs)))
                  0); [lia |].
      edestruct (@update_nth_visits (num * nat)
                   (fun child =>
                      let (value, n') :=
                        simulatePlayout (node_state child) (S n) in
                      Some (visit child (children child) value, (value, n')))
                   (c0 :: cs)) as (l' & [value n'] & -> & Hne & Hs).
      * apply Nat2Z.inj_lt. rewrite Z2Nat.id by lia. exact Hhi.
      * apply Forall_forall. intros x _.
        destruct (simulatePlayout (node_state x) (S n)) as [v0 n0].
        eexists; eexists. split; [reflexivity |]. reflexivity.
      * eexists; eexists. split; [reflexivity |].
        destruct nd; simpl in *. repeat split; auto; lia.
Qed.

Lemma iterate_eq (nd : node) (n : nat) :
  step nd n =
  if negb (isLeaf nd) && negb (isTerminalState (node_state nd)) then
    match getBestChild Math_sqrt Math_log nd (explorationConstant ai) with
    | None => simulate nd n
    | Some (i, _) =>
        match update_nth (fun child => step child n) (children nd) i with
        | None => None
        | Some (ch', (value, n')) => Some (visit nd ch' value, (value, n'))
        end
    end
  else simulate nd n.
Proof. destruct nd; reflexivity. Qed.

(** An iteration always finishes, visits the node it starts from exactly
    once and leaves its state alone; from a productive node it visits
    exactly one of the children. *)
Lemma iterate_visits : forall (nd : node) (n : nat),
  exists nd' r,
    step nd n = Some (nd', r) /\
    node_state nd' = node_state nd /\
    visits nd' = (visits nd + 1)%Z /\
    (goes_down nd ->
     children nd' <> [] /\
     sum_visits (children nd') = (sum_visits (children nd) + 1)%Z).
Proof.
  induction nd as [st act ch vis tot IH] using node_induction. intros n.
  rewrite iterate_eq.
  change ch with (children (Node st act ch vis tot)) in IH.
  set (nd := Node st act ch vis tot) in *.
  destruct (negb (isLeaf nd) && negb (isTerminalState (node_state nd)))
    eqn:Hcond.
  - apply andb_true_iff in Hcond as [Hleaf Hterm].
    assert (Hch : children nd <> []).
    { unfold isLeaf in Hleaf. destruct (children nd); easy. }
    destruct (@getBestChild_is_child nd (explorationConstant ai) Hch)
      as (i & best & -> & Hnth).
    edestruct (@update_nth_visits (num * nat)
                 (fun child => step child n) (children nd) i)
      as (l' & [value n'] & -> & Hne & Hs).
    + apply nth_error_Some. congruence.
    + eapply Forall_impl; [| exact IH]. simpl.
      intros x Hx. destruct (Hx n) as (x' & r & E & _ & Hv & _). eauto.
    + eexists; eexists. split; [reflexivity |].
      split; [reflexivity |]. split; [reflexivity |]. auto.
  - destruct (simulate_from_visits nd n) as (nd1 & r1 & E1 & Hs1 & Hv1 & Hc1).
    exists nd1, r1.
    split; [exact E1 |]. split; [exact Hs1 |]. split; [exact Hv1 |].
    intros [Ht Hp]. apply Hc1; [exact Ht |].
    rewrite Ht in Hcond. rewrite andb_true_r in Hcond.
    apply negb_false_iff in Hcond. unfold isLeaf in Hcond.
    destruct Hp as [Hp | Hp].
    + destruct (children nd); [contradiction | discriminate].
    + unfold expand_children.
      destruct (getActionsForState _ _); [contradiction |].
      destruct (children nd); discriminate.
Qed.

Lemma productive_step (nd nd' : node) r n :
  goes_down nd -> step nd n = Some (nd', r) ->
  goes_down nd' /\
  sum_visits (children nd') = (sum_visits (children nd) + 1)%Z.
Proof.
  intros Hp E.
  destruct (iterate_visits nd n) as (nd2 & r2 & E2 & Hs & _ & Hc).
  rewrite E in E2. inversion E2; subst.
  destruct (Hc Hp) as [Hne Hsum]. split; [| assumption].
  destruct Hp as [Ht _]. split; [now rewrite Hs | now left].
Qed.

Lemma run_iterations_visits (count : nat) : forall (root : node) (n : nat),
  goes_down root ->
  exists root' n',
    run_iterations bits Math_sqrt Math_log simulatePlayout getActionsForState
      simulateAction isTerminalState ai count root n = Some (root', n') /\
    sum_visits (children root')
    = (sum_visits (children root) + Z.of_nat count)%Z.
Proof.
  induction count as [| count IH]; simpl; intros root n Hp.
  - exists root, n. split; [reflexivity | lia].
  - destruct (iterate_visits root n) as (nd' & [v n'] & E & _).
    rewrite E. destruct (productive_step _ Hp E) as [Hp' Hs].
    destruct (IH nd' n' Hp') as (root' & n2 & -> & Hs').
    exists root', n2. split; [reflexivity | lia].
Qed.
End MCTSFacts.

(** C4, as the code has it.  Expansion reads the actions from
    [getActionsForState] on the root state, not from [availableActions]:
    when the root state is not terminal and has at least one such action,
    the search finishes and, after the configured number of iterations
    (EASY 100, MEDIUM 500, HARD 1000, EXPERT 2000), the visit counts of
    the root's children add up to that number. *)
Theorem root_children_visits_add_up_to_iterations
  (TState TAction : Type) (bits : nat -> Z) (Math_sqrt Math_log : num -> num)
  (simulatePlayout : IGameState TState -> nat -> num * nat)
  (getActionsForState :
     IGameState TState -> option string -> list (IGameAction TAction))
  (simulateAction :
     IGameAction TAction -> IGameState TState -> IGameState TState)
  (isTerminalState : IGameState TState -> bool)
  (config : IAIConfig) (state : IGameState TState) (n : nat) :
  isTerminalState state = false ->
  getActionsForState state (Some (currentPlayerId (turnInfo state))) <> [] ->
  exists root n',
    MCTS_search bits Math_sqrt Math_log simulatePlayout getActionsForState
      simulateAction isTerminalState (MCTSAI_new config) state n
      = Some (root, n') /\
    sum_visits (children root) = iterations (MCTSAI_new config) /\
    iterations (MCTSAI_new config) =
      match cfg_difficulty config with
      | EASY => 100 | MEDIUM => 500 | HARD => 1000 | EXPERT => 2000
      end%Z.
Proof.
  intros Ht Ha. unfold MCTS_search.
  destruct (@run_iterations_visits TState TAction bits Math_sqrt Math_log
              simulatePlayout getActionsForState simulateAction
              isTerminalState (MCTSAI_new config)
              (Z.to_nat (iterations (MCTSAI_new config)))
              (MCTSNode_new state None) n) as (root & n' & E & Hs).
  { split; [exact Ht | right; exact Ha]. }
  exists root, n'. split; [exact E |].
  split; [| destruct config as [? [] ? ? ? ?]; reflexivity].
  rewrite Hs. simpl.
  destruct (cfg_difficulty config); reflexivity.
Qed.

(** ** Greedy against one-ply Minimax *)

Section OnePly.
Variables TState TAction : Type.
Variable bits : nat -> Z.
Variable simulateAction :
  IGameAction TAction -> IGameState TState -> IGameState TState.
Variable getActionsForState :
  IGameState TState -> option string -> list (IGameAction TAction).
Variable isTerminalState : IGameState TState -> bool.
Variable evaluateState : IGameState TState -> num.
Variable evaluateAction : IGameAction TAction -> IGameState TState -> num.
Variable ai : MinimaxAI.

Hypothesis one_ply : maxDepth ai = 1%Z.
Hypothesis no_noise : forall k, Math_random bits k == 1 # 2.

Lemma one_ply_evaluate (fuel : nat) (state : IGameState TState)
  (actions : list (IGameAction TAction)) : forall n,
  (forall a, In a actions ->
     evaluateAction a state = evaluateState (simulateAction a state)) ->
  exists l,
    minimax_evaluate bits simulateAction getActionsForState isTerminalState
      evaluateState ai (S fuel) state actions n = Some l /\
    Forall2 same_evaluation l
      (greedy_add_noise bits (minimax_base ai)
         (map (fun action => (action, evaluateAction action state)) actions)
         n).
Proof.
  induction actions as [| a rest IH]; intros n Heq.
  - exists []. split; [reflexivity | constructor].
  - destruct (IH (S n)) as (l & El & Hl).
    { intros a' Ha'. apply Heq. now right. }
    cbn [minimax_evaluate minimax map greedy_add_noise].
    rewrite one_ply. cbn [Z.sub Z.add Z.opp Z.pos_sub Z.eqb orb].
    rewrite El.
    eexists. split; [reflexivity |].
    constructor; [| exact Hl].
    split; [reflexivity |]. cbn [snd].
    rewrite (Heq a) by now left.
    apply addNoise_zero, no_noise.
Qed.

(** C6, as the code has it.  Minimax scales its noise by 10 and Greedy by
    20, so with the same draws the noisy values differ.  Without noise
    (every draw is 0.5) a Minimax AI of [maxDepth] 1 chooses the action the
    Greedy AI chooses whose [evaluateAction(a, s)] is
    [evaluateState(simulateAction(a, s))]. *)
Theorem one_ply_minimax_is_greedy_without_noise
  (fuel : nat) (state : IGameState TState)
  (availableActions : list (IGameAction TAction)) (n : nat) :
  (forall a, In a availableActions ->
     evaluateAction a state = evaluateState (simulateAction a state)) ->
  Minimax_chooseAction bits simulateAction getActionsForState isTerminalState
    evaluateState ai (S fuel) state availableActions n
  = Some (Greedy_chooseAction bits evaluateAction (minimax_base ai) state
            availableActions n).
Proof.
  intros Heq. unfold Minimax_chooseAction, Greedy_chooseAction.
  destruct availableActions as [| a rest]; [reflexivity |].
  destruct (@one_ply_evaluate fuel state (a :: rest)
              (simulateThinking (minimax_base ai) n) Heq) as (l & -> & Hl).
  f_equal. now apply best_action_same.
Qed.
End OnePly.

(** ** The properties on the example games *)

Import Example.

Lemma alpha_beta_selects_unpruned_action_example :
  (forall s, real (Example.evaluateState s)) /\
  exists r,
    Unpruned_chooseAction bits_half Example.simulateAction
      Example.getActionsForState Example.isTerminalState
      Example.evaluateState (minimax_ai MEDIUM 3) 3
      (position 0 "p1") (moves_at 0 "p1") 0 = Some r /\
    Minimax_chooseAction bits_half Example.simulateAction
      Example.getActionsForState Example.isTerminalState
      Example.evaluateState (minimax_ai MEDIUM 3) 3
      (position 0 "p1") (moves_at 0 "p1") 0 = Some r.
Proof.
  assert (H : forall s, real (Example.evaluateState s))
    by (intros s; discriminate).
  split; [exact H |].
  apply (proj1 (proj2 (@alpha_beta_selects_unpruned_action Z Z bits_half
                         Example.simulateAction Example.getActionsForState
                         Example.isTerminalState Example.evaluateState
                         (minimax_ai MEDIUM 3) H 3
                         (position 0 "p1") (moves_at 0 "p1") 0))).
  - simpl. lia.
  - simpl. lia.
Defined.

Lemma minimax_no_actions_returns_sentinel_example :
  minimax Example.simulateAction stuck_actions Example.isTerminalState
    Example.evaluateState (minimax_ai MEDIUM 3) 1 (position 0 "p2") 2
    NInf PInf false = Some PInf.
Proof.
  apply (@minimax_no_actions_returns_sentinel Z Z Example.simulateAction
           stuck_actions Example.isTerminalState Example.evaluateState
           (minimax_ai MEDIUM 3) 0 (position 0 "p2") 2 NInf PInf false).
  - discriminate.
  - reflexivity.
  - reflexivity.
Defined.

Lemma invalid_action_changes_nothing_example :
  executeAction (mkAction "add" "p2" 3%Z None) started =
    (Returns
       {| success := false;
          newState := None;
          error := Some "Not your turn"%string;
          sideEffects := None |},
     started).
Proof.
  apply (@invalid_action_changes_nothing Z Z started
           (mkAction "add" "p2" 3%Z None) initial_state).
  - reflexivity.
  - reflexivity.
Defined.

Lemma undo_then_redo_restores_example :
  history (stateManager played) <> [] /\
  exists c1 c2,
    undo played = (Returns true, c1) /\
    redo c1 = (Returns true, c2) /\
    currentState (stateManager c2) = Some played_state /\
    history (stateManager c2) = history (stateManager played) /\
    redoStack (stateManager c2) = redoStack (stateManager played).
Proof.
  assert (H : history (stateManager played) <> [])
    by (vm_compute; discriminate).
  split; [exact H |].
  apply (@undo_then_redo_restores Z Z played played_state).
  - reflexivity.
  - exact H.
Defined.

Lemma history_never_exceeds_maximum_example :
  (Z.of_nat
     (List.length
        (history
           (run_ops (GameStateManager_new Z (Some 2%Z))
              [OpSetState initial_state; OpSetState played_state;
               OpSetState initial_state; OpSetState played_state;
               OpUndo Z; OpRedo Z])))
   <= 2)%Z.
Proof.
  apply (@history_never_exceeds_maximum Z (Some 2%Z)
           [OpSetState initial_state; OpSetState played_state;
            OpSetState initial_state; OpSetState played_state;
            OpUndo Z; OpRedo Z]).
  simpl. lia.
Defined.

Lemma endTurn_advances_from_turn_manager_cursor_example :
  exists c' s',
    endTurn 5 started = (Returns tt, c') /\
    currentState (stateManager c') = Some s' /\
    currentPlayerId (turnInfo s') = "p2"%string /\
    turnNumber (turnInfo s') = 2%Z /\
    movesThisTurn (turnInfo s') = 0%Z.
Proof.
  destruct (@endTurn_advances_from_turn_manager_cursor Z Z started 5
              initial_state alice "p2" tt)
    as (c' & s' & E & Es & En & Et & Em & _).
  - reflexivity.
  - reflexivity.
  - reflexivity.
  - reflexivity.
  - simpl. auto.
  - exists c', s'. repeat split; assumption.
Defined.

Lemma root_children_visits_add_up_to_iterations_example :
  exists root n',
    MCTS_search bits_half rough_sqrt rough_log Example.simulatePlayout
      Example.getActionsForState Example.simulateAction
      Example.isTerminalState (mcts_ai EASY) (position 0 "p1") 0
      = Some (root, n') /\
    sum_visits (children root) = 100%Z.
Proof.
  destruct (@root_children_visits_add_up_to_iterations Z Z bits_half
              rough_sqrt rough_log Example.simulatePlayout
              Example.getActionsForState Example.simulateAction
              Example.isTerminalState (ai_config EASY None)
              (position 0 "p1") 0)
    as (root & n' & E & Hs & _).
  - reflexivity.
  - discriminate.
  - exists root, n'. split; [exact E | exact Hs].
Defined.

Lemma one_ply_minimax_is_greedy_without_noise_example :
  Minimax_chooseAction bits_half Example.simulateAction
    Example.getActionsForState Example.isTerminalState Example.evaluateState
    (minimax_ai MEDIUM 1) 1 (position 6 "p1") (moves_at 6 "p1") 0
  = Some (Greedy_chooseAction bits_half Example.evaluateAction
            (minimax_base (minimax_ai MEDIUM 1)) (position 6 "p1")
            (moves_at 6 "p1") 0).
Proof.
  apply (@one_ply_minimax_is_greedy_without_noise Z Z bits_half
           Example.simulateAction Example.getActionsForState
           Example.isTerminalState Example.evaluateState
           Example.evaluateAction (minimax_ai MEDIUM 1)).
  - reflexivity.
  - intros k. reflexivity.
  - intros a _. reflexivity.
Defined.

Lemma getBestChild_returns_unvisited_child_example :
  exists i best,
    getBestChild rough_sqrt rough_log half_explored (Fin (1414 # 1000))
      = Some (i, best) /\
    nth_error (children half_explored) i = Some best /\
    visits best = 0%Z /\
    getUCB1Value rough_sqrt rough_log half_explored best (Fin (1414 # 1000))
      = PInf.
Proof.
  destruct (@getBestChild_returns_unvisited_child Z Z rough_sqrt rough_log
              half_explored (Fin (1414 # 1000)))
    as (i & best & H1 & H2 & H3 & H4 & _).
  - intros q Hq. exists (q - 1). split.
    + unfold rough_log, JS.sign.
      assert (E : (0 ?= q) = Lt) by (change (0 < q); lra).
      rewrite E. reflexivity.
    + lra.
  - intros q Hq. exists q. unfold rough_sqrt.
    assert (E : JS.Qlt_bool q 0 = false).
    { unfold JS.Qlt_bool. apply negb_false_iff, Qle_bool_iff. exact Hq. }
    rewrite E. reflexivity.
  - reflexivity.
  - constructor; [lia | reflexivity | |].
    + repeat constructor; cbn; lia.
    + repeat constructor; cbn; lia.
  - eexists. split; [right; left; reflexivity | reflexivity].
  - exists i, best. repeat split; assumption.
Defined.

(** C1, as the specification states it, fails for an evaluator that may
    return NaN.  With draws of 0.5 (no noise) and depth 3 on the tree
    game, the leaf 14 scores NaN and the leaf 13 before it scores 5:
    under move 2 the pruned search cuts position 6 off after leaf 13
    (5 >= beta = 3) and returns 3, while the unpruned search reads the NaN
    and returns NaN.  Sorting [(move 1, 1); (move 2, 3)] puts move 2
    first; sorting [(move 1, 1); (move 2, NaN)] leaves move 1 first. *)
Lemma alpha_beta_differs_from_unpruned_on_NaN :
  Minimax_chooseAction bits_half Example.simulateAction
    Example.getActionsForState Example.isTerminalState score_with_NaN
    (minimax_ai MEDIUM 3) 3 (position 0 "p1") (moves_at 0 "p1") 0
  = Some (Some (move "p1" 2)) /\
  Unpruned_chooseAction bits_half Example.simulateAction
    Example.getActionsForState Example.isTerminalState score_with_NaN
    (minimax_ai MEDIUM 3) 3 (position 0 "p1") (moves_at 0 "p1") 0
  = Some (Some (move "p1" 1)) /\
  minimax Example.simulateAction Example.getActionsForState
    Example.isTerminalState score_with_NaN (minimax_ai MEDIUM 3) 3
    (position 2 "p2") 2 NInf PInf false = Some (Fin 3) /\
  minimax_unpruned Example.simulateAction Example.getActionsForState
    Example.isTerminalState score_with_NaN (minimax_ai MEDIUM 3) 3
    (position 2 "p2") 2 false = Some NaN.
Proof. repeat split; vm_compute; reflexivity. Qed.

(** C2.  The code at the failing input: [initialize] with players p1
    and p2, [endTurn()], [undo()], [endTurn()].  [undo()] puts the state
    back at player p1 but leaves the turn manager's cursor on p2, so the
    second [endTurn()] does not start from the state's current player
    p1, whose successor in the strategy is p2 (as the first [endTurn()]
    from the same state gave): it gives the turn to p1 again. *)
Lemma endTurn_after_undo_does_not_follow_state_player :
  option_map (fun s => currentPlayerId (turnInfo s))
    (currentState (stateManager turn_undone)) = Some "p1"%string /\
  currentPlayerIndex (turnManager turn_undone) = 1%Z /\
  fst (getNextPlayer TurnOrderStrategies.sequential tt "p1" ["p1"; "p2"]%string)
    = Some "p2"%string /\
  option_map (fun s => currentPlayerId (turnInfo s))
    (currentState (stateManager (after (endTurn 6) turn_undone)))
    = Some "p1"%string /\
  ~ endTurn_follows_state_player turn_undone 6.
Proof.
  repeat (split; [reflexivity |]).
  intros H.
  destruct (H initial_state eq_refl eq_refl)
    as (c' & s' & E & Es & Enext & _).
  vm_compute in E. inversion E; subst; clear E.
  vm_compute in Es. inversion Es; subst; clear Es.
  vm_compute in Enext. discriminate.
Qed.

(** C4, as the specification states it, fails: on a terminal root state
    a call with a non-empty [availableActions] runs its 100 iterations on
    the root alone; the root never gets a child, so the visit counts of
    its children add up to 0, and the call returns [null]. *)
Lemma terminal_root_children_visits_stay_zero :
  MCTS_chooseAction bits_half rough_sqrt rough_log Example.simulatePlayout
    Example.getActionsForState Example.simulateAction
    Example.isTerminalState (mcts_ai EASY) (position 7 "p1")
    [move "p1" 15] 0 = Some None /\
  exists root n',
    MCTS_search bits_half rough_sqrt rough_log Example.simulatePlayout
      Example.getActionsForState Example.simulateAction
      Example.isTerminalState (mcts_ai EASY) (position 7 "p1") 0
      = Some (root, n') /\
    visits root = 100%Z /\
    sum_visits (children root) = 0%Z /\
    sum_visits (children root) <> iterations (mcts_ai EASY).
Proof.
  split; [vm_compute; reflexivity |].
  eexists. eexists. split; [vm_compute; reflexivity |].
  vm_compute. repeat split; discriminate.
Qed.

(** C6, as the specification states it, fails: with the same draws (0.875
    for the first action, 0.5 for the second) on moves of scores -2 and 5,
    Minimax adds 3.75 to the first score and chooses the second move,
    Greedy adds 7.5 and chooses the first. *)
Lemma one_ply_minimax_differs_from_greedy_with_noise :
  Minimax_chooseAction bits_high_first Example.simulateAction
    Example.getActionsForState Example.isTerminalState Example.evaluateState
    (minimax_ai MEDIUM 1) 1 (position 6 "p1") (moves_at 6 "p1") 0
  = Some (Some (move "p1" 14)) /\
  Greedy_chooseAction bits_high_first Example.evaluateAction
    (minimax_base (minimax_ai MEDIUM 1)) (position 6 "p1")
    (moves_at 6 "p1") 0
  = Some (move "p1" 13) /\
  Minimax_chooseAction bits_high_first Example.simulateAction
    Example.getActionsForState Example.isTerminalState Example.evaluateState
    (minimax_ai MEDIUM 1) 1 (position 6 "p1") (moves_at 6 "p1") 0
  <> Some (Greedy_chooseAction bits_high_first Example.evaluateAction
             (minimax_base (minimax_ai MEDIUM 1)) (position 6 "p1")
             (moves_at 6 "p1") 0).
Proof.
  split; [vm_compute; reflexivity |].
  split; [vm_compute; reflexivity |].
  vm_compute. discriminate.
Qed.

(* ================================================================== *)
(** * Further properties *)

(** ** State history: round trips, branching, checkpoints *)

Section StateManagerMore.
Variable TState : Type.
#[local] Abbreviation manager := (GameStateManager TState).

(** X1. [redo] followed by [undo] is a round trip: with a current state
    and a non-empty redo stack both return [true] and the manager --
    current state, history, redo stack -- is exactly what it was. *)
Theorem redo_then_undo_restores_manager (m : manager)
  (current : IGameState TState) :
  currentState m = Some current ->
  redoStack m <> [] ->
  fst (StateManager_redo m) = true /\
  fst (StateManager_undo (snd (StateManager_redo m))) = true /\
  snd (StateManager_undo (snd (StateManager_redo m))) = m.
Proof.
  intros Hc Hr.
  destruct (pop_nonempty Hr) as (next & later & Er & Ep).
  unfold StateManager_redo, canRedo.
  rewrite Er, length_push, <- Er, Ep, Hc.
  cbn [fst snd Nat.ltb Nat.leb].
  unfold StateManager_undo, canUndo.
  cbn [currentState history redoStack maxHistorySize checkpoints].
  rewrite length_push, pop_push.
  cbn [fst snd Nat.ltb Nat.leb].
  repeat split.
  unfold deepClone. rewrite <- Er.
  destruct m; simpl in *; subst; reflexivity.
Qed.

(** X2. Committing after an undo drops the undone branch: after [undo]
    and a [setState] the redo stack is empty, [redo] returns [false] and
    changes nothing, and the new state stays current. *)
Theorem setState_after_undo_drops_redo (m : manager)
  (state : IGameState TState) :
  let m' := setState (snd (StateManager_undo m)) state in
  redoStack m' = [] /\
  StateManager_redo m' = (false, m') /\
  currentState m' = Some state.
Proof.
  intros m'. subst m'. unfold setState, StateManager_redo, canRedo.
  cbn [redoStack currentState List.length Nat.ltb Nat.leb].
  auto.
Qed.

Lemma StateManager_undo_setState (m : manager)
  (current state : IGameState TState) :
  currentState m = Some current ->
  (1 <= maxHistorySize m)%Z ->
  StateManager_undo (setState m state) =
    (true,
     {| currentState := Some current;
        history :=
          (if (Z.of_nat (S (List.length (history m))) >? maxHistorySize m)%Z
           then tl (history m) else history m);
        redoStack := [state];
        maxHistorySize := maxHistorySize m;
        checkpoints := checkpoints m |}).
Proof.
  intros Hc Hmax.
  unfold setState. rewrite Hc, length_push.
  unfold StateManager_undo, canUndo.
  cbn [currentState history redoStack maxHistorySize checkpoints].
  unfold deepClone.
  destruct (Z.gtb_spec (Z.of_nat (S (List.length (history m))))
              (maxHistorySize m)) as [Hfull | Hroom].
  - destruct (history m) as [| h0 hs] eqn:Eh; [simpl in Hfull; lia |].
    assert (E : shift (push (h0 :: hs) current) = push hs current)
      by reflexivity.
    rewrite E, length_push, pop_push.
    reflexivity.
  - rewrite length_push, pop_push.
    reflexivity.
Qed.

(** X3. A commit can be taken back: when the maximum is at least 1 and
    there is a current state, [setState] followed by [undo] returns
    [true], makes the previous state current again, leaves the committed
    state as the only entry of the redo stack, and the history is the old
    one, without its oldest entry if it was full. *)
Theorem setState_then_undo_restores_current (m : manager)
  (current state : IGameState TState) :
  currentState m = Some current ->
  (1 <= maxHistorySize m)%Z ->
  let r := StateManager_undo (setState m state) in
  fst r = true /\
  currentState (snd r) = Some current /\
  redoStack (snd r) = [state] /\
  history (snd r) =
    (if (Z.of_nat (S (List.length (history m))) >? maxHistorySize m)%Z
     then tl (history m) else history m).
Proof.
  intros Hc Hmax r. subst r.
  rewrite (StateManager_undo_setState m state Hc Hmax).
  cbn [fst snd currentState history redoStack]. auto.
Qed.

Lemma Map_set_find {V : Type} (key : string) (value : V)
  (map : list (string * V)) :
  find (fun kv => String.eqb (fst kv) key) (Map_set key value map)
  = Some (key, value).
Proof.
  induction map as [| [k v] rest IH]; simpl.
  - now rewrite String.eqb_refl.
  - destruct (String.eqb k key) eqn:E; simpl.
    + now rewrite String.eqb_refl.
    + now rewrite E.
Qed.

Lemma run_ops_keeps_checkpoints (ops : list (manager_op TState)) :
  forall m : manager,
  forallb (@keeps_checkpoints TState) ops = true ->
  checkpoints (run_ops m ops) = checkpoints m.
Proof.
  unfold run_ops.
  induction ops as [| op ops IH]; simpl; intros m H; [reflexivity |].
  apply andb_true_iff in H as [Hop Hops].
  rewrite IH by assumption.
  destruct op; simpl in *; try discriminate; try reflexivity.
  - unfold StateManager_undo. destruct (currentState m); [| reflexivity].
    destruct (canUndo m); [| reflexivity].
    destruct (pop (history m)). reflexivity.
  - unfold StateManager_redo. destruct (canRedo m); [| reflexivity].
    destruct (pop (redoStack m)). reflexivity.
Qed.

(** X4. A checkpoint survives commits, undos and redos: whatever such
    operations follow [createCheckpoint], [restoreCheckpoint] with the
    returned id returns [true] and makes the checkpointed state current
    again; the state it replaces is pushed on the history and the redo
    stack is left as it is. *)
Theorem checkpoint_restores_saved_state (m : manager) (now : Z)
  (saved : IGameState TState) (ops : list (manager_op TState)) :
  currentState m = Some saved ->
  forallb (@keeps_checkpoints TState) ops = true ->
  let id := fst (createCheckpoint m now) in
  let m1 := run_ops (snd (createCheckpoint m now)) ops in
  let r := restoreCheckpoint m1 id in
  fst r = true /\
  currentState (snd r) = Some saved /\
  history (snd r) =
    match currentState m1 with
    | Some cur => push (history m1) cur
    | None => history m1
    end /\
  redoStack (snd r) = redoStack m1.
Proof.
  intros Hc Hops id m1 r.
  assert (Hf : find (fun kv => String.eqb (fst kv) id) (checkpoints m1)
               = Some (id, Some saved)).
  { subst id m1. rewrite run_ops_keeps_checkpoints by assumption.
    unfold createCheckpoint. cbn [fst snd checkpoints].
    rewrite Map_set_find, Hc. reflexivity. }
  subst r. unfold restoreCheckpoint. rewrite Hf.
  cbn [fst snd currentState history redoStack]. unfold deepClone. auto.
Qed.

(** X5. A checkpoint taken while there is no current state holds [null]
    and can never be restored: [restoreCheckpoint] returns [false] and
    changes nothing, also after states have been committed. *)
Theorem empty_checkpoint_is_never_restored (m : manager) (now : Z)
  (ops : list (manager_op TState)) :
  currentState m = None ->
  forallb (@keeps_checkpoints TState) ops = true ->
  let id := fst (createCheckpoint m now) in
  let m1 := run_ops (snd (createCheckpoint m now)) ops in
  restoreCheckpoint m1 id = (false, m1).
Proof.
  intros Hc Hops id m1.
  assert (Hf : find (fun kv => String.eqb (fst kv) id) (checkpoints m1)
               = Some (id, None)).
  { subst id m1. rewrite run_ops_keeps_checkpoints by assumption.
    unfold createCheckpoint. cbn [fst snd checkpoints].
    rewrite Map_set_find, Hc. reflexivity. }
  unfold restoreCheckpoint. rewrite Hf. reflexivity.
Qed.

(** X6. [restoreCheckpoint] does not enforce the history bound: on a full
    history it leaves one entry more than the maximum, and a later
    [setState], which drops a single entry, does not bring the history
    back under the maximum. *)
Theorem restoreCheckpoint_exceeds_maximum (m : manager) (id : string)
  (saved current state : IGameState TState) :
  find (fun kv => String.eqb (fst kv) id) (checkpoints m)
    = Some (id, Some saved) ->
  currentState m = Some current ->
  Z.of_nat (List.length (history m)) = maxHistorySize m ->
  let m' := snd (restoreCheckpoint m id) in
  Z.of_nat (List.length (history m')) = (maxHistorySize m + 1)%Z /\
  Z.of_nat (List.length (history (setState m' state)))
    = (maxHistorySize m + 1)%Z.
Proof.
  intros Hf Hc Hl m'. subst m'.
  unfold restoreCheckpoint. rewrite Hf, Hc. cbn [snd].
  unfold setState.
  cbn [currentState history redoStack maxHistorySize checkpoints].
  rewrite !length_push.
  split; [lia |].
  destruct (Z.gtb_spec
              (Z.of_nat (S (S (List.length (history m)))))
              (maxHistorySize m)); [| lia].
  unfold shift, push. destruct (history m); simpl;
    rewrite ?length_app; simpl in *; try rewrite length_app; simpl; lia.
Qed.
End StateManagerMore.

(** ** Turn order *)

Lemma indexOf_nth (l : list string) : forall (k : nat) (x : string),
  NoDup l -> nth_error l k = Some x -> indexOf l x = Z.of_nat k.
Proof.
  induction l as [| y l IH]; intros k x Hnd Hk; [now destruct k |].
  inversion Hnd as [| ? ? Hy Hl]; subst.
  destruct k as [| k]; simpl in *.
  - inversion Hk; subst. now rewrite String.eqb_refl.
  - destruct (String.eqb_spec y x) as [-> | _].
    + elim Hy. eapply nth_error_In; eauto.
    + rewrite (IH k x Hl Hk).
      destruct (Z.ltb_spec (Z.of_nat k) 0); lia.
Qed.

Lemma findIndex_id_nth (l : list IPlayer) : forall (k : nat) (p : IPlayer),
  NoDup (map id l) -> nth_error l k = Some p ->
  findIndex_id l (Some (id p)) = Z.of_nat k.
Proof.
  induction l as [| q l IH]; intros k p Hnd Hk; [now destruct k |].
  inversion Hnd as [| ? ? Hq Hl]; subst.
  destruct k as [| k]; simpl in *.
  - inversion Hk; subst. now rewrite String.eqb_refl.
  - destruct (String.eqb_spec (id q) (id p)) as [E | _].
    + elim Hq. rewrite E. apply in_map. eapply nth_error_In; eauto.
    + rewrite (IH k p Hl Hk).
      destruct (Z.ltb_spec (Z.of_nat k) 0); lia.
Qed.

Lemma findIndex_id_absent (l : list IPlayer) (x : string) :
  ~ In x (map id l) -> findIndex_id l (Some x) = (-1)%Z.
Proof.
  induction l as [| q l IH]; simpl; intros H; [reflexivity |].
  destruct (String.eqb_spec (id q) x) as [E | _]; [tauto |].
  rewrite IH by tauto. reflexivity.
Qed.

Lemma findIndex_id_undefined (l : list IPlayer) :
  findIndex_id l None = (-1)%Z.
Proof.
  induction l as [| q l IH]; simpl; [reflexivity |]. now rewrite IH.
Qed.

Lemma findIndex_id_points (l : list IPlayer) (x : string) :
  (0 <= findIndex_id l (Some x))%Z ->
  exists p, at_index l (findIndex_id l (Some x)) = Some p /\ id p = x.
Proof.
  induction l as [| q l IH]; simpl; [lia |].
  destruct (String.eqb_spec (id q) x) as [E | _].
  - intros _. exists q. auto.
  - destruct (Z.ltb_spec (findIndex_id l (Some x)) 0) as [| Hpos]; [lia |].
    intros _. destruct (IH Hpos) as (p & Hp & E). exists p. split; [| exact E].
    unfold at_index in *.
    destruct (Z.ltb_spec (findIndex_id l (Some x)) 0); [lia |].
    destruct (Z.ltb_spec (findIndex_id l (Some x) + 1) 0); [lia |].
    replace (Z.to_nat (findIndex_id l (Some x) + 1))
      with (S (Z.to_nat (findIndex_id l (Some x)))) by lia.
    exact Hp.
Qed.

Lemma at_index_nth {A : Type} (l : list A) (i : Z) :
  (0 <= i)%Z -> at_index l i = nth_error l (Z.to_nat i).
Proof.
  intros H. unfold at_index. destruct (Z.ltb_spec i 0); [lia | reflexivity].
Qed.

Lemma at_index_map {A B : Type} (f : A -> B) (l : list A) (i : Z) :
  at_index (map f l) i = option_map f (at_index l i).
Proof.
  unfold at_index. destruct (i <? 0)%Z; [reflexivity |].
  apply nth_error_map.
Qed.

Lemma Forall2_seq_shift {A : Type} (P : A -> nat -> Prop) (l : list A) :
  forall s k,
  Forall2 (fun a j => P a (S j)) l (seq s k) ->
  Forall2 P l (seq (S s) k).
Proof.
  induction l as [| a l IH]; intros s k H.
  - inversion H as [E |]. destruct k; [constructor | discriminate].
  - destruct k as [| k]; [inversion H |].
    cbn [seq] in *. inversion H; subst. constructor; [assumption |].
    now apply IH.
Qed.

(** One call under the sequential strategy with distinct ids: the cursor
    moves to its cyclic successor and that player's id is returned. *)
Lemma sequential_getNextPlayer_step (players : list IPlayer) (i : Z) :
  NoDup (map id players) ->
  (0 <= i < Z.of_nat (List.length players))%Z ->
  let i' := ((i + 1) mod Z.of_nat (List.length players))%Z in
  exists p',
    at_index players i' = Some p' /\
    TurnManager_getNextPlayer
      (mkTurnManager players i TurnOrderStrategies.sequential tt)
    = (Returns (id p'),
       mkTurnManager players i' TurnOrderStrategies.sequential tt).
Proof.
  intros Hnd Hi i'.
  assert (Hi' : (0 <= i' < Z.of_nat (List.length players))%Z)
    by (apply Z.mod_pos_bound; lia).
  destruct (at_index_listed players Hi) as (p & Hp & _).
  destruct (at_index_listed players Hi') as (p' & Hp' & Hin').
  exists p'. split; [exact Hp' |].
  assert (Eidx : indexOf (map id players) (id p) = i).
  { rewrite at_index_nth in Hp by lia.
    rewrite (@indexOf_nth _ (Z.to_nat i) (id p) Hnd); [lia |].
    rewrite nth_error_map, Hp. reflexivity. }
  assert (Enext :
    getNextPlayer TurnOrderStrategies.sequential tt (id p) (map id players)
    = (Some (id p'), tt)).
  { simpl. rewrite Eidx, length_map, Z.rem_mod_nonneg by lia.
    fold i'. rewrite at_index_map, Hp'. reflexivity. }
  rewrite (@TurnManager_getNextPlayer_listed
             (mkTurnManager players i TurnOrderStrategies.sequential tt)
             p (id p') tt Hp Enext (in_map id _ _ Hin')).
  cbn [tm_players turnOrderStrategy]. f_equal. f_equal.
  rewrite at_index_nth in Hp' by lia.
  rewrite (@findIndex_id_nth _ (Z.to_nat i') p' Hnd Hp'). lia.
Qed.

(** X7. Under the sequential strategy, with distinct player ids and the
    cursor on a listed player, successive [getNextPlayer] calls never
    throw and walk the player list cyclically: the [j]-th call returns the
    id of the player [j] places after the cursor, and after [k] calls the
    cursor is [k] places further, modulo the number of players. *)
Theorem sequential_turns_cycle (players : list IPlayer) (k : nat) :
  forall i : Z,
  NoDup (map id players) ->
  (0 <= i < Z.of_nat (List.length players))%Z ->
  let n := Z.of_nat (List.length players) in
  let r := TurnManager_calls k
             (mkTurnManager players i TurnOrderStrategies.sequential tt) in
  snd r = mkTurnManager players ((i + Z.of_nat k) mod n)
            TurnOrderStrategies.sequential tt /\
  Forall2
    (fun answer j =>
       exists p, at_index players ((i + Z.of_nat j) mod n) = Some p /\
                 answer = Returns (id p))
    (fst r) (seq 1 k).
Proof.
  induction k as [| k IH]; intros i Hnd Hi n r; subst r n.
  - simpl. rewrite Z.add_0_r, Z.mod_small by lia. split; [reflexivity |].
    constructor.
  - cbn [TurnManager_calls].
    destruct (@sequential_getNextPlayer_step players i Hnd Hi) as (p' & Hp' & ->).
    set (n := Z.of_nat (List.length players)) in *.
    assert (Hi' : (0 <= (i + 1) mod n < n)%Z)
      by (apply Z.mod_pos_bound; lia).
    specialize (IH ((i + 1) mod n)%Z Hnd Hi').
    cbv zeta in IH. fold n in IH.
    destruct (TurnManager_calls k _) as [rs tm''].
    cbn [fst snd] in *. destruct IH as [-> IH]. split.
    + f_equal. rewrite Zplus_mod_idemp_l. f_equal. lia.
    + cbn [seq]. constructor.
      * exists p'. split; [| reflexivity].
        rewrite <- Hp'. f_equal.
      * apply Forall2_seq_shift.
        eapply Forall2_impl; [| exact IH].
        intros a j (p & Hp & ->). exists p. split; [| reflexivity].
        rewrite <- Hp. f_equal.
        rewrite Zplus_mod_idemp_l. f_equal. lia.
Qed.

Lemma findIndex_id_bound (l : list IPlayer) (x : option string) :
  (findIndex_id l x < Z.of_nat (List.length l))%Z.
Proof.
  induction l as [| q l IH]; simpl; [lia |].
  destruct (match x with Some y => String.eqb (id q) y | None => false end);
    [lia |].
  destruct (Z.ltb_spec (findIndex_id l x) 0); lia.
Qed.

Lemma TurnManager_getNextPlayer_listed' (sigma : Type)
  (tm : TurnManager sigma) (p : IPlayer) (next : string) (st' : sigma) :
  at_index (tm_players tm) (currentPlayerIndex tm) = Some p ->
  getNextPlayer (turnOrderStrategy tm) (strategyState tm)
                (id p) (map id (tm_players tm)) = (Some next, st') ->
  In next (map id (tm_players tm)) ->
  TurnManager_getNextPlayer tm =
    (Returns next,
     {| tm_players := tm_players tm;
        currentPlayerIndex := findIndex_id (tm_players tm) (Some next);
        turnOrderStrategy := turnOrderStrategy tm;
        strategyState := st' |}).
Proof.
  intros Hp Hnext Hin.
  pose proof (findIndex_id_found _ _ Hin) as Hidx.
  unfold TurnManager_getNextPlayer.
  rewrite Hp, Hnext.
  cbn [currentPlayerIndex].
  destruct (Z.eqb_spec (findIndex_id (tm_players tm) (Some next)) (-1));
    [lia |].
  destruct (tm_players tm); [easy | reflexivity].
Qed.

(** X8. Under the random strategy a turn manager with its cursor on a
    listed player never throws: every [getNextPlayer] call returns the id
    of a listed player, uses one random draw, and leaves the cursor on a
    player with the returned id. *)
Theorem random_turns_stay_listed (bits : nat -> Z) (k : nat) :
  forall (players : list IPlayer) (i : Z) (n : nat),
  (0 <= i < Z.of_nat (List.length players))%Z ->
  let r := TurnManager_calls k
             (mkTurnManager players i (TurnOrderStrategies.random bits) n) in
  Forall (fun answer => exists x, answer = Returns x /\ In x (map id players))
         (fst r) /\
  List.length (fst r) = k /\
  strategyState (snd r) = (n + k)%nat /\
  tm_players (snd r) = players /\
  (0 <= currentPlayerIndex (snd r) < Z.of_nat (List.length players))%Z.
Proof.
  induction k as [| k IH]; intros players i n Hi r; subst r.
  - simpl. repeat split; auto; lia.
  - cbn [TurnManager_calls].
    destruct (at_index_listed players Hi) as (p & Hp & _).
    assert (Hlen : (0 < List.length (map id players))%nat)
      by (rewrite length_map; lia).
    pose proof (random_index_range bits n Hlen) as Hr.
    destruct (at_index_listed (map id players) Hr) as (next & Hnext & Hin).
    assert (Enext :
      getNextPlayer (TurnOrderStrategies.random bits) n (id p)
        (map id players) = (Some next, S n)).
    { simpl. rewrite Hnext. reflexivity. }
    rewrite (@TurnManager_getNextPlayer_listed' nat
               (mkTurnManager players i (TurnOrderStrategies.random bits) n)
               p next (S n) Hp Enext Hin).
    cbn [tm_players turnOrderStrategy].
    pose proof (findIndex_id_found _ _ Hin) as Hlo.
    pose proof (findIndex_id_bound players (Some next)) as Hhi.
    specialize (IH players (findIndex_id players (Some next)) (S n)
                  (conj Hlo Hhi)).
    cbv zeta in IH.
    destruct (TurnManager_calls k _) as [rs tm''].
    cbn [fst snd List.length] in *.
    destruct IH as (Hall & Hl & Hs & Hpl & Hc).
    repeat split; auto; try lia.
    constructor; [eauto | assumption].
Qed.

Lemma custom_calls (sequence : list string) (k : nat) :
  forall (c : Z) (current : string) (players : list string),
  sequence <> [] ->
  (0 <= c < Z.of_nat (List.length sequence))%Z ->
  strategy_calls (TurnOrderStrategies.custom sequence) k c current players
  = (map (fun j => at_index sequence
                     ((c + Z.of_nat j) mod Z.of_nat (List.length sequence)))
         (seq 0 k),
     ((c + Z.of_nat k) mod Z.of_nat (List.length sequence))%Z).
Proof.
  induction k as [| k IH]; intros c current players Hne Hc.
  - simpl. rewrite Z.add_0_r, Z.mod_small by lia. reflexivity.
  - cbn [strategy_calls TurnOrderStrategies.custom getNextPlayer].
    set (len := Z.of_nat (List.length sequence)) in *.
    rewrite Z.rem_mod_nonneg by lia.
    rewrite IH by (auto; apply Z.mod_pos_bound; lia). fold len.
    cbn [seq map]. change (Z.of_nat 0) with 0%Z.
    rewrite Z.add_0_r, (Z.mod_small c len) by lia.
    f_equal; [| rewrite Zplus_mod_idemp_l; f_equal; lia].
    f_equal. rewrite <- seq_shift, map_map.
    apply map_ext. intros j.
    rewrite Zplus_mod_idemp_l. do 2 f_equal. lia.
Qed.

(** X9. The custom strategy plays its sequence cyclically, whoever the
    current player is and whatever the player list: from cursor [c] the
    [j]-th answer is the sequence element [c + j] places on, modulo the
    length of the sequence, two runs from the same cursor give the same
    answers for any current players and player lists, and [reset] puts
    the cursor back on the first element. *)
Theorem custom_strategy_cycles_through_sequence
  (sequence : list string) (k : nat) (c : Z)
  (current current' : string) (players players' : list string) :
  sequence <> [] ->
  (0 <= c < Z.of_nat (List.length sequence))%Z ->
  let len := Z.of_nat (List.length sequence) in
  strategy_calls (TurnOrderStrategies.custom sequence) k c current players
  = (map (fun j => at_index sequence ((c + Z.of_nat j) mod len)) (seq 0 k),
     ((c + Z.of_nat k) mod len)%Z) /\
  strategy_calls (TurnOrderStrategies.custom sequence) k c current players
  = strategy_calls (TurnOrderStrategies.custom sequence) k c current' players'
  /\
  (forall j, In j (seq 0 k) ->
     exists x, at_index sequence ((c + Z.of_nat j) mod len) = Some x /\
               In x sequence) /\
  option_map (fun reset => reset c)
    (strategy_reset (TurnOrderStrategies.custom sequence)) = Some 0%Z.
Proof.
  intros Hne Hc len. subst len.
  rewrite !custom_calls by assumption.
  repeat split.
  intros j _. apply at_index_listed. apply Z.mod_pos_bound. lia.
Qed.

(** X10. An answer of the strategy that is not a listed player -- an
    unknown id or [undefined] -- makes [getNextPlayer] throw
    "Invalid next player ID: " followed by the answer, after it has moved
    the cursor to -1 and let the strategy advance; from then on every
    [getNextPlayer] throws a TypeError and changes nothing. *)
Theorem invalid_next_player_blocks_turn_manager (sigma : Type)
  (tm : TurnManager sigma) (p : IPlayer) (answer : option string)
  (st' : sigma) :
  at_index (tm_players tm) (currentPlayerIndex tm) = Some p ->
  getNextPlayer (turnOrderStrategy tm) (strategyState tm) (id p)
    (map id (tm_players tm)) = (answer, st') ->
  (forall x, answer = Some x -> ~ In x (map id (tm_players tm))) ->
  let tm' := mkTurnManager (tm_players tm) (-1) (turnOrderStrategy tm) st' in
  let message :=
    ("Invalid next player ID: " ++
     match answer with Some x => x | None => "undefined" end)%string in
  TurnManager_getNextPlayer tm = (Throws message, tm') /\
  TurnManager_getNextPlayer tm' = (Throws "TypeError", tm') /\
  forall k, snd (TurnManager_calls k tm') = tm' /\
            fst (TurnManager_calls k tm') = repeat (Throws "TypeError") k.
Proof.
  intros Hp Hnext Habsent tm' message.
  assert (Hne : tm_players tm <> []).
  { intros E. rewrite E in Hp. unfold at_index in Hp.
    destruct (_ <? 0)%Z; [discriminate |].
    destruct (Z.to_nat _); discriminate. }
  assert (Efind : findIndex_id (tm_players tm) answer = (-1)%Z).
  { destruct answer as [x |];
      [apply findIndex_id_absent; auto | apply findIndex_id_undefined]. }
  assert (E1 : TurnManager_getNextPlayer tm = (Throws message, tm')).
  { unfold TurnManager_getNextPlayer. rewrite Hp, Hnext.
    cbn [currentPlayerIndex]. rewrite Efind. cbn [Z.eqb Pos.eqb].
    subst tm' message. destruct (tm_players tm); [easy |].
    destruct answer; reflexivity. }
  assert (E2 : TurnManager_getNextPlayer tm' = (Throws "TypeError", tm')).
  { unfold TurnManager_getNextPlayer. subst tm'.
    cbn [tm_players currentPlayerIndex].
    destruct (tm_players tm); [easy | reflexivity]. }
  split; [exact E1 |]. split; [exact E2 |].
  induction k as [| k [IH1 IH2]]; [split; reflexivity |].
  cbn [TurnManager_calls]. rewrite E2.
  destruct (TurnManager_calls k tm') as [rs tm'']. cbn [fst snd] in *.
  subst. split; reflexivity.
Qed.

(** ** The controller's protocol *)

Lemma nodup_length_le {A : Type} (dec : forall x y : A, {x = y} + {x <> y})
  (l : list A) : (List.length (nodup dec l) <= List.length l)%nat.
Proof.
  induction l as [| x l IH]; simpl; [lia |].
  destruct (in_dec dec x l); simpl; lia.
Qed.

Lemma nodup_length_NoDup {A : Type}
  (dec : forall x y : A, {x = y} + {x <> y}) (l : list A) :
  List.length (nodup dec l) = List.length l <-> NoDup l.
Proof.
  split.
  - induction l as [| x l IH]; simpl; [constructor |].
    pose proof (nodup_length_le dec l) as Hle.
    destruct (in_dec dec x l); simpl; intros H; [lia |].
    constructor; [assumption | apply IH; lia].
  - intros H. now rewrite nodup_fixed_point.
Qed.

Section ControllerMore.
Variables TState TAction : Type.
#[local] Abbreviation controller := (GameController TState TAction).

(** X11. [initialize] refuses a configuration with fewer than two players
    or with a repeated player id: it throws before anything is touched --
    no state, no configuration, no event. *)
Theorem initialize_rejects_bad_config (c : controller) (cfg : IGameConfig) :
  (List.length (config_players cfg) < 2)%nat \/
  ~ NoDup (map id (config_players cfg)) ->
  (exists message, initialize cfg c = (Throws message, c)) /\
  ((List.length (config_players cfg) < 2)%nat ->
   initialize cfg c = (Throws "At least 2 players are required", c)) /\
  ((2 <= List.length (config_players cfg))%nat ->
   initialize cfg c = (Throws "Player IDs must be unique", c)).
Proof.
  intros H. unfold initialize, bind, validateConfig.
  destruct (Nat.ltb_spec (List.length (config_players cfg)) 2) as [Hlt | Hge].
  - split; [eexists; reflexivity |]. split; [reflexivity | lia].
  - destruct H as [H | H]; [lia |].
    destruct (Nat.eqb_spec
                (List.length (nodup string_dec (map id (config_players cfg))))
                (List.length (config_players cfg))) as [E | _].
    + elim H. apply (nodup_length_NoDup string_dec).
      now rewrite length_map.
    + simpl. split; [eexists; reflexivity |]. split; [lia | reflexivity].
Qed.

Lemma validateConfig_ok (c : controller) (cfg : IGameConfig) :
  (2 <= List.length (config_players cfg))%nat ->
  NoDup (map id (config_players cfg)) ->
  validateConfig cfg c = (Returns tt, c).
Proof.
  intros Hlen Hnd. unfold validateConfig.
  destruct (Nat.ltb_spec (List.length (config_players cfg)) 2); [lia |].
  rewrite nodup_fixed_point, length_map, Nat.eqb_refl by assumption.
  reflexivity.
Qed.

Lemma initialize_valid_config (c : controller) (cfg : IGameConfig) :
  (2 <= List.length (config_players cfg))%nat ->
  NoDup (map id (config_players cfg)) ->
  initialize cfg c =
    (Returns tt,
     {| rules := rules c;
        stateManager :=
          setState (stateManager c) (createInitialState (rules c) cfg);
        turnManager :=
          mkTurnManager (config_players cfg) 0
            (turnOrderStrategy (turnManager c))
            (reset_strategy (turnManager c));
        eventBus :=
          eventBus c ++
          [gameStarted (createInitialState (rules c) cfg) cfg;
           turnStarted
             (currentPlayerId (turnInfo (createInitialState (rules c) cfg)))
             (turnNumber (turnInfo (createInitialState (rules c) cfg)))];
        config := Some cfg |}).
Proof.
  intros Hlen Hnd.
  unfold initialize, bind. rewrite validateConfig_ok by assumption.
  unfold set_config, the_rules, commit, with_stateManager,
    with_turnManager, TurnManager_initialize, emit.
  cbn [rules stateManager turnManager eventBus config].
  destruct (Nat.ltb_spec (List.length (config_players cfg)) 1); [lia |].
  cbn [rules stateManager turnManager eventBus config].
  rewrite <- app_assoc. reflexivity.
Qed.

(** X12. [initialize] with at least two players of distinct ids returns
    normally: the initial state of the rules is committed over whatever
    the state manager held, the turn manager takes the players with its
    cursor on the first one, the configuration is kept, and [gameStarted]
    then [turnStarted] are emitted; on a new controller the history and
    the redo stack are empty afterwards. *)
Theorem initialize_starts_game (c : controller) (cfg : IGameConfig) :
  (2 <= List.length (config_players cfg))%nat ->
  NoDup (map id (config_players cfg)) ->
  let initialState := createInitialState (rules c) cfg in
  initialize cfg c =
    (Returns tt,
     {| rules := rules c;
        stateManager := setState (stateManager c) initialState;
        turnManager :=
          mkTurnManager (config_players cfg) 0
            (turnOrderStrategy (turnManager c))
            (reset_strategy (turnManager c));
        eventBus :=
          eventBus c ++
          [gameStarted initialState cfg;
           turnStarted (currentPlayerId (turnInfo initialState))
                       (turnNumber (turnInfo initialState))];
        config := Some cfg |}) /\
  (currentState (stateManager c) = None -> history (stateManager c) = [] ->
   history (setState (stateManager c) initialState) = [] /\
   redoStack (setState (stateManager c) initialState) = [] /\
   currentState (setState (stateManager c) initialState)
     = Some initialState).
Proof.
  intros Hlen Hnd initialState. split.
  - now apply initialize_valid_config.
  - intros Hc Hh. unfold setState. rewrite Hc, Hh. cbn.
    destruct (0 >? maxHistorySize (stateManager c))%Z; auto.
Qed.

Lemma emit_all_appends (es : list (GameEvent TState TAction)) :
  forall c : controller,
  emit_all es c =
    (Returns tt,
     {| rules := rules c;
        stateManager := stateManager c;
        turnManager := turnManager c;
        eventBus := eventBus c ++ es;
        config := config c |}).
Proof.
  induction es as [| e es IH]; intros c.
  - simpl. unfold ret. rewrite app_nil_r. now destruct c.
  - cbn [emit_all]. unfold bind, emit at 1. rewrite IH.
    cbn [rules stateManager turnManager eventBus config].
    rewrite <- app_assoc. reflexivity.
Qed.

(** X13. A valid action the rules execute successfully, on a game that
    does not end: [executeAction] returns the rules' result, the new state
    is committed (the previous one goes on the history, the redo stack is
    emptied), the turn manager is not touched, and the events are
    [actionExecuted] followed by one [sideEffect] per declared effect, in
    order. *)
Theorem executeAction_commits_new_state (c : controller)
  (action : IGameAction TAction) (current state' : IGameState TState) :
  currentState (stateManager c) = Some current ->
  isValid (validateAction (rules c) action current) = true ->
  let result := rules_executeAction (rules c) action current in
  success result = true ->
  newState result = Some state' ->
  isEnded (checkEndCondition (rules c) state') = false ->
  executeAction action c =
    (Returns result,
     {| rules := rules c;
        stateManager := setState (stateManager c) state';
        turnManager := turnManager c;
        eventBus :=
          eventBus c ++
          actionExecuted action result state' ::
          map sideEffect
            (match sideEffects result with
             | Some effects => effects
             | None => []
             end);
        config := config c |}).
Proof.
  intros Hc Hv result Hs Hn He. subst result.
  unfold executeAction, bind, getState, getCurrentState, the_rules.
  rewrite Hc. cbn [option_map]. unfold deepClone. rewrite Hv.
  cbn [negb]. rewrite Hs, Hn.
  unfold commit, with_stateManager.
  cbn [rules stateManager turnManager eventBus config].
  unfold emit.
  cbn [rules stateManager turnManager eventBus config].
  rewrite emit_all_appends.
  cbn [rules stateManager turnManager eventBus config].
  rewrite He. unfold ret. rewrite <- app_assoc. cbn [app].
  destruct (sideEffects _); reflexivity.
Qed.

(** X14. When the rules report the end of the game on the new state,
    [executeAction] commits twice -- the new state, then the same state
    marked complete, in phase COMPLETED, with the winner -- and emits
    [gameEnded] last.  From then on [isGameOver()] is true, [getWinner()]
    is the reported winner and [endTurn()] does nothing. *)
Theorem executeAction_ends_game (c : controller)
  (action : IGameAction TAction) (current state' : IGameState TState)
  (now : Z) :
  currentState (stateManager c) = Some current ->
  isValid (validateAction (rules c) action current) = true ->
  let result := rules_executeAction (rules c) action current in
  success result = true ->
  newState result = Some state' ->
  let endCheck := checkEndCondition (rules c) state' in
  isEnded endCheck = true ->
  let endState := ended_state state' (end_winnerId endCheck) in
  let c' :=
    {| rules := rules c;
       stateManager := setState (setState (stateManager c) state') endState;
       turnManager := turnManager c;
       eventBus :=
         eventBus c ++
         actionExecuted action result state' ::
         map sideEffect
           (match sideEffects result with
            | Some effects => effects
            | None => []
            end) ++
         [gameEnded (end_winnerId endCheck) (end_reason endCheck) endState];
       config := config c |} in
  executeAction action c = (Returns result, c') /\
  currentState (stateManager c') = Some endState /\
  isGameOver c' = (Returns true, c') /\
  getWinner c' = (Returns (end_winnerId endCheck), c') /\
  endTurn now c' = (Returns tt, c').
Proof.
  intros Hc Hv result Hs Hn endCheck He endState c'.
  subst result endCheck.
  assert (Hcur : currentState (stateManager c') = Some endState)
    by reflexivity.
  split; [| split; [exact Hcur |]].
  - unfold executeAction, bind, getState, getCurrentState, the_rules.
    rewrite Hc. cbn [option_map]. unfold deepClone. rewrite Hv.
    cbn [negb]. rewrite Hs, Hn.
    unfold commit, with_stateManager.
    cbn [rules stateManager turnManager eventBus config].
    unfold emit.
    cbn [rules stateManager turnManager eventBus config].
    rewrite emit_all_appends.
    cbn [rules stateManager turnManager eventBus config].
    rewrite He.
    unfold handleGameEnd, bind, getState, getCurrentState, commit,
      with_stateManager, emit, ret.
    cbn [rules stateManager turnManager eventBus config currentState
         setState option_map].
    unfold deepClone. subst c' endState. unfold ended_state. f_equal. f_equal.
    rewrite <- !app_assoc. cbn [app].
    destruct (sideEffects _); reflexivity.
  - unfold isGameOver, getWinner, endTurn, bind, getState, getCurrentState.
    rewrite Hcur. cbn [option_map]. unfold deepClone, ret.
    repeat split.
Qed.

(** X15. When the rules accept the action but their [executeAction]
    reports failure, or delivers no new state, the controller hands the
    rules' result back as it is and changes nothing: no commit, no
    event. *)
Theorem executeAction_passes_rules_failure_on (c : controller)
  (action : IGameAction TAction) (current : IGameState TState) :
  currentState (stateManager c) = Some current ->
  isValid (validateAction (rules c) action current) = true ->
  let result := rules_executeAction (rules c) action current in
  success result = false \/ newState result = None ->
  executeAction action c = (Returns result, c).
Proof.
  intros Hc Hv result H. subst result.
  unfold executeAction, bind, getState, getCurrentState, the_rules.
  rewrite Hc. cbn [option_map]. unfold deepClone. rewrite Hv.
  cbn [negb]. unfold ret.
  destruct H as [H | H]; rewrite H; [reflexivity |].
  destruct (success _); reflexivity.
Qed.

(** X16. Before [initialize], and again after [reset], there is no state:
    [getState], [executeAction], [endTurn], [isGameOver], [getWinner] and
    [getAvailableActions] all throw "Game not initialized", [undo] and
    [redo] return [false], and none of them changes the controller. *)
Theorem uninitialized_controller_refuses (c : controller)
  (action : IGameAction TAction) (now : Z) :
  currentState (stateManager c) = None ->
  redoStack (stateManager c) = [] ->
  getState c = (Throws "Game not initialized", c) /\
  executeAction action c = (Throws "Game not initialized", c) /\
  endTurn now c = (Throws "Game not initialized", c) /\
  isGameOver c = (Throws "Game not initialized", c) /\
  getWinner c = (Throws "Game not initialized", c) /\
  getAvailableActions c = (Throws "Game not initialized", c) /\
  undo c = (Returns false, c) /\
  redo c = (Returns false, c).
Proof.
  intros Hc Hr.
  assert (Hg : getState c = (Throws "Game not initialized", c)).
  { unfold getState, getCurrentState. now rewrite Hc. }
  unfold executeAction, endTurn, isGameOver, getWinner, getAvailableActions,
    bind.
  rewrite Hg. repeat (split; [reflexivity |]).
  unfold undo, redo, bind, with_stateManager, StateManager_undo,
    StateManager_redo, canRedo.
  rewrite Hc, Hr. cbn. unfold ret. destruct c; auto.
Qed.

(** X17. [reset] empties the state manager (current state, history, redo
    stack, checkpoints), takes the players out of the turn manager, drops
    the configuration and emits [gameReset]; after it the controller is
    uninitialized, and a new [initialize] starts from an empty history. *)
Theorem reset_returns_to_uninitialized (c : controller) (cfg : IGameConfig) :
  let c' := snd (reset c) in
  fst (reset c) = Returns tt /\
  currentState (stateManager c') = None /\
  history (stateManager c') = [] /\
  redoStack (stateManager c') = [] /\
  checkpoints (stateManager c') = [] /\
  tm_players (turnManager c') = [] /\
  config c' = None /\
  eventBus c' = eventBus c ++ [gameReset] /\
  getState c' = (Throws "Game not initialized", c') /\
  ((2 <= List.length (config_players cfg))%nat ->
   NoDup (map id (config_players cfg)) ->
   let c'' := snd (initialize cfg c') in
   fst (initialize cfg c') = Returns tt /\
   currentState (stateManager c'')
     = Some (createInitialState (rules c) cfg) /\
   history (stateManager c'') = [] /\
   redoStack (stateManager c'') = []).
Proof.
  intros c'. subst c'.
  unfold reset, bind, with_stateManager, with_turnManager, set_config, emit.
  cbn [fst snd rules stateManager turnManager eventBus config
       StateManager_reset TurnManager_reset currentState history redoStack
       checkpoints tm_players].
  repeat (split; [reflexivity |]).
  intros Hlen Hnd.
  match goal with |- context [initialize cfg ?c0] =>
    rewrite (@initialize_valid_config c0 cfg Hlen Hnd)
  end.
  cbn [fst snd rules stateManager].
  unfold setState.
  cbn [currentState history redoStack maxHistorySize List.length].
  destruct (_ >? _)%Z; repeat split.
Qed.

Lemma endTurn_returns (c : controller) (now : Z)
  (current : IGameState TState) (next : string) (tm' : TurnManager unit) :
  currentState (stateManager c) = Some current ->
  isComplete current = false ->
  TurnManager_getNextPlayer (turnManager c) = (Returns next, tm') ->
  endTurn now c =
    (Returns tt,
     {| rules := rules c;
        stateManager :=
          setState (stateManager c)
            {| gameData := gameData current;
               turnInfo :=
                 {| turnNumber := turnNumber (turnInfo current) + 1;
                    currentPlayerId := next;
                    movesThisTurn := 0;
                    maxMovesPerTurn := maxMovesPerTurn (turnInfo current);
                    timeStarted := now |};
               players := players current;
               phase := phase current;
               isComplete := false;
               winnerId := winnerId current |};
        turnManager := tm';
        eventBus :=
          eventBus c ++
          [turnEnded (currentPlayerId (turnInfo current))
                     (turnNumber (turnInfo current));
           turnStarted next (turnNumber (turnInfo current) + 1)];
        config := config c |}).
Proof.
  intros Hc Hcomplete Hnext.
  unfold endTurn, bind, getState, getCurrentState, with_turnManager.
  rewrite Hc. cbn [option_map]. unfold deepClone.
  rewrite Hcomplete, Hnext.
  unfold commit, with_stateManager, emit.
  cbn [rules stateManager turnManager eventBus config].
  rewrite <- app_assoc. reflexivity.
Qed.

Lemma endTurns_sequential (players0 : list IPlayer) :
  NoDup (map id players0) ->
  forall (clock : list Z) (c : controller) (current : IGameState TState)
         (i : Z),
  currentState (stateManager c) = Some current ->
  isComplete current = false ->
  turnManager c = mkTurnManager players0 i TurnOrderStrategies.sequential tt ->
  (0 <= i < Z.of_nat (List.length players0))%Z ->
  let k := Z.of_nat (List.length clock) in
  let i' := ((i + k) mod Z.of_nat (List.length players0))%Z in
  exists c' state',
    endTurns clock c = (Returns tt, c') /\
    currentState (stateManager c') = Some state' /\
    turnManager c'
      = mkTurnManager players0 i' TurnOrderStrategies.sequential tt /\
    turnNumber (turnInfo state') = (turnNumber (turnInfo current) + k)%Z /\
    gameData state' = gameData current /\
    isComplete state' = false /\
    match clock with
    | [] => state' = current
    | _ :: _ =>
        exists p, at_index players0 i' = Some p /\
                  currentPlayerId (turnInfo state') = id p
    end /\
    List.length (eventBus c')
      = (List.length (eventBus c) + 2 * List.length clock)%nat.
Proof.
  intros Hnd clock.
  induction clock as [| now later IH]; intros c current i Hc Hdone Htm Hi k i'.
  - exists c, current. subst k i'. cbn [List.length Z.of_nat].
    rewrite Z.add_0_r, Z.mod_small by lia.
    repeat split; auto. simpl. lia.
  - destruct (@sequential_getNextPlayer_step players0 i Hnd Hi)
      as (p' & Hp' & Hstep).
    rewrite <- Htm in Hstep.
    pose proof (@endTurn_returns c now current _ _ Hc Hdone Hstep) as E.
    set (i1 := ((i + 1) mod Z.of_nat (List.length players0))%Z) in *.
    assert (Hi1 : (0 <= i1 < Z.of_nat (List.length players0))%Z)
      by (apply Z.mod_pos_bound; lia).
    match type of E with
    | context [setState _ ?s] => set (s1 := s) in *
    end.
    match type of E with _ = (_, ?c1) => set (c1' := c1) in * end.
    assert (Hc1 : currentState (stateManager c1') = Some s1) by reflexivity.
    destruct (IH c1' s1 i1 Hc1 eq_refl eq_refl Hi1)
      as (c' & state' & Hrun & Hc' & Htm' & Hturn & Hdata & Hdone' & Hpl & Hev).
    exists c', state'.
    assert (Ei : ((i1 + Z.of_nat (List.length later))
                    mod Z.of_nat (List.length players0))%Z = i').
    { subst i1 i' k. rewrite Zplus_mod_idemp_l.
      f_equal. cbn [List.length]. lia. }
    rewrite Ei in *.
    split.
    { cbn [endTurns]. unfold bind at 1. rewrite E. exact Hrun. }
    split; [exact Hc' |]. split; [exact Htm' |].
    split.
    { rewrite Hturn. subst s1 k. cbn [turnInfo turnNumber List.length]. lia. }
    split; [rewrite Hdata; reflexivity |].
    split; [exact Hdone' |].
    split.
    { destruct later as [| now' later'].
      - subst state'. exists p'. subst i' k. cbn [List.length Z.of_nat] in *.
        split; [| reflexivity].
        rewrite <- Ei. cbn [List.length Z.of_nat].
        rewrite Z.add_0_r, Z.mod_small by lia. exact Hp'.
      - exact Hpl. }
    rewrite Hev. subst c1'. cbn [eventBus List.length].
    rewrite length_app. cbn [List.length]. lia.
Qed.

(** X18. With the sequential strategy and distinct player ids, [k] calls
    of [endTurn] on a running game all return; they leave the cursor [k]
    places further round the player list, raise the turn number by [k],
    keep the game data, emit [2 k] events, and (for [k >= 1]) make the
    player under the cursor the state's current player -- whoever the
    state named before. *)
Theorem endTurn_rotates_through_players (c : controller)
  (clock : list Z) (current : IGameState TState) (i : Z) :
  NoDup (map id (tm_players (turnManager c))) ->
  currentState (stateManager c) = Some current ->
  isComplete current = false ->
  turnOrderStrategy (turnManager c) = TurnOrderStrategies.sequential ->
  currentPlayerIndex (turnManager c) = i ->
  (0 <= i < Z.of_nat (List.length (tm_players (turnManager c))))%Z ->
  clock <> [] ->
  let k := Z.of_nat (List.length clock) in
  let n := Z.of_nat (List.length (tm_players (turnManager c))) in
  exists c' state' p,
    endTurns clock c = (Returns tt, c') /\
    currentState (stateManager c') = Some state' /\
    tm_players (turnManager c') = tm_players (turnManager c) /\
    currentPlayerIndex (turnManager c') = ((i + k) mod n)%Z /\
    at_index (tm_players (turnManager c)) ((i + k) mod n) = Some p /\
    currentPlayerId (turnInfo state') = id p /\
    turnNumber (turnInfo state') = (turnNumber (turnInfo current) + k)%Z /\
    gameData state' = gameData current /\
    isComplete state' = false /\
    List.length (eventBus c')
      = (List.length (eventBus c) + 2 * List.length clock)%nat.
Proof.
  intros Hnd Hc Hdone Hseq Hidx Hi Hclock k n.
  assert (Htm : turnManager c =
    mkTurnManager (tm_players (turnManager c)) i
      TurnOrderStrategies.sequential tt).
  { destruct (turnManager c) as [ps idx strat []].
    cbn [tm_players currentPlayerIndex turnOrderStrategy] in *.
    now subst. }
  destruct (@endTurns_sequential _ Hnd clock c current i Hc Hdone Htm Hi)
    as (c' & state' & Hrun & Hc' & Htm' & Hturn & Hdata & Hdone' & Hpl & Hev).
  destruct clock as [| now later]; [contradiction |].
  destruct Hpl as (p & Hp & Hid).
  exists c', state', p. rewrite Htm'.
  cbn [tm_players currentPlayerIndex].
  repeat split; assumption.
Qed.

(** X19. A turn that is ended and then undone is only half undone: the
    state before [endTurn] is current again and [actionUndone] is
    emitted, but the turn manager keeps the cursor [endTurn] gave it. *)
Theorem undo_after_endTurn_keeps_cursor (c : controller) (now : Z)
  (current : IGameState TState) (next : string) (tm' : TurnManager unit) :
  currentState (stateManager c) = Some current ->
  isComplete current = false ->
  (1 <= maxHistorySize (stateManager c))%Z ->
  TurnManager_getNextPlayer (turnManager c) = (Returns next, tm') ->
  exists c1 c2,
    endTurn now c = (Returns tt, c1) /\
    undo c1 = (Returns true, c2) /\
    currentState (stateManager c2) = Some current /\
    turnManager c2 = tm' /\
    eventBus c2 = eventBus c1 ++ [actionUndone current].
Proof.
  intros Hc Hdone Hmax Hnext.
  rewrite (@endTurn_returns c now current next tm' Hc Hdone Hnext).
  eexists. eexists. split; [reflexivity |].
  unfold undo, bind, with_stateManager.
  cbn [rules stateManager turnManager eventBus config].
  rewrite (StateManager_undo_setState (stateManager c) _ Hc Hmax).
  unfold getState, getCurrentState, emit, ret.
  cbn [rules stateManager turnManager eventBus config currentState
       option_map].
  unfold deepClone. repeat split.
Qed.

Lemma Map_get_set {V : Type} (map : list (string * V)) (key : string)
  (value : V) :
  Map_get (Map_set key value map) key = Some value.
Proof.
  unfold Map_get. rewrite Map_set_find. reflexivity.
Qed.

Lemma Map_get_delete {V : Type} (map : list (string * V)) (key : string) :
  Map_get (filter (fun kv => negb (String.eqb (fst kv) key)) map) key = None.
Proof.
  unfold Map_get.
  induction map as [| [k v] rest IH]; [reflexivity |].
  cbn [filter fst]. destruct (String.eqb k key) eqn:E; cbn [negb].
  - exact IH.
  - cbn [find fst]. rewrite E. exact IH.
Qed.

(** X20. [executeAITurn] needs an AI registered for the state's current
    player: with none registered, and also right after [unregisterAI] for
    that player, it throws "No AI registered for player <id>" and leaves
    the controller as it was. *)
Theorem executeAITurn_without_ai_throws (c : controller)
  (aiPlayers : AIPlayers TState TAction) (current : IGameState TState) :
  currentState (stateManager c) = Some current ->
  let player := currentPlayerId (turnInfo current) in
  let message := ("No AI registered for player " ++ player)%string in
  (isAIPlayer aiPlayers player = false ->
   executeAITurn aiPlayers c = (Throws message, c)) /\
  isAIPlayer (unregisterAI aiPlayers player) player = false /\
  executeAITurn (unregisterAI aiPlayers player) c = (Throws message, c).
Proof.
  intros Hc player message.
  assert (Hnone : forall ais, isAIPlayer ais player = false ->
            executeAITurn ais c = (Throws message, c)).
  { intros ais H. unfold executeAITurn, bind, getState, getCurrentState.
    rewrite Hc. cbn [option_map]. unfold deepClone. fold player.
    unfold isAIPlayer in H.
    destruct (Map_get ais player); [discriminate | reflexivity]. }
  assert (Hgone : isAIPlayer (unregisterAI aiPlayers player) player = false).
  { unfold isAIPlayer, unregisterAI. now rewrite Map_get_delete. }
  split; [apply Hnone |]. split; [exact Hgone |]. apply Hnone, Hgone.
Qed.

(** X21. Once an AI is registered for the state's current player,
    [executeAITurn] asks it with the current state and the rules' valid
    actions, and never throws: when the AI answers [null] nothing
    changes; otherwise the controller is left as [executeAction] leaves
    it on the chosen action, and the action's result is dropped -- so an
    action the rules reject passes unnoticed, with no change and no
    event. *)
Theorem executeAITurn_runs_registered_ai (c : controller)
  (aiPlayers : AIPlayers TState TAction) (ai : IAIPlayer TState TAction)
  (current : IGameState TState) :
  currentState (stateManager c) = Some current ->
  let player := currentPlayerId (turnInfo current) in
  let registered := registerAI aiPlayers player ai in
  isAIPlayer registered player = true /\
  match ai current (getValidActions (rules c) current) with
  | None => executeAITurn registered c = (Returns tt, c)
  | Some action =>
      executeAITurn registered c
        = (Returns tt, snd (executeAction action c)) /\
      (isValid (validateAction (rules c) action current) = false ->
       executeAITurn registered c = (Returns tt, c))
  end.
Proof.
  intros Hc player registered.
  assert (Hget : Map_get registered player = Some ai)
    by apply Map_get_set.
  split; [unfold isAIPlayer; now rewrite Hget |].
  assert (Hrun : forall action, exists result c',
            executeAction action c = (Returns result, c') /\
            (isValid (validateAction (rules c) action current) = false ->
             c' = c)).
  { intros action.
    unfold executeAction, bind, getState, getCurrentState, the_rules.
    rewrite Hc. cbn [option_map]. unfold deepClone.
    destruct (isValid _); cbn [negb].
    - destruct (success _); cbn [andb].
      + destruct (newState _) as [state' |].
        * unfold commit, with_stateManager, emit.
          cbn [rules stateManager turnManager eventBus config].
          rewrite emit_all_appends.
          cbn [rules stateManager turnManager eventBus config].
          destruct (isEnded _).
          -- unfold handleGameEnd, bind, getState, getCurrentState, commit,
               with_stateManager, emit, ret.
             cbn [rules stateManager turnManager eventBus config currentState
                  setState option_map].
             eexists. eexists. split; [reflexivity | discriminate].
          -- unfold ret. eexists. eexists.
             split; [reflexivity | discriminate].
        * unfold ret. eexists. eexists. split; [reflexivity | reflexivity].
      + unfold ret. eexists. eexists. split; [reflexivity | reflexivity].
    - unfold ret. eexists. eexists. split; [reflexivity | reflexivity]. }
  assert (Hturn : executeAITurn registered c =
    match ai current (getValidActions (rules c) current) with
    | None => (Returns tt, c)
    | Some action =>
        match executeAction action c with
        | (Returns _, c') => (Returns tt, c')
        | (Throws e, c') => (Throws e, c')
        end
    end).
  { unfold executeAITurn, bind at 1, getState at 1, getCurrentState.
    rewrite Hc. cbn [option_map]. unfold deepClone. fold player.
    rewrite Hget.
    unfold getAvailableActions, bind, getState, getCurrentState, the_rules.
    rewrite Hc. cbn [option_map]. unfold deepClone, ret.
    destruct (ai current _) as [action |]; [| reflexivity].
    destruct (executeAction action c) as [[r | e] c']; reflexivity. }
  rewrite Hturn.
  destruct (ai current _) as [action |]; [| reflexivity].
  destruct (Hrun action) as (result & c' & E & Hinvalid).
  rewrite E. cbn [snd]. split; [reflexivity |].
  intros H. now rewrite (Hinvalid H).
Qed.
End ControllerMore.

(* ================================================================== *)
(** ** The players: noise and the choice of the best action *)

(** X22. Where noise changes nothing, and no sum is rounded: a value of
    [+Infinity], [-Infinity] or NaN comes back as it is whatever is
    drawn, and when the draw is exactly one half the noise is zero and
    every value comes back as it is, whatever [maxNoise] and the
    difficulty. *)
Theorem addNoise_keeps_value_without_noise (bits : nat -> Z) (ai : BaseAI)
  (value : num) (maxNoise : Q) (n : nat) :
  JS.isFinite value = false \/ Math_random bits n == 1 # 2 ->
  num_eq (addNoise bits ai value maxNoise n) value.
Proof.
  intros H. unfold addNoise.
  destruct value as [| | v |]; try exact I.
  destruct H as [H | H]; [discriminate |].
  cbn [JS.add num_eq]. rewrite H. ring.
Qed.

Section GreedyMore.
Variables TState TAction : Type.
Variable bits : nat -> Z.
Variable evaluateAction : IGameAction TAction -> IGameState TState -> num.
Variable ai : BaseAI.
Variable state : IGameState TState.

Lemma greedy_add_noise_nth (actions : list (IGameAction TAction)) :
  forall (n j : nat),
  nth_error
    (greedy_add_noise bits ai
       (map (fun action => (action, evaluateAction action state)) actions) n)
    j
  = option_map
      (fun b => (b, addNoise bits ai (evaluateAction b state) 20 (n + j)))
      (nth_error actions j).
Proof.
  induction actions as [| a actions IH]; intros n j.
  - destruct j; reflexivity.
  - destruct j as [| j]; cbn [map greedy_add_noise nth_error option_map].
    + rewrite Nat.add_0_r. reflexivity.
    + rewrite IH. rewrite Nat.add_succ_comm. reflexivity.
Qed.

(** X23. [GreedyAI.chooseAction] returns [null] exactly on an empty list
    of actions.  Otherwise, with an evaluator that never returns NaN, it
    returns the first of the available actions whose value after noise is
    greatest: no action has a greater noisy value and every earlier one
    has a smaller one.  Action number [j] gets the [j]-th draw after the
    one [simulateThinking] may take. *)
Theorem Greedy_chooseAction_takes_first_best
  (availableActions : list (IGameAction TAction)) (n : nat) :
  (forall a, In a availableActions -> real (evaluateAction a state)) ->
  let chosen :=
    Greedy_chooseAction bits evaluateAction ai state availableActions n in
  let noisy (j : nat) (a : IGameAction TAction) : num :=
    addNoise bits ai (evaluateAction a state) 20
      (simulateThinking ai n + j) in
  (chosen = None <-> availableActions = []) /\
  (availableActions <> [] ->
   exists i a,
     nth_error availableActions i = Some a /\
     chosen = Some a /\
     (forall j b, nth_error availableActions j = Some b ->
        num_le (noisy j b) (noisy i a)) /\
     (forall j b, (j < i)%nat -> nth_error availableActions j = Some b ->
        num_lt (noisy j b) (noisy i a))).
Proof.
  intros Hreal chosen noisy.
  set (evaluated :=
    greedy_add_noise bits ai
      (map (fun action => (action, evaluateAction action state))
         availableActions)
      (simulateThinking ai n)).
  assert (Hnth : forall j,
    nth_error evaluated j
    = option_map (fun b => (b, noisy j b)) (nth_error availableActions j))
    by (intros j; apply greedy_add_noise_nth).
  assert (Hchosen : availableActions <> [] -> chosen = best_action evaluated).
  { subst chosen evaluated. unfold Greedy_chooseAction.
    destruct availableActions; [contradiction | reflexivity]. }
  assert (Hex : availableActions <> [] ->
    exists i a,
     nth_error availableActions i = Some a /\
     chosen = Some a /\
     (forall j b, nth_error availableActions j = Some b ->
        num_le (noisy j b) (noisy i a)) /\
     (forall j b, (j < i)%nat -> nth_error availableActions j = Some b ->
        num_lt (noisy j b) (noisy i a))).
  { intros Hne. rewrite (Hchosen Hne).
    assert (Hne' : evaluated <> []).
    { intros E. specialize (Hnth 0%nat). rewrite E in Hnth.
      destruct availableActions; [contradiction | discriminate]. }
    assert (Hr : Forall (fun x => real (snd x)) evaluated).
    { apply Forall_forall. intros x Hx.
      apply In_nth_error in Hx as [j Hj]. rewrite Hnth in Hj.
      destruct (nth_error availableActions j) as [b |] eqn:Eb;
        [| discriminate].
      inversion Hj; subst. cbn [snd]. apply add_real.
      apply Hreal. eapply nth_error_In. exact Eb. }
    destruct (sorted_head_is_first_maximum Hne' Hr)
      as (pre & best & post & E & Hhd & Hpre & Hpost).
    assert (Hi : nth_error evaluated (List.length pre) = Some best).
    { rewrite E, nth_error_app2, Nat.sub_diag by lia. reflexivity. }
    rewrite Hnth in Hi.
    destruct (nth_error availableActions (List.length pre)) as [a |] eqn:Ea;
      [| discriminate].
    inversion Hi as [Ebest]. clear Hi.
    exists (List.length pre), a. split; [exact Ea |].
    split; [unfold best_action; rewrite Hhd, <- Ebest; reflexivity |].
    rewrite <- Ebest in Hpre, Hpost. cbn [snd] in Hpre, Hpost.
    rewrite Forall_forall in Hpre, Hpost.
    assert (Hj : forall j b, nth_error availableActions j = Some b ->
              nth_error evaluated j = Some (b, noisy j b))
      by (intros j b Hb; rewrite Hnth, Hb; reflexivity).
    split.
    - intros j b Hb0. pose proof (Hj _ _ Hb0) as Hb. rewrite E in Hb.
      destruct (Nat.lt_ge_cases j (List.length pre)) as [Hlt | Hge].
      + rewrite nth_error_app1 in Hb by exact Hlt.
        apply nth_error_In, Hpre in Hb. left. exact Hb.
      + rewrite nth_error_app2 in Hb by exact Hge.
        destruct (j - List.length pre)%nat as [| d] eqn:Ed.
        * assert (Ej : j = List.length pre) by lia.
          rewrite Ej in Hb0 |- *.
          assert (Eb : b = a) by congruence.
          rewrite Eb. right. apply NumOrd.eq_equiv.
        * cbn [nth_error] in Hb. apply nth_error_In, Hpost in Hb.
          exact Hb.
    - intros j b Hlt Hb. apply Hj in Hb. rewrite E in Hb.
      rewrite nth_error_app1 in Hb by exact Hlt.
      apply nth_error_In, Hpre in Hb. exact Hb. }
  split; [| exact Hex].
  split.
  - intros Hnone. destruct availableActions as [| a0 rest] eqn:Eav;
      [reflexivity |].
    destruct (Hex ltac:(discriminate)) as (i & a & _ & Hsome & _).
    congruence.
  - intros ->. reflexivity.
Qed.
End GreedyMore.

(* ================================================================== *)
(** ** Minimax: windows and depths *)

Section MinimaxMore.
Variables TState TAction : Type.
Variable simulateAction :
  IGameAction TAction -> IGameState TState -> IGameState TState.
Variable getActionsForState :
  IGameState TState -> option string -> list (IGameAction TAction).
Variable isTerminalState : IGameState TState -> bool.
Variable evaluateState : IGameState TState -> num.
Variable ai : MinimaxAI.

#[local] Abbreviation search :=
  (minimax simulateAction getActionsForState isTerminalState evaluateState ai).
#[local] Abbreviation exact_value :=
  (minimax_unpruned simulateAction getActionsForState isTerminalState
     evaluateState ai).

(** X24. Alpha-beta is fail-soft.  With an evaluator that never returns
    NaN and a depth [d >= 0], [minimax] on a window [alpha < beta]
    returns within [d + 1] nested calls; its result is the exact minimax
    value of the position when it lies strictly inside the window, an
    upper bound on that value when it is at most [alpha], and a lower
    bound when it is at least [beta].  On the full window it is the exact
    value. *)
Theorem minimax_result_bounds_exact_value (fuel : nat)
  (s : IGameState TState) (d : Z) (alpha beta : num) (m : bool) :
  (forall s', real (evaluateState s')) ->
  real alpha -> real beta -> num_lt alpha beta ->
  (0 <= d)%Z -> (Z.to_nat d < fuel)%nat ->
  exists v r r0,
    exact_value fuel s d m = Some v /\
    search fuel s d alpha beta m = Some r /\
    (num_le r alpha -> num_le v r) /\
    (num_le beta r -> num_le r v) /\
    (num_lt alpha r -> num_lt r beta -> num_eq r v) /\
    search fuel s d NInf PInf m = Some r0 /\
    num_eq r0 v.
Proof.
  intros Hreal Ha Hb Hab Hd Hfuel.
  destruct (@unpruned_total _ _ simulateAction getActionsForState
              isTerminalState evaluateState ai fuel s d m Hd Hfuel)
    as [v Hv].
  pose proof (@unpruned_real _ _ simulateAction getActionsForState
                isTerminalState evaluateState ai Hreal fuel s d m v Hv)
    as Hvr.
  destruct (@pruned_within_window _ _ simulateAction getActionsForState
              isTerminalState evaluateState ai Hreal fuel s d alpha beta m v
              Ha Hb Hab Hv) as (r & Hr & _ & H1 & H2 & H3).
  destruct (@pruned_within_window _ _ simulateAction getActionsForState
              isTerminalState evaluateState ai Hreal fuel s d NInf PInf m v
              ltac:(easy) ltac:(easy) I Hv) as (r0 & Hr0 & Hr0r & G1 & G2 & G3).
  exists v, r, r0. repeat (split; [assumption |]).
  pose proof (NInf_le Hvr) as Hlow. pose proof (le_PInf Hvr) as Hhigh.
  pose proof (not_lt_NInf Hr0r) as Hlow0.
  pose proof (not_PInf_lt Hr0r) as Hhigh0.
  destruct (NumOrd.lt_total NInf r0) as [L | [L | L]];
    [| | contradiction].
  - destruct (NumOrd.lt_total r0 PInf) as [U | [U | U]];
      [| | contradiction].
    + exact (G3 L U).
    + assert (G : num_le r0 v) by (apply G2; right; symmetry; exact U).
      num_order.
  - assert (G : num_le v r0) by (apply G1; right; symmetry; exact L).
    num_order.
Qed.

Lemma max_loop_ext
  (rec1 rec2 : IGameState TState -> num -> num -> option num)
  (state : IGameState TState) :
  (forall s a b, rec1 s a b = rec2 s a b) ->
  forall actions maxEval alpha beta,
  max_loop simulateAction rec1 state actions maxEval alpha beta
  = max_loop simulateAction rec2 state actions maxEval alpha beta.
Proof.
  intros Hrec actions.
  induction actions as [| x rest IH]; intros maxEval alpha beta;
    [reflexivity |].
  cbn [max_loop]. rewrite Hrec.
  destruct (rec2 _ alpha beta); [| reflexivity].
  destruct (JS.leb _ _); [reflexivity | apply IH].
Qed.

Lemma min_loop_ext
  (rec1 rec2 : IGameState TState -> num -> num -> option num)
  (state : IGameState TState) :
  (forall s a b, rec1 s a b = rec2 s a b) ->
  forall actions minEval alpha beta,
  min_loop simulateAction rec1 state actions minEval alpha beta
  = min_loop simulateAction rec2 state actions minEval alpha beta.
Proof.
  intros Hrec actions.
  induction actions as [| x rest IH]; intros minEval alpha beta;
    [reflexivity |].
  cbn [min_loop]. rewrite Hrec.
  destruct (rec2 _ alpha beta); [| reflexivity].
  destruct (JS.leb _ _); [reflexivity | apply IH].
Qed.

Lemma minimax_below_zero (fuel : nat) :
  forall (s : IGameState TState) (d1 d2 : Z) (alpha beta : num) (m : bool),
  (d1 < 0)%Z -> (d2 < 0)%Z ->
  search fuel s d1 alpha beta m = search fuel s d2 alpha beta m.
Proof.
  induction fuel as [| fuel IH]; intros s d1 d2 alpha beta m H1 H2;
    [reflexivity |].
  cbn [minimax].
  destruct (Z.eqb_spec d1 0); [lia |].
  destruct (Z.eqb_spec d2 0); [lia |].
  cbn [orb]. destruct (isTerminalState s); [reflexivity |].
  destruct m.
  - apply max_loop_ext. intros. apply IH; lia.
  - apply min_loop_ext. intros. apply IH; lia.
Qed.

Lemma minimax_endless (fuel : nat) :
  (forall s, isTerminalState s = false) ->
  (forall s p, getActionsForState s p <> []) ->
  forall (s : IGameState TState) (d : Z) (alpha beta : num) (m : bool),
  (d < 0)%Z ->
  search fuel s d alpha beta m = None.
Proof.
  intros Hterm Hact.
  induction fuel as [| fuel IH]; intros s d alpha beta m Hd;
    [reflexivity |].
  cbn [minimax].
  destruct (Z.eqb_spec d 0); [lia |].
  rewrite Hterm. cbn [orb].
  destruct m.
  - destruct (getActionsForState s _) as [| x rest] eqn:E;
      [now apply Hact in E |].
    cbn [max_loop]. rewrite IH by lia. reflexivity.
  - destruct (getActionsForState s _) as [| x rest] eqn:E;
      [now apply Hact in E |].
    cbn [min_loop]. rewrite IH by lia. reflexivity.
Qed.
End MinimaxMore.

(** X25. A negative [maxDepth] in the configuration is truthy and is
    taken as it is.  The depth counter then starts below zero and never
    meets the test [depth === 0]: the search stops at terminal states
    only, whatever negative depth it has, and on a game without terminal
    states whose players always have an action no number of nested calls
    is enough for it to return. *)
Theorem negative_maxDepth_searches_to_terminal_states
  (TState TAction : Type)
  (simulateAction :
     IGameAction TAction -> IGameState TState -> IGameState TState)
  (getActionsForState :
     IGameState TState -> option string -> list (IGameAction TAction))
  (isTerminalState : IGameState TState -> bool)
  (evaluateState : IGameState TState -> num)
  (config : IAIConfig) (depth : Z) :
  cfg_maxDepth config = Some depth ->
  (depth < 0)%Z ->
  let ai := MinimaxAI_new config in
  maxDepth ai = depth /\
  (forall fuel s d alpha beta m,
     (d < 0)%Z ->
     minimax simulateAction getActionsForState isTerminalState evaluateState
       ai fuel s d alpha beta m
     = minimax simulateAction getActionsForState isTerminalState
         evaluateState ai fuel s (maxDepth ai - 1) alpha beta m) /\
  ((forall s, isTerminalState s = false) ->
   (forall s p, getActionsForState s p <> []) ->
   forall fuel s alpha beta m,
     minimax simulateAction getActionsForState isTerminalState evaluateState
       ai fuel s (maxDepth ai - 1) alpha beta m = None).
Proof.
  intros Hcfg Hneg ai.
  assert (Hd : maxDepth ai = depth).
  { subst ai. unfold MinimaxAI_new, number_or. cbn [maxDepth].
    rewrite Hcfg. destruct (Z.eqb_spec depth 0); [lia | reflexivity]. }
  split; [exact Hd |]. rewrite Hd. split.
  - intros. apply minimax_below_zero; lia.
  - intros Hterm Hact fuel s alpha beta m.
    apply minimax_endless; [assumption | assumption | lia].
Qed.

Section MinimaxChoice.
Variables TState TAction : Type.
Variable bits : nat -> Z.
Variable simulateAction :
  IGameAction TAction -> IGameState TState -> IGameState TState.
Variable getActionsForState :
  IGameState TState -> option string -> list (IGameAction TAction).
Variable isTerminalState : IGameState TState -> bool.
Variable evaluateState : IGameState TState -> num.
Variable ai : MinimaxAI.

#[local] Abbreviation evaluate :=
  (minimax_evaluate bits simulateAction getActionsForState isTerminalState
     evaluateState ai).

Lemma minimax_evaluate_returns (fuel : nat) (state : IGameState TState) :
  (forall s, real (evaluateState s)) ->
  (1 <= maxDepth ai)%Z -> (Z.to_nat (maxDepth ai) <= fuel)%nat ->
  forall actions n,
  exists evaluated,
    evaluate fuel state actions n = Some evaluated /\
    map fst evaluated = actions /\
    Forall (fun x => real (snd x)) evaluated.
Proof.
  intros Hreal Hd Hfuel actions.
  induction actions as [| x rest IH]; intros n.
  - exists []. repeat split; constructor.
  - cbn [minimax_evaluate].
    destruct (@unpruned_total _ _ simulateAction getActionsForState
                isTerminalState evaluateState ai fuel
                (simulateAction x state) (maxDepth ai - 1) false
                ltac:(lia) ltac:(lia)) as [v Hv].
    destruct (@pruned_within_window _ _ simulateAction getActionsForState
                isTerminalState evaluateState ai Hreal fuel
                (simulateAction x state) (maxDepth ai - 1) NInf PInf false v
                ltac:(easy) ltac:(easy) I Hv) as (r & -> & Hr & _).
    destruct (IH (S n)) as (l & -> & Hmap & Hl).
    eexists. split; [reflexivity |].
    split; [cbn [map fst]; now rewrite Hmap |].
    constructor; [| exact Hl]. cbn [snd]. unfold addNoise.
    now apply add_real.
Qed.

(** X26. [MinimaxAI.chooseAction] returns [null] on an empty list of
    actions.  Otherwise, with an evaluator that never returns NaN and a
    depth of at least 1, the search of every root action returns and
    [chooseAction] gives the first of the available actions whose
    minimax value after noise is greatest: the values of the actions
    before it are smaller, those of the actions after it are not
    greater. *)
Theorem Minimax_chooseAction_takes_first_best (fuel : nat)
  (state : IGameState TState)
  (availableActions : list (IGameAction TAction)) (n : nat) :
  (forall s, real (evaluateState s)) ->
  (1 <= maxDepth ai)%Z -> (Z.to_nat (maxDepth ai) <= fuel)%nat ->
  let chosen :=
    Minimax_chooseAction bits simulateAction getActionsForState
      isTerminalState evaluateState ai fuel state availableActions n in
  (availableActions = [] -> chosen = Some None) /\
  (availableActions <> [] ->
   exists evaluated before action value behind,
     evaluate fuel state availableActions
       (simulateThinking (minimax_base ai) n) = Some evaluated /\
     map fst evaluated = availableActions /\
     evaluated = before ++ (action, value) :: behind /\
     chosen = Some (Some action) /\
     Forall (fun x => num_lt (snd x) value) before /\
     Forall (fun x => num_le (snd x) value) behind).
Proof.
  intros Hreal Hd Hfuel chosen. subst chosen. unfold Minimax_chooseAction.
  split; [intros ->; reflexivity |].
  intros Hne.
  destruct (@minimax_evaluate_returns fuel state Hreal Hd Hfuel
              availableActions (simulateThinking (minimax_base ai) n))
    as (evaluated & E & Hmap & Hr).
  assert (Hne' : evaluated <> []).
  { intros ->. cbn in Hmap. congruence. }
  destruct (sorted_head_is_first_maximum Hne' Hr)
    as (pre & [a v] & post & Ee & Hhd & Hpre & Hpost).
  exists evaluated, pre, a, v, post. rewrite E.
  destruct availableActions as [| a0 rest]; [contradiction |].
  unfold best_action. rewrite Hhd. cbn [option_map fst snd] in *.
  repeat split; assumption.
Qed.
End MinimaxChoice.

(* ================================================================== *)
(** ** Monte Carlo Tree Search: the tree and the answer *)

Section MCTSMore.
Variables TState TAction : Type.
#[local] Abbreviation node := (MCTSNode TState TAction).
Variable bits : nat -> Z.
Variables Math_sqrt Math_log : num -> num.
Variable simulatePlayout : IGameState TState -> nat -> num * nat.
Variable getActionsForState :
  IGameState TState -> option string -> list (IGameAction TAction).
Variable simulateAction :
  IGameAction TAction -> IGameState TState -> IGameState TState.
Variable isTerminalState : IGameState TState -> bool.
Variable ai : MCTSAI.

#[local] Abbreviation simulate :=
  (simulate_from bits simulatePlayout getActionsForState simulateAction
     isTerminalState).
#[local] Abbreviation step :=
  (iterate bits Math_sqrt Math_log simulatePlayout getActionsForState
     simulateAction isTerminalState ai).
#[local] Abbreviation run :=
  (run_iterations bits Math_sqrt Math_log simulatePlayout getActionsForState
     simulateAction isTerminalState ai).
#[local] Abbreviation expansion :=
  (expand_children getActionsForState simulateAction).
#[local] Abbreviation actions_of :=
  (fun s : IGameState TState =>
     getActionsForState s (Some (currentPlayerId (turnInfo s)))).
#[local] Abbreviation expanded :=
  (fun nd : node =>
     children nd = [] \/
     map node_action (children nd) = map Some (actions_of (node_state nd))).

Lemma update_nth_map {B C : Type} (f : node -> option (node * B))
  (g : node -> C) :
  (forall x x' b, f x = Some (x', b) -> g x' = g x) ->
  forall l k l' b, update_nth f l k = Some (l', b) -> map g l' = map g l.
Proof.
  intros Hf l.
  induction l as [| x l IH]; intros k l' b H; [discriminate |].
  destruct k as [| k]; cbn [update_nth] in H.
  - destruct (f x) as [[x' b'] |] eqn:E; [| discriminate].
    inversion H; subst. cbn [map]. now rewrite (Hf _ _ _ E).
  - destruct (update_nth f l k) as [[rest' b'] |] eqn:E; [| discriminate].
    inversion H; subst. cbn [map]. now rewrite (IH _ _ _ E).
Qed.

Lemma simulate_children (nd nd' : node) (n : nat) r :
  simulate nd n = Some (nd', r) ->
  node_action nd' = node_action nd /\
  node_state nd' = node_state nd /\
  (isTerminalState (node_state nd) = true -> children nd' = children nd) /\
  (isTerminalState (node_state nd) = false -> children nd = [] ->
   map node_action (children nd')
   = map Some (actions_of (node_state nd))).
Proof.
  unfold simulate_from.
  destruct (isTerminalState (node_state nd)) eqn:Et; cbn [negb].
  - destruct (simulatePlayout (node_state nd) n) as [value n'].
    intros H. inversion H; subst. destruct nd; cbn. repeat split; easy.
  - destruct (expansion nd) as [| c0 cs] eqn:Ee.
    + destruct (simulatePlayout (node_state nd) n) as [value n'].
      intros H. inversion H; subst.
      split; [destruct nd; reflexivity |].
      split; [destruct nd; reflexivity |].
      split; [discriminate |]. intros _ Hleaf.
      unfold expand_children in Ee. rewrite Hleaf in Ee. cbn [app] in Ee.
      apply map_eq_nil in Ee. rewrite Ee. destruct nd; reflexivity.
    + destruct (_ <? 0)%Z; [discriminate |].
      destruct (update_nth _ _ _) as [[ch' [value n']] |] eqn:Eu;
        [| discriminate].
      intros H. inversion H; subst.
      split; [destruct nd; reflexivity |].
      split; [destruct nd; reflexivity |].
      split; [discriminate |]. intros _ Hleaf.
      apply update_nth_map with (g := @node_action TState TAction) in Eu.
      * assert (Ech : children (visit nd ch' value) = ch')
          by (destruct nd; reflexivity).
        rewrite Ech, Eu, <- Ee. unfold expand_children.
        rewrite Hleaf. cbn [app]. rewrite map_map. reflexivity.
      * intros x x' b Hx.
        destruct (simulatePlayout (node_state x) (S n)) as [v0 n0].
        inversion Hx; subst. destruct x; reflexivity.
Qed.

Lemma step_cases (nd nd' : node) (n : nat) r :
  step nd n = Some (nd', r) ->
  (children nd <> [] /\ isTerminalState (node_state nd) = false /\
   exists i ch',
     update_nth (fun child => step child n) (children nd) i
       = Some (ch', r) /\
     nd' = visit nd ch' (fst r)) \/
  ((children nd = [] \/ isTerminalState (node_state nd) = true) /\
   simulate nd n = Some (nd', r)).
Proof.
  rewrite iterate_eq.
  destruct (negb (isLeaf nd) && negb (isTerminalState (node_state nd)))
    eqn:Hcond.
  - apply andb_true_iff in Hcond as [Hleaf Hterm].
    apply negb_true_iff in Hterm.
    assert (Hch : children nd <> []).
    { unfold isLeaf in Hleaf. destruct (children nd); easy. }
    destruct (@getBestChild_is_child _ _ Math_sqrt Math_log nd
                (explorationConstant ai) Hch) as (i & best & -> & _).
    destruct (update_nth _ _ _) as [[ch' [value n']] |] eqn:Eu;
      [| discriminate].
    intros H. inversion H; subst. left.
    split; [exact Hch |]. split; [exact Hterm |].
    exists i, ch'. split; [exact Eu | reflexivity].
  - intros H. right. split; [| exact H].
    apply andb_false_iff in Hcond as [Hc | Hc];
      apply negb_false_iff in Hc.
    + left. unfold isLeaf in Hc. destruct (children nd); easy.
    + right. exact Hc.
Qed.

Lemma step_keeps_action (nd nd' : node) (n : nat) r :
  step nd n = Some (nd', r) ->
  node_action nd' = node_action nd /\ node_state nd' = node_state nd.
Proof.
  intros H. apply step_cases in H as [(_ & _ & i & ch' & _ & ->) | [_ H]].
  - destruct nd; split; reflexivity.
  - apply simulate_children in H. tauto.
Qed.

Lemma step_keeps_expanded (nd nd' : node) (n : nat) r :
  step nd n = Some (nd', r) ->
  expanded nd ->
  expanded nd' /\
  (children nd = [] ->
   isTerminalState (node_state nd) = true \/ actions_of (node_state nd) = [] ->
   children nd' = []).
Proof.
  intros H Hinv.
  pose proof (step_keeps_action _ _ H) as [_ Hstate].
  apply step_cases in H
    as [(Hch & Hterm & i & ch' & Eu & ->) | [Hstop H]].
  - split; [| contradiction].
    right. destruct Hinv as [Hinv | Hinv]; [contradiction |].
    apply update_nth_map with (g := @node_action TState TAction) in Eu.
    + assert (Ech : children (visit nd ch' (fst r)) = ch')
        by (destruct nd; reflexivity).
      rewrite Ech, Eu, Hinv. destruct nd; reflexivity.
    + intros x x' b Hx. now apply step_keeps_action in Hx.
  - apply simulate_children in H as (_ & _ & Hsame & Hnew).
    rewrite Hstate.
    destruct (isTerminalState (node_state nd)) eqn:Et.
    + rewrite (Hsame eq_refl). split; [exact Hinv | auto].
    + destruct Hstop as [Hleaf | Hstop]; [| discriminate].
      specialize (Hnew eq_refl Hleaf). split; [right; exact Hnew |].
      intros _ [Habs | Hnone]; [discriminate |].
      rewrite Hnone in Hnew. apply map_eq_nil in Hnew. exact Hnew.
Qed.

Lemma run_keeps_expanded (count : nat) :
  forall (root : node) (n : nat),
  expanded root ->
  exists root' n',
    run count root n = Some (root', n') /\
    node_state root' = node_state root /\
    node_action root' = node_action root /\
    visits root' = (visits root + Z.of_nat count)%Z /\
    expanded root' /\
    (children root = [] ->
     isTerminalState (node_state root) = true \/
     actions_of (node_state root) = [] ->
     children root' = []).
Proof.
  induction count as [| count IH]; intros root n Hinv.
  - exists root, n. cbn [run_iterations Z.of_nat].
    repeat split; auto. lia.
  - destruct (@iterate_visits _ _ bits Math_sqrt Math_log simulatePlayout
                getActionsForState simulateAction isTerminalState ai root n)
      as (nd' & [v n1] & E & Hs & Hv & _).
    destruct (step_keeps_action _ _ E) as [Ha _].
    destruct (step_keeps_expanded _ E Hinv) as [Hinv' Hstuck].
    destruct (IH nd' n1 Hinv')
      as (root' & n' & Hrun & Hs' & Ha' & Hv' & Hinv'' & Hstuck').
    exists root', n'. cbn [run_iterations]. rewrite E.
    split; [exact Hrun |]. split; [congruence |]. split; [congruence |].
    split; [lia |]. split; [rewrite Hs' in *; exact Hinv'' |].
    intros Hleaf Hno. apply Hstuck'; [now apply Hstuck |].
    rewrite Hs. exact Hno.
Qed.

Lemma most_visited_greatest (rest : list node) :
  forall bestChild : node,
  let winner := most_visited rest bestChild in
  (winner = bestChild \/ In winner rest) /\
  (visits bestChild <= visits winner)%Z /\
  (forall child, In child rest -> (visits child <= visits winner)%Z).
Proof.
  induction rest as [| c rest IH]; intros bestChild; cbn [most_visited].
  - cbn. split; [left; reflexivity |]. split; [lia |]. intros ? [].
  - destruct (Z.gtb_spec (visits c) (visits bestChild)) as [Hgt | Hle].
    + destruct (IH c) as (Hin & Hc & Hall). cbn zeta in *.
      split; [right; destruct Hin; [left; congruence | right; assumption] |].
      split; [lia |].
      intros child [-> | Hchild]; [exact Hc | now apply Hall].
    + destruct (IH bestChild) as (Hin & Hc & Hall). cbn zeta in *.
      split; [destruct Hin; [left | right; right]; assumption |].
      split; [exact Hc |].
      intros child [<- | Hchild]; [lia | now apply Hall].
Qed.

Lemma update_nth_inv {B : Type} (f : node -> option (node * B))
  (l : list node) :
  forall k l' b, update_nth f l k = Some (l', b) ->
  exists before x x' behind,
    l = before ++ x :: behind /\
    l' = before ++ x' :: behind /\
    f x = Some (x', b).
Proof.
  induction l as [| y l IH]; intros k l' b H; [discriminate |].
  destruct k as [| k]; cbn [update_nth] in H.
  - destruct (f y) as [[y' b'] |] eqn:E; [| discriminate].
    inversion H; subst. exists [], y, y', l. auto.
  - destruct (update_nth f l k) as [[rest' b'] |] eqn:E; [| discriminate].
    inversion H; subst.
    destruct (IH _ _ _ E) as (before & x & x' & behind & -> & -> & Hx).
    exists (y :: before), x, x', behind. auto.
Qed.

Lemma visit_well_counted (nd : node) (ch : list node) (value : num) :
  (0 <= visits nd)%Z ->
  JS.isFinite (totalValue nd) = true ->
  JS.isFinite value = true ->
  Forall (fun child => (visits child <= visits nd + 1)%Z) ch ->
  Forall well_counted ch ->
  well_counted (visit nd ch value).
Proof.
  intros Hv Ht Hval Hle Hch. unfold visit.
  constructor; [lia | | exact Hle | exact Hch].
  destruct (totalValue nd), value; try discriminate; reflexivity.
Qed.

Lemma replaced_child_well_counted (before behind : list node)
  (x x' : node) (vis : Z) :
  Forall (fun child => (visits child <= vis)%Z) (before ++ x :: behind) ->
  Forall well_counted (before ++ x :: behind) ->
  visits x' = (visits x + 1)%Z ->
  well_counted x' ->
  Forall (fun child => (visits child <= vis + 1)%Z)
         (before ++ x' :: behind) /\
  Forall well_counted (before ++ x' :: behind).
Proof.
  intros Hle Hch Hv Hx'.
  apply Forall_app in Hle as [Hle1 Hle2].
  apply Forall_app in Hch as [Hch1 Hch2].
  inversion Hle2 as [| ? ? Hx Hle3]; subst.
  inversion Hch2 as [| ? ? _ Hch3]; subst.
  split; apply Forall_app; split; try assumption.
  - eapply Forall_impl; [| exact Hle1]. cbn beta. intros; lia.
  - constructor; [lia |].
    eapply Forall_impl; [| exact Hle3]. cbn beta. intros; lia.
  - constructor; assumption.
Qed.

(** With playouts that return finite numbers, an iteration keeps the
    bookkeeping of the tree and hands a finite value upwards. *)
Lemma iterate_keeps_well_counted :
  (forall s n, JS.isFinite (fst (simulatePlayout s n)) = true) ->
  forall (nd : node) (n : nat) (nd' : node) (value : num) (n' : nat),
  well_counted nd ->
  step nd n = Some (nd', (value, n')) ->
  well_counted nd' /\ JS.isFinite value = true.
Proof.
  intros Hplay.
  induction nd as [st act ch vis tot IH] using node_induction.
  intros n nd' value n' Hwell Hstep.
  inversion Hwell as [? ? ? ? ? Hvis Htot Hle Hch]; subst.
  set (nd := Node st act ch vis tot) in *.
  apply step_cases in Hstep
    as [(_ & _ & i & ch' & Eu & ->) | [_ Hsim]].
  - cbn [children nd] in Eu.
    apply update_nth_inv in Eu
      as (before & x & x' & behind & -> & -> & Hx).
    assert (Hin : In x (before ++ x :: behind)) by apply in_elt.
    rewrite Forall_forall in IH.
    assert (Hxw : well_counted x)
      by (rewrite Forall_forall in Hch; now apply Hch).
    destruct (IH x Hin n x' value n' Hxw Hx) as [Hx' Hval].
    assert (Hv : visits x' = (visits x + 1)%Z).
    { destruct (@iterate_visits _ _ bits Math_sqrt Math_log simulatePlayout
                  getActionsForState simulateAction isTerminalState ai x n)
        as (x2 & r2 & E2 & _ & Hv2 & _).
      rewrite Hx in E2. inversion E2; subst. exact Hv2. }
    destruct (@replaced_child_well_counted before behind x x' vis
                Hle Hch Hv Hx') as [Hle' Hch'].
    split; [| exact Hval].
    cbn [fst]. apply visit_well_counted; assumption.
  - unfold simulate_from in Hsim.
    destruct (isTerminalState (node_state nd)); cbn [negb] in Hsim.
    + pose proof (Hplay (node_state nd) n) as Hval.
      destruct (simulatePlayout (node_state nd) n) as [v0 n0].
      inversion Hsim; subst. cbn [fst] in Hval.
      split; [| exact Hval].
      apply visit_well_counted; try assumption.
      eapply Forall_impl; [| exact Hle]. cbn beta. cbn [visits nd].
      intros; lia.
    + assert (Hnew_le :
        Forall (fun child => (visits child <= vis)%Z) (expansion nd)).
      { unfold expand_children. apply Forall_app. split; [exact Hle |].
        apply Forall_forall. intros c Hc.
        apply in_map_iff in Hc as (a & <- & _). cbn. exact Hvis. }
      assert (Hnew_ch : Forall well_counted (expansion nd)).
      { unfold expand_children. apply Forall_app. split; [exact Hch |].
        apply Forall_forall. intros c Hc.
        apply in_map_iff in Hc as (a & <- & _).
        constructor; [lia | reflexivity | constructor | constructor]. }
      destruct (expansion nd) as [| c0 cs] eqn:Ee.
      * pose proof (Hplay (node_state nd) n) as Hval.
        destruct (simulatePlayout (node_state nd) n) as [v0 n0].
        inversion Hsim; subst. cbn [fst] in Hval.
        split; [| exact Hval].
        apply visit_well_counted; try assumption; constructor.
      * destruct (_ <? 0)%Z; [discriminate |].
        destruct (update_nth _ _ _) as [[ch' [v0 n0]] |] eqn:Eu;
          [| discriminate].
        inversion Hsim; subst.
        apply update_nth_inv in Eu
          as (before & x & x' & behind & E & -> & Hx).
        rewrite E in Hnew_le, Hnew_ch.
        pose proof (Hplay (node_state x) (S n)) as Hval.
        destruct (simulatePlayout (node_state x) (S n)) as [v1 n1].
        inversion Hx; subst. cbn [fst] in Hval.
        assert (Hxw : well_counted x).
        { rewrite Forall_forall in Hnew_ch. apply Hnew_ch, in_elt. }
        inversion Hxw as [? ? ? ? ? Hxv Hxt Hxle Hxch]; subst.
        assert (Hx' : well_counted
                  (visit (Node st0 act0 ch0 vis0 tot0)
                     (children (Node st0 act0 ch0 vis0 tot0)) value)).
        { apply visit_well_counted; try assumption.
          eapply Forall_impl; [| exact Hxle]. cbn beta. cbn [visits].
          intros; lia. }
        destruct (@replaced_child_well_counted before behind
                    (Node st0 act0 ch0 vis0 tot0)
                    (visit (Node st0 act0 ch0 vis0 tot0)
                       (children (Node st0 act0 ch0 vis0 tot0)) value)
                    vis Hnew_le Hnew_ch eq_refl Hx') as [Hle' Hch'].
        split; [| exact Hval].
        apply visit_well_counted; assumption.
Qed.

(** The trees of the search are all of that kind. *)
Lemma MCTS_search_well_counted :
  (forall s n, JS.isFinite (fst (simulatePlayout s n)) = true) ->
  forall (count : nat) (root : node) (n : nat) (root' : node) (n' : nat),
  well_counted root ->
  run count root n = Some (root', n') ->
  well_counted root'.
Proof.
  intros Hplay count.
  induction count as [| count IH]; intros root n root' n' Hwell Hrun.
  - cbn in Hrun. inversion Hrun; subst. exact Hwell.
  - cbn [run_iterations] in Hrun.
    destruct (step root n) as [[nd1 [v n1]] |] eqn:E; [| discriminate].
    destruct (iterate_keeps_well_counted Hplay _ Hwell E) as [Hwell1 _].
    exact (IH _ _ _ _ Hwell1 Hrun).
Qed.

(** X27. The search cannot fail: for every state -- terminal or not, with
    or without actions -- all iterations run and the root is visited once
    in each, so its visit count is the number of iterations.  When the
    root state is terminal, or [getActionsForState] has no action for its
    current player, the root never gets a child and [chooseAction]
    returns [null] whatever [availableActions] holds. *)
Theorem MCTS_search_visits_root_every_iteration
  (state : IGameState TState) :
  (forall n, exists root n',
     MCTS_search bits Math_sqrt Math_log simulatePlayout getActionsForState
       simulateAction isTerminalState ai state n = Some (root, n') /\
     node_state root = state /\
     node_action root = None /\
     visits root = Z.max 0 (iterations ai)) /\
  (isTerminalState state = true \/ actions_of state = [] ->
   forall availableActions n,
     MCTS_chooseAction bits Math_sqrt Math_log simulatePlayout
       getActionsForState simulateAction isTerminalState ai state
       availableActions n = Some None).
Proof.
  assert (Hrun : forall n, exists root n',
    MCTS_search bits Math_sqrt Math_log simulatePlayout getActionsForState
      simulateAction isTerminalState ai state n = Some (root, n') /\
    node_state root = state /\
    node_action root = None /\
    visits root = Z.max 0 (iterations ai) /\
    (isTerminalState state = true \/ actions_of state = [] ->
     children root = [])).
  { intros n. unfold MCTS_search.
    destruct (@run_keeps_expanded (Z.to_nat (iterations ai))
                (MCTSNode_new state None) n ltac:(left; reflexivity))
      as (root & n' & E & Hs & Ha & Hv & _ & Hstuck).
    exists root, n'. split; [exact E |]. split; [exact Hs |].
    split; [exact Ha |]. split; [cbn [visits MCTSNode_new] in Hv; lia |].
    intros Hno. apply Hstuck; [reflexivity | exact Hno]. }
  split.
  - intros n. destruct (Hrun n) as (root & n' & H1 & H2 & H3 & H4 & _).
    exists root, n'. repeat split; assumption.
  - intros Hno availableActions n. unfold MCTS_chooseAction.
    destruct availableActions as [| a0 rest]; [reflexivity |].
    destruct (Hrun (simulateThinking (mcts_base ai) n))
      as (root & n' & -> & _ & _ & _ & Hstuck).
    rewrite (Hstuck Hno). reflexivity.
Qed.

(** X28. What [MCTSAI.chooseAction] answers on a root that can be
    expanded (state not terminal, [getActionsForState] not empty, at
    least one iteration): the action of a child of the root with the
    greatest visit count, and so one of the actions [getActionsForState]
    gave for the root state -- [availableActions] is only tested for
    being empty. *)
Theorem MCTS_chooseAction_answers_most_visited
  (state : IGameState TState)
  (availableActions : list (IGameAction TAction)) (n : nat) :
  availableActions <> [] ->
  isTerminalState state = false ->
  actions_of state <> [] ->
  (1 <= iterations ai)%Z ->
  exists root n' child action,
    MCTS_search bits Math_sqrt Math_log simulatePlayout getActionsForState
      simulateAction isTerminalState ai state
      (simulateThinking (mcts_base ai) n) = Some (root, n') /\
    MCTS_chooseAction bits Math_sqrt Math_log simulatePlayout
      getActionsForState simulateAction isTerminalState ai state
      availableActions n = Some (Some action) /\
    In child (children root) /\
    node_action child = Some action /\
    In action (actions_of state) /\
    (forall other, In other (children root) ->
       (visits other <= visits child)%Z).
Proof.
  intros Hav Hterm Hact Hiter.
  set (n0 := simulateThinking (mcts_base ai) n).
  destruct (@run_keeps_expanded (Z.to_nat (iterations ai))
              (MCTSNode_new state None) n0 ltac:(left; reflexivity))
    as (root & n' & E & Hs & _ & _ & Hinv & _).
  destruct (@run_iterations_visits _ _ bits Math_sqrt Math_log
              simulatePlayout getActionsForState simulateAction
              isTerminalState ai (Z.to_nat (iterations ai))
              (MCTSNode_new state None) n0) as (root2 & n2 & E2 & Hsum).
  { split; [exact Hterm | right; exact Hact]. }
  rewrite E in E2. inversion E2; subst root2 n2. clear E2.
  cbn [children MCTSNode_new] in Hsum.
  destruct (children root) as [| first others] eqn:Ech.
  { unfold sum_visits in Hsum. cbn in Hsum. lia. }
  destruct Hinv as [Hinv | Hinv]; [discriminate |].
  pose proof (most_visited_greatest (first :: others) first)
    as (Hin & _ & Hall). cbn zeta in *.
  set (winner := most_visited (first :: others) first) in *.
  assert (Hwin : In winner (first :: others))
    by (destruct Hin as [-> | Hin]; [left; reflexivity | exact Hin]).
  assert (Hwa : In (node_action winner) (map Some (actions_of state))).
  { cbn [node_state MCTSNode_new] in Hs. rewrite Hs in Hinv.
    rewrite <- Hinv. apply in_map. exact Hwin. }
  apply in_map_iff in Hwa as (action & Eaction & Haction).
  exists root, n', winner, action.
  split; [exact E |].
  split.
  { unfold MCTS_chooseAction. fold n0.
    destruct availableActions; [contradiction |].
    unfold MCTS_search in *. rewrite E, Ech. fold winner.
    now rewrite <- Eaction. }
  rewrite Ech. auto.
Qed.
End MCTSMore.
(* ================================================================== *)
(** ** Double-precision arithmetic *)

Section Rounding.
Import Double.

Lemma nearest_even_bounds (x : Q) :
  x - (1 # 2) <= inject_Z (nearest_even x) /\
  inject_Z (nearest_even x) <= x + (1 # 2).
Proof.
  unfold nearest_even.
  pose proof (Qfloor_le x) as Hlo. pose proof (Qlt_floor x) as Hhi.
  rewrite inject_Z_plus in Hhi. change (inject_Z 1) with 1 in Hhi.
  set (f := Qfloor x) in *.
  destruct (Qcompare_spec (x - inject_Z f) (1 # 2)) as [E | L | G].
  - destruct (Z.even f); rewrite ?inject_Z_plus;
      change (inject_Z 1) with 1; split; lra.
  - split; lra.
  - rewrite inject_Z_plus. change (inject_Z 1) with 1. split; lra.
Qed.

Lemma nearest_even_nonneg (x : Q) : 0 <= x -> (0 <= nearest_even x)%Z.
Proof.
  intros H. unfold nearest_even.
  assert (Hf : (0 <= Qfloor x)%Z)
    by (change 0%Z with (Qfloor 0); now apply Qfloor_resp_le).
  destruct (Qcompare _ _); [destruct (Z.even _) | |]; lia.
Qed.

Lemma nearest_even_inject_Z (x : Q) (z : Z) :
  x == inject_Z z -> nearest_even x = z.
Proof.
  intros E. unfold nearest_even.
  assert (Ef : Qfloor x = z) by (rewrite E; apply Qfloor_Z).
  rewrite Ef.
  assert (L : x - inject_Z z < 1 # 2) by (rewrite E; lra).
  destruct (Qcompare_spec (x - inject_Z z) (1 # 2)); [lra | reflexivity | lra].
Qed.

Lemma pow2_pos (e : Z) : 0 < 2 ^ e.
Proof. apply Qpower_0_lt. reflexivity. Qed.

Lemma pow2_Z (e : Z) : (0 <= e)%Z -> 2 ^ e == inject_Z (2 ^ e).
Proof. intros H. symmetry. apply (Zpower_Qpower 2 e H). Qed.

Lemma pow2_plus (a b : Z) : 2 ^ (a + b) == 2 ^ a * 2 ^ b.
Proof. apply Qpower_plus. discriminate. Qed.

Lemma binade_le (a : Q) : 0 < a -> 2 ^ binade a <= a.
Proof.
  intros Ha. unfold binade.
  set (e := (Z.log2 (Qnum a) - Z.log2 (Z.pos (Qden a)))%Z).
  destruct (Qle_bool (2 ^ e) a) eqn:T; [now apply Qle_bool_iff |].
  destruct a as [n d]. cbn [Qnum Qden] in *.
  assert (Hn : (0 < n)%Z) by (unfold Qlt in Ha; cbn in Ha; lia).
  destruct (Z.log2_spec n Hn) as [Hn1 _].
  destruct (Z.log2_spec (Z.pos d) eq_refl) as [_ Hd2].
  pose proof (Z.log2_nonneg n) as Hln.
  pose proof (Z.log2_nonneg (Z.pos d)) as Hld.
  replace (e - 1)%Z with (Z.log2 n + - Z.succ (Z.log2 (Z.pos d)))%Z
    by (subst e; lia).
  rewrite pow2_plus, Qpower_opp, !pow2_Z by lia.
  set (A := (2 ^ Z.log2 n)%Z) in *.
  set (B := (2 ^ Z.succ (Z.log2 (Z.pos d)))%Z) in *.
  assert (HB : (0 < B)%Z) by lia.
  assert (HA : (0 <= A)%Z) by (subst A; apply Z.pow_nonneg; lia).
  apply Qle_shift_div_r; [rewrite <- (Zlt_Qlt 0); exact HB |].
  unfold Qle, Qmult, inject_Z. cbn [Qnum Qden].
  rewrite Pos.mul_1_r, !Z.mul_1_r.
  apply Z.mul_le_mono_nonneg; lia.
Qed.

Lemma binade_Z (z : Z) : (0 < z)%Z -> binade (inject_Z z) = Z.log2 z.
Proof.
  intros Hz. unfold binade, inject_Z. cbn [Qnum Qden].
  change (Z.log2 1) with 0%Z. rewrite Z.sub_0_r.
  assert (T : Qle_bool (2 ^ Z.log2 z) (z # 1) = true).
  { apply Qle_bool_iff. rewrite pow2_Z by apply Z.log2_nonneg.
    change (z # 1) with (inject_Z z). rewrite <- Zle_Qle.
    apply Z.log2_spec. exact Hz. }
  rewrite T. reflexivity.
Qed.

Lemma ulp_pos (a : Q) : 0 < ulp a.
Proof. apply pow2_pos. Qed.

Lemma ulp_small (a : Q) :
  0 < a -> ulp a <= a * (1 # 4503599627370496) \/ ulp a = 2 ^ (-1074).
Proof.
  intros Ha. unfold ulp.
  destruct (Z.max_spec (binade a) (-1022)) as [[_ ->] | [_ ->]].
  - right. reflexivity.
  - left. replace (binade a - 52)%Z with (binade a + -52)%Z by lia.
    rewrite pow2_plus.
    change (2 ^ (-52)) with (1 # 4503599627370496).
    apply Qmult_le_compat_r; [now apply binade_le | discriminate].
Qed.

Lemma nearest_double_bounds (a : Q) :
  0 < a ->
  0 <= nearest_double a /\
  nearest_double a <= a + ulp a * (1 # 2) /\
  a - ulp a * (1 # 2) <= nearest_double a.
Proof.
  intros Ha. unfold nearest_double.
  pose proof (ulp_pos a) as Hu. set (u := ulp a) in *.
  assert (Hq : 0 <= a / u).
  { apply Qle_shift_div_l; [exact Hu | lra]. }
  pose proof (nearest_even_nonneg Hq) as Hm.
  destruct (nearest_even_bounds (a / u)) as [Hlo Hhi].
  set (m := inject_Z (nearest_even (a / u))) in *.
  assert (Hm0 : 0 <= m) by (subst m; rewrite <- (Zle_Qle 0); exact Hm).
  assert (E : a / u * u == a) by (field; lra).
  split; [apply Qmult_le_0_compat; lra |]. split.
  - apply Qle_trans with ((a / u + (1 # 2)) * u).
    + apply Qmult_le_compat_r; lra.
    + rewrite Qmult_plus_distr_l, E. lra.
  - apply Qle_trans with ((a / u - (1 # 2)) * u).
    + setoid_replace ((a / u - (1 # 2)) * u) with (a / u * u - (1 # 2) * u)
        by ring.
      rewrite E. lra.
    + apply Qmult_le_compat_r; lra.
Qed.

Lemma round_proper (p q : Q) : p == q -> round p = round q.
Proof. intros E. unfold round. now rewrite (Qred_complete p q E). Qed.

Lemma Qred_inject_Z (z : Z) : Qred (inject_Z z) = inject_Z z.
Proof.
  unfold Qred, inject_Z.
  pose proof (Z.ggcd_gcd z 1) as Hg.
  pose proof (Z.ggcd_correct_divisors z 1) as Hd.
  destruct (Z.ggcd z 1) as [g [aa bb]]. cbn [fst snd] in *.
  rewrite Z.gcd_1_r in Hg. subst g. destruct Hd as [Ha Hb].
  rewrite Z.mul_1_l in Ha, Hb. subst aa bb. reflexivity.
Qed.

Lemma nearest_double_Z (z : Z) :
  (0 < z < 2 ^ 53)%Z -> nearest_double (inject_Z z) == inject_Z z.
Proof.
  intros Hz. unfold nearest_double, ulp. rewrite binade_Z by lia.
  assert (He : (0 <= Z.log2 z < 53)%Z).
  { split; [apply Z.log2_nonneg |]. apply Z.log2_lt_pow2; lia. }
  rewrite Z.max_l by lia.
  set (k := (52 - Z.log2 z)%Z).
  replace (Z.log2 z - 52)%Z with (- k)%Z by (subst k; lia).
  assert (Hk : (0 <= k)%Z) by (subst k; lia).
  assert (Eu : 2 ^ (- k) == / inject_Z (2 ^ k)).
  { rewrite Qpower_opp, pow2_Z by exact Hk. reflexivity. }
  set (u := 2 ^ (- k)) in *.
  assert (HP : 0 < inject_Z (2 ^ k)).
  { rewrite <- (Zlt_Qlt 0). apply Z.pow_pos_nonneg; lia. }
  assert (E : inject_Z z / u == inject_Z (z * 2 ^ k)).
  { rewrite Eu, inject_Z_mult. field. lra. }
  rewrite (nearest_even_inject_Z E), Eu, inject_Z_mult. field. lra.
Qed.

Lemma below_overflow (x : Q) :
  x <= inject_Z (2 ^ 1002) -> Qle_bool (2 ^ 1024) x = false.
Proof.
  intros H. apply not_true_iff_false. intros T.
  apply Qle_bool_iff in T.
  assert (L : inject_Z (2 ^ 1002) < 2 ^ 1024) by reflexivity.
  lra.
Qed.

Lemma round_Z (z : Z) :
  (- 2 ^ 53 < z < 2 ^ 53)%Z -> round (inject_Z z) = Fin (inject_Z z).
Proof.
  intros Hz. unfold round. rewrite Qred_inject_Z.
  assert (Big : inject_Z (2 ^ 53) <= inject_Z (2 ^ 1002)) by discriminate.
  destruct z as [| p | p]; cbn [inject_Z Qnum].
  - reflexivity.
  - change (Z.pos p # 1) with (inject_Z (Z.pos p)).
    pose proof (@nearest_double_Z (Z.pos p) ltac:(lia)) as E.
    rewrite below_overflow.
    + rewrite (Qred_complete _ _ E), Qred_inject_Z. reflexivity.
    + rewrite E. apply Qle_trans with (inject_Z (2 ^ 53)); [| exact Big].
      rewrite <- Zle_Qle. lia.
  - change (- (Z.neg p # 1)) with (inject_Z (Z.pos p)).
    pose proof (@nearest_double_Z (Z.pos p) ltac:(lia)) as E.
    rewrite below_overflow.
    + assert (E' : - nearest_double (inject_Z (Z.pos p))
                   == inject_Z (Z.neg p)).
      { rewrite E. reflexivity. }
      change (- inject_Z (Z.neg p)) with (inject_Z (Z.pos p)).
      rewrite (Qred_complete _ _ E'), Qred_inject_Z. reflexivity.
    + rewrite E. apply Qle_trans with (inject_Z (2 ^ 53)); [| exact Big].
      rewrite <- Zle_Qle. lia.
Qed.

(** The rounding error, loosely: one part in [2^40] and [2^-40]. *)
Lemma nearest_double_near (a : Q) :
  0 < a ->
  0 <= nearest_double a /\
  nearest_double a <= a + a * (1 # 1099511627776) + (1 # 1099511627776) /\
  a - a * (1 # 1099511627776) - (1 # 1099511627776) <= nearest_double a.
Proof.
  intros Ha.
  destruct (nearest_double_bounds Ha) as (H0 & Hhi & Hlo).
  assert (Hu : ulp a * (1 # 2) <= a * (1 # 1099511627776) + (1 # 1099511627776)).
  { destruct (ulp_small Ha) as [Hs | ->].
    - lra.
    - assert (T : 2 ^ (-1074) * (1 # 2) <= 1 # 1099511627776) by discriminate.
      assert (0 <= a * (1 # 1099511627776)) by lra. lra. }
  split; [exact H0 |]. split; lra.
Qed.

Lemma round_near (q : Q) :
  Qabs q <= inject_Z (2 ^ 1000) ->
  exists x,
    round q = Fin x /\
    Qabs (x - q) <= Qabs q * (1 # 1099511627776) + (1 # 1099511627776) /\
    (0 <= q -> 0 <= x) /\ (q <= 0 -> x <= 0).
Proof.
  intros Hq. unfold round.
  pose proof (Qred_correct q) as Er.
  assert (Big : inject_Z (2 ^ 1000) * (2 # 1) + 1 <= inject_Z (2 ^ 1002))
    by (apply Qle_bool_iff; vm_compute; reflexivity).
  destruct (Qred q) as [n d] eqn:Eq. cbn [Qnum].
  destruct n as [| p | p].
  - exists 0. split; [reflexivity |].
    assert (E0 : q == 0) by (rewrite <- Er; reflexivity).
    rewrite E0. repeat split; try discriminate; lra.
  - set (a := Z.pos p # d) in *.
    assert (Ha : 0 < a) by reflexivity.
    destruct (nearest_double_near Ha) as (H0 & Hhi & Hlo).
    assert (Eabs : Qabs q == a)
      by (rewrite <- Er; apply Qabs_pos; apply Qlt_le_weak, Ha).
    rewrite Eabs in Hq.
    rewrite below_overflow by lra.
    exists (Qred (nearest_double a)). split; [reflexivity |].
    rewrite Qred_correct, Eabs, <- Er.
    split; [apply Qabs_diff_Qle_condition; split; lra |].
    split; [lra |]. intros Hneg. lra.
  - set (a := Z.pos p # d).
    assert (Ha : 0 < a) by reflexivity.
    assert (Ea : - (Z.neg p # d) = a) by reflexivity.
    rewrite Ea.
    destruct (nearest_double_near Ha) as (H0 & Hhi & Hlo).
    assert (Eq' : q == - a) by (rewrite <- Er; reflexivity).
    assert (Eabs : Qabs q == a).
    { rewrite Eq', Qabs_opp. apply Qabs_pos. apply Qlt_le_weak, Ha. }
    rewrite Eabs in Hq.
    rewrite below_overflow by lra.
    exists (Qred (- nearest_double a)). split; [reflexivity |].
    rewrite Qred_correct, Eabs, Eq'.
    split; [apply Qabs_diff_Qle_condition; split; lra |].
    split; [intros Hpos; lra | lra].
Qed.
End Rounding.

Lemma round_integer (q : Q) (z : Z) :
  q == inject_Z z -> (- 2 ^ 53 < z < 2 ^ 53)%Z ->
  Double.round q = JS.of_Z z.
Proof.
  intros E Hz. rewrite (round_proper E). now apply round_Z.
Qed.

(** A number that is not negative rounds to one that is not, near it. *)
Lemma round_nonneg (q : Q) :
  0 <= q -> q <= inject_Z (2 ^ 1000) ->
  exists x,
    Double.round q = Fin x /\ 0 <= x /\
    x <= q + q * (1 # 1099511627776) + (1 # 1099511627776).
Proof.
  intros H0 Hq.
  destruct (@round_near q) as (x & E & Hx & Hpos & _).
  { now rewrite Qabs_pos. }
  exists x. split; [exact E |]. split; [now apply Hpos |].
  rewrite (Qabs_pos q H0) in Hx.
  apply Qabs_diff_Qle_condition in Hx. lra.
Qed.

(* ================================================================== *)
(** ** SeededRandom *)

Lemma ToInt32_range (z : Z) : (- 2 ^ 31 <= ToInt32 z < 2 ^ 31)%Z.
Proof.
  unfold ToInt32.
  pose proof (Z.mod_pos_bound (z + 2 ^ 31) (2 ^ 32) eq_refl).
  change (2 ^ 32)%Z with (2 ^ 31 + 2 ^ 31)%Z in *. lia.
Qed.

Lemma hashString_loop_range (str : string) :
  forall hash, (- 2 ^ 31 <= hash < 2 ^ 31)%Z ->
  (- 2 ^ 31 <= hashString_loop str hash < 2 ^ 31)%Z.
Proof.
  induction str as [| c rest IH]; intros hash H; cbn [hashString_loop];
    [exact H |].
  apply IH, ToInt32_range.
Qed.

Lemma hashString_range (str : string) : (0 <= hashString str <= 2 ^ 31)%Z.
Proof.
  unfold hashString.
  pose proof (@hashString_loop_range str 0%Z ltac:(cbn; lia)). lia.
Qed.

Lemma Double_add_integers (p q : Q) (a b : Z) :
  p == inject_Z a -> q == inject_Z b -> (- 2 ^ 53 < a + b < 2 ^ 53)%Z ->
  Double.add (Fin p) (Fin q) = JS.of_Z (a + b).
Proof.
  intros Hp Hq H. unfold Double.add. cbn [JS.add Double.rounded].
  apply round_integer; [| exact H]. rewrite Hp, Hq, inject_Z_plus.
  reflexivity.
Qed.

Lemma Double_sub_integers (p q : Q) (a b : Z) :
  p == inject_Z a -> q == inject_Z b -> (- 2 ^ 53 < a - b < 2 ^ 53)%Z ->
  Double.sub (Fin p) (Fin q) = JS.of_Z (a - b).
Proof.
  intros Hp Hq H. unfold Double.sub, JS.sub.
  cbn [JS.neg JS.add Double.rounded].
  apply round_integer; [| exact H].
  rewrite Hp, Hq. unfold Z.sub. rewrite inject_Z_plus, inject_Z_opp.
  reflexivity.
Qed.

Lemma Double_mul_integers (p q : Q) (a b : Z) :
  p == inject_Z a -> q == inject_Z b -> (- 2 ^ 53 < a * b < 2 ^ 53)%Z ->
  Double.mul (Fin p) (Fin q) = JS.of_Z (a * b).
Proof.
  intros Hp Hq H. unfold Double.mul. cbn [JS.mul Double.rounded].
  apply round_integer; [| exact H]. rewrite Hp, Hq, inject_Z_mult.
  reflexivity.
Qed.

Lemma truncate_quotient (p : Q) (a : Z) (b : positive) :
  p == inject_Z a -> (0 <= a)%Z ->
  Double.truncate (p / inject_Z (Z.pos b)) = (a / Z.pos b)%Z.
Proof.
  intros Hp Ha.
  assert (E : p / inject_Z (Z.pos b) == a # b)
    by (rewrite Hp; symmetry; apply Qmake_Qdiv).
  unfold Double.truncate.
  assert (T : Qle_bool 0 (p / inject_Z (Z.pos b)) = true).
  { apply Qle_bool_iff. rewrite E. unfold Qle. cbn [Qnum Qden]. lia. }
  rewrite T, (Qfloor_comp _ _ E). reflexivity.
Qed.

Lemma Double_rem_integers (p : Q) (a : Z) (b : positive) :
  p == inject_Z a -> (0 <= a)%Z ->
  exists s,
    Double.rem (Fin p) (Fin (inject_Z (Z.pos b))) = Fin s /\
    s == inject_Z (a mod Z.pos b).
Proof.
  intros Hp Ha. unfold Double.rem.
  assert (S : JS.sign (inject_Z (Z.pos b)) = Lt) by reflexivity.
  rewrite S, (truncate_quotient b Hp Ha).
  eexists. split; [reflexivity |].
  rewrite Hp, <- inject_Z_mult. unfold Qminus.
  rewrite <- inject_Z_opp, <- inject_Z_plus.
  rewrite Z.mod_eq by discriminate. reflexivity.
Qed.

(** From a seed that is an integer [z] with [0 <= z <= 2^39] every step
    of [next] is exact but the division: the seed becomes
    [(z * 9301 + 49297) mod 233280], and the number returned is the
    double nearest to that over 233280. *)
Lemma SeededRandom_next_integer (seed : SeededRandom) (z : Z) :
  num_eq seed (JS.of_Z z) -> (0 <= z <= 2 ^ 39)%Z ->
  let z' := ((z * 9301 + 49297) mod 233280)%Z in
  exists r s,
    SeededRandom_next seed = (Fin r, Fin s) /\
    s == inject_Z z' /\
    Fin r = Double.round (z' # 233280) /\
    0 <= r /\ r <= 233279500 # 233280000.
Proof.
  intros Hseed Hz z'.
  destruct seed as [| | q |]; try contradiction. cbn [num_eq JS.of_Z] in Hseed.
  unfold SeededRandom_next, JS.of_Z.
  rewrite (@Double_mul_integers q (inject_Z 9301) z 9301 Hseed
             ltac:(reflexivity) ltac:(lia)).
  unfold JS.of_Z.
  rewrite (@Double_add_integers _ _ (z * 9301) 49297 ltac:(reflexivity)
             ltac:(reflexivity) ltac:(lia)).
  destruct (@Double_rem_integers (inject_Z (z * 9301 + 49297))
              (z * 9301 + 49297) 233280 ltac:(reflexivity) ltac:(lia))
    as (s & Es & Hs).
  unfold JS.of_Z. rewrite Es. fold z' in Hs.
  assert (Hz' : (0 <= z' < 233280)%Z)
    by (subst z'; apply Z.mod_pos_bound; reflexivity).
  unfold Double.div, JS.div, JS.of_Z.
  assert (S : JS.sign (inject_Z 233280) = Lt) by reflexivity.
  rewrite S. cbn [Double.rounded].
  assert (Eq : s / inject_Z 233280 == z' # 233280).
  { rewrite Hs. symmetry. apply Qmake_Qdiv. }
  rewrite (round_proper Eq).
  assert (H0 : 0 <= z' # 233280) by (unfold Qle; cbn [Qnum Qden]; lia).
  assert (H1 : z' # 233280 <= 233279 # 233280)
    by (unfold Qle; cbn [Qnum Qden]; lia).
  destruct (@round_nonneg (z' # 233280) H0) as (r & Er & Hr0 & Hr1).
  { apply Qle_trans with 1; [lra | discriminate]. }
  exists r, s. rewrite Er. repeat split; try assumption.
  lra.
Qed.

(** [nextInt(min, max)] on integers: the product with the number drawn
    is rounded, and still lies below [max - min + 1]. *)
Lemma nextInt_integer (seed : SeededRandom) (z min max : Z) :
  num_eq seed (JS.of_Z z) -> (0 <= z <= 2 ^ 39)%Z ->
  (- 2 ^ 50 <= min)%Z -> (min <= max)%Z -> (max <= 2 ^ 50)%Z ->
  exists j s,
    nextInt (JS.of_Z min) (JS.of_Z max) seed = (JS.of_Z j, Fin s) /\
    (min <= j <= max)%Z /\
    s == inject_Z ((z * 9301 + 49297) mod 233280).
Proof.
  intros Hseed Hz Hmin Hmm Hmax.
  destruct (SeededRandom_next_integer seed Hseed Hz)
    as (r & s & E & Hs & _ & Hr0 & Hr1).
  unfold nextInt. rewrite E. unfold JS.of_Z.
  rewrite (@Double_sub_integers _ _ max min ltac:(reflexivity)
             ltac:(reflexivity) ltac:(lia)).
  unfold JS.of_Z.
  rewrite (@Double_add_integers _ _ (max - min) 1 ltac:(reflexivity)
             ltac:(reflexivity) ltac:(lia)).
  set (k := (max - min + 1)%Z). unfold JS.of_Z, Double.mul.
  cbn [JS.mul Double.rounded].
  assert (Hk : 1 <= inject_Z k)
    by (rewrite <- (Zle_Qle 1); subst k; lia).
  assert (Hk' : inject_Z k <= inject_Z (2 ^ 52))
    by (rewrite <- Zle_Qle; subst k; lia).
  assert (Big : inject_Z (2 ^ 52) <= inject_Z (2 ^ 1000)) by discriminate.
  assert (Ht0 : 0 <= r * inject_Z k) by (apply Qmult_le_0_compat; lra).
  assert (Ht1 : r * inject_Z k <= (233279500 # 233280000) * inject_Z k)
    by (apply Qmult_le_compat_r; lra).
  set (t := r * inject_Z k) in *.
  destruct (@round_nonneg t Ht0 ltac:(lra)) as (p & Ep & Hp0 & Hp1).
  rewrite Ep. cbn [Double.floor].
  assert (Hf0 : (0 <= Qfloor p)%Z)
    by (change 0%Z with (Qfloor 0); now apply Qfloor_resp_le).
  assert (Hf1 : (Qfloor p < k)%Z).
  { rewrite Zlt_Qlt. apply Qle_lt_trans with p; [apply Qfloor_le | lra]. }
  rewrite (@Double_add_integers _ _ (Qfloor p) min ltac:(reflexivity)
             ltac:(reflexivity) ltac:(lia)).
  exists (Qfloor p + min)%Z, s. split; [reflexivity |].
  split; [subst k; lia | exact Hs].
Qed.

(** The rounding shows: from the seed 167795 the generator goes to
    67392, and [nextInt(0, 44)] is 12 where the exact product
    [67392 / 233280 * 45 = 13] would give 13; at [10^15] the sum
    [seed * 9301 + 49297] is no integer double any more and is rounded
    before the remainder is taken; at [2 * 10^304] the product is
    infinite and the seed becomes NaN. *)
Example SeededRandom_rounds_as_doubles_do :
  nextInt (JS.of_Z 0) (JS.of_Z 44) (JS.of_Z 167795)
    = (JS.of_Z 12, Fin (67392 # 1)) /\
  Qfloor ((67392 # 233280) * 45) = 13%Z /\
  snd (SeededRandom_next (JS.of_Z (10 ^ 15))) = Fin (149632 # 1) /\
  ((10 ^ 15 * 9301 + 49297) mod 233280 = 149777)%Z /\
  SeededRandom_next (JS.of_Z (2 * 10 ^ 304)) = (NaN, NaN).
Proof. repeat split; vm_compute; reflexivity. Qed.

(** X29. A generator seeded with a string, or with an integer from 0 to
    [2^39], computes on integers that are doubles: the constructor's
    hash lies in [[0, 2^31]]; [next] leaves the integer seed
    [(seed * 9301 + 49297) mod 233280] and returns the double nearest to
    that seed over 233280, a number in [[0, 1)]; [nextInt(min, max)] on
    integers with [-2^50 <= min <= max <= 2^50] returns an integer of
    [[min, max]], though not always the one the exact product would
    give; and [pick] returns an element of an array that is not empty
    and has fewer than [2^32] elements. *)
Theorem SeededRandom_stays_in_range (T : Type) (source : string + num)
  (min max : Z) (array : list T) :
  let seed := SeededRandom_new source in
  match source with
  | inl _ => True
  | inr number => exists z, number = JS.of_Z z /\ (0 <= z <= 2 ^ 39)%Z
  end ->
  exists z r s,
    seed = JS.of_Z z /\ (0 <= z <= 2 ^ 39)%Z /\
    let z' := ((z * 9301 + 49297) mod 233280)%Z in
    SeededRandom_next seed = (Fin r, Fin s) /\
    s == inject_Z z' /\
    Fin r = Double.round (z' # 233280) /\
    0 <= r /\ r < 1 /\
    ((- 2 ^ 50 <= min)%Z -> (min <= max)%Z -> (max <= 2 ^ 50)%Z ->
     exists j,
       nextInt (JS.of_Z min) (JS.of_Z max) seed = (JS.of_Z j, Fin s) /\
       (min <= j <= max)%Z) /\
    (array <> [] -> (Z.of_nat (List.length array) < 2 ^ 32)%Z ->
     exists x, pick array seed = (Some x, Fin s) /\ In x array).
Proof.
  intros seed Hsource.
  assert (Hseed : exists z, seed = JS.of_Z z /\ (0 <= z <= 2 ^ 39)%Z).
  { subst seed. destruct source as [str | number]; cbn [SeededRandom_new].
    - exists (hashString str). split; [reflexivity |].
      pose proof (hashString_range str). lia.
    - exact Hsource. }
  destruct Hseed as (z & Ez & Hz).
  assert (Hnum : num_eq seed (JS.of_Z z))
    by (rewrite Ez; cbn; reflexivity).
  destruct (SeededRandom_next_integer seed Hnum Hz)
    as (r & s & E & Hs & Hr & Hr0 & Hr1).
  exists z, r, s. split; [exact Ez |]. split; [exact Hz |].
  cbn zeta. split; [exact E |]. split; [exact Hs |]. split; [exact Hr |].
  split; [exact Hr0 |]. split; [lra |]. split.
  - intros Hmin Hmm Hmax.
    destruct (@nextInt_integer seed z min max Hnum Hz Hmin Hmm Hmax)
      as (j & s' & Ej & Hj & _).
    exists j. split; [| exact Hj].
    rewrite Ej. f_equal.
    unfold nextInt in Ej. rewrite E in Ej. congruence.
  - intros Hne Hlen. unfold pick.
    destruct array as [| a0 rest] eqn:Ea; [contradiction |].
    rewrite <- Ea in *.
    assert (Hpos : (0 < Z.of_nat (List.length array))%Z)
      by (rewrite Ea; cbn [List.length]; lia).
    destruct (@nextInt_integer seed z 0 (Z.of_nat (List.length array) - 1)
                Hnum Hz ltac:(lia) ltac:(lia) ltac:(lia))
      as (j & s' & Ej & Hj & _).
    rewrite Ej.
    assert (Es : s' = s).
    { unfold nextInt in Ej. rewrite E in Ej. congruence. }
    subst s'.
    unfold Array_get, array_index, JS.of_Z. cbn [array_elements].
    rewrite Qfloor_Z, Qeq_bool_refl.
    destruct (Z.leb_spec 0 j); [| lia].
    destruct (Z.ltb_spec j (2 ^ 32 - 1)); [| lia].
    cbn [andb].
    destruct (nth_error array (Z.to_nat j)) as [x |] eqn:Ex.
    + exists x. split; [| eapply nth_error_In; exact Ex].
      f_equal. rewrite (nth_error_nth (map Some array) (Z.to_nat j) None
                          (x := Some x)); [reflexivity |].
      rewrite nth_error_map, Ex. reflexivity.
    + apply nth_error_None in Ex. lia.
Qed.

Lemma split_at {A : Type} (l : list A) (d : A) :
  forall n, (n < List.length l)%nat ->
  l = firstn n l ++ nth n l d :: skipn (S n) l.
Proof.
  induction l as [| x l IH]; intros [| n] H; cbn in *; try lia;
    [reflexivity |].
  f_equal. apply IH. lia.
Qed.

Lemma list_swap_permutation {A : Type} (l : list A) (d : A) (i k : nat) :
  (k <= i)%nat -> (i < List.length l)%nat ->
  let l1 := firstn i l ++ nth k l d :: skipn (S i) l in
  (k < List.length l1)%nat /\
  Permutation l (firstn k l1 ++ nth i l d :: skipn (S k) l1).
Proof.
  intros Hk Hi l1.
  assert (Hp : List.length (firstn i l) = i)
    by (rewrite length_firstn; lia).
  assert (Hl1 : List.length l1 = List.length l).
  { subst l1. rewrite length_app. cbn [List.length].
    rewrite Hp, length_skipn. lia. }
  split; [lia |].
  destruct (Nat.eq_dec k i) as [-> | Hne].
  - assert (E : l1 = l) by (subst l1; symmetry; apply split_at; exact Hi).
    rewrite E, <- (split_at l d Hi). reflexivity.
  - assert (Hki : (k < i)%nat) by lia.
    set (p := firstn i l) in *. set (s := skipn (S i) l) in *.
    set (a := nth i l d).
    assert (El : l = p ++ a :: s) by (apply split_at; exact Hi).
    assert (Eb : nth k l d = nth k p d).
    { rewrite El at 1. apply app_nth1. lia. }
    subst l1. rewrite Eb.
    set (b := nth k p d).
    assert (Ep : p = firstn k p ++ b :: skipn (S k) p)
      by (apply split_at; lia).
    set (x := firstn k p) in *. set (y := skipn (S k) p) in *.
    assert (E1 : firstn k (p ++ b :: s) = x).
    { rewrite firstn_app. replace (k - List.length p)%nat with 0%nat by lia.
      cbn [firstn]. apply app_nil_r. }
    assert (E2 : skipn (S k) (p ++ b :: s) = y ++ b :: s).
    { rewrite skipn_app.
      replace (S k - List.length p)%nat with 0%nat by lia.
      reflexivity. }
    rewrite E1, E2, El, Ep at 1. rewrite <- app_assoc.
    apply Permutation_app_head. cbn [app].
    transitivity (b :: a :: y ++ s).
    + constructor. symmetry. apply Permutation_middle.
    + transitivity (a :: b :: y ++ s); [constructor |].
      constructor. apply Permutation_middle.
Qed.

Lemma array_index_integer (j : Z) :
  (0 <= j < 2 ^ 32 - 1)%Z -> array_index (JS.of_Z j) = Some (Z.to_nat j).
Proof.
  intros H. unfold array_index, JS.of_Z.
  rewrite Qfloor_Z, Qeq_bool_refl.
  destruct (Z.leb_spec 0 j); [| lia].
  destruct (Z.ltb_spec j (2 ^ 32 - 1)); [| lia].
  reflexivity.
Qed.

Lemma truncate_integer (z : Z) : Double.truncate (inject_Z z) = z.
Proof.
  unfold Double.truncate.
  destruct (Qle_bool 0 (inject_Z z)); [apply Qfloor_Z | apply Qceiling_Z].
Qed.

Lemma JS_min_integers (a b : Z) :
  JS.min (JS.of_Z a) (JS.of_Z b) = JS.of_Z (Z.min a b).
Proof.
  unfold JS.min, JS.of_Z, JS.ltb, JS.Qlt_bool.
  destruct (Qle_bool (inject_Z a) (inject_Z b)) eqn:L; cbn [negb].
  - apply Qle_bool_iff in L. rewrite <- Zle_Qle in L.
    rewrite Z.min_l by exact L. reflexivity.
  - assert (H : (b < a)%Z).
    { apply Z.lt_nge. intros C. rewrite Zle_Qle in C.
      apply Qle_bool_iff in C. congruence. }
    rewrite Z.min_r by lia. reflexivity.
Qed.

Section ShuffleFacts.
Context {T : Type}.

Lemma Array_swap_in_range (elements : list (option T))
  (props : list (num * option T)) (i : nat) (j : Z) :
  (0 <= j <= Z.of_nat i)%Z -> (i < List.length elements)%nat ->
  (Z.of_nat (List.length elements) < 2 ^ 32)%Z ->
  exists elements',
    Array_swap (mkJSArray elements props) (JS.of_Z (Z.of_nat i)) (JS.of_Z j)
      = mkJSArray elements' props /\
    Permutation elements elements'.
Proof.
  intros Hj Hi Hlen.
  destruct (@list_swap_permutation _ elements None i (Z.to_nat j)
              ltac:(lia) Hi) as [Hk Hperm].
  cbn zeta in *.
  eexists. split; [| exact Hperm].
  unfold Array_swap, Array_get, Array_set.
  rewrite !array_index_integer by lia.
  cbn [array_elements array_properties].
  rewrite Nat2Z.id.
  destruct (Nat.ltb_spec i (List.length elements)); [| lia].
  match goal with
  | |- context [(Z.to_nat j <? ?len)%nat] =>
      destruct (Nat.ltb_spec (Z.to_nat j) len); [| lia]
  end.
  reflexivity.
Qed.

Lemma shuffle_loop_permutes (i : nat) :
  forall (elements : list (option T)) (seed : SeededRandom) (z : Z),
  num_eq seed (JS.of_Z z) -> (0 <= z <= 2 ^ 39)%Z ->
  (Z.of_nat (List.length elements) < 2 ^ 32)%Z ->
  (i < List.length elements)%nat \/ i = 0%nat ->
  exists elements' seed' z',
    shuffle_loop i (mkJSArray elements []) seed
      = (mkJSArray elements' [], seed') /\
    Permutation elements elements' /\
    num_eq seed' (JS.of_Z z') /\ (0 <= z' <= 2 ^ 39)%Z.
Proof.
  induction i as [| i IH]; intros elements seed z Hseed Hz Hlen Hi.
  - exists elements, seed, z. repeat split; auto; lia.
  - destruct Hi as [Hi | Hi]; [| discriminate].
    cbn [shuffle_loop].
    destruct (@nextInt_integer seed z 0 (Z.of_nat (S i)) Hseed Hz
                ltac:(lia) ltac:(lia) ltac:(lia))
      as (j & s & Ej & Hj & Hs).
    rewrite Ej.
    destruct (@Array_swap_in_range elements [] (S i) j Hj Hi Hlen)
      as (elements1 & -> & Hperm1).
    set (z1 := ((z * 9301 + 49297) mod 233280)%Z) in *.
    assert (Hz1 : (0 <= z1 < 233280)%Z)
      by (subst z1; apply Z.mod_pos_bound; reflexivity).
    pose proof (Permutation_length Hperm1) as Hl1.
    destruct (IH elements1 (Fin s) z1 Hs ltac:(lia) ltac:(lia))
      as (elements' & seed' & z' & E & Hperm & Hseed' & Hz').
    { left. lia. }
    exists elements', seed', z'. split; [exact E |].
    split; [| split; assumption].
    transitivity elements1; assumption.
Qed.

(** X30. From a seed that is an integer from 0 to [2^39] [shuffle]
    returns a permutation of its argument, an array of fewer than [2^32]
    elements as every array is: each index it draws, computed in double
    precision, lies in the part of the array still to be placed, so
    nothing is lost, doubled or written outside the array; and the seed
    it leaves is such an integer again.  [pickMultiple(array, count)]
    with an integer [count] then returns the first [min(count, length)]
    elements of that permutation, which are distinct positions of the
    array; a negative [count] reaches [slice] as a negative end and
    gives all but the last [-count] elements. *)
Theorem shuffle_returns_permutation (array : list T) (count : Z)
  (seed : SeededRandom) (z : Z) :
  num_eq seed (JS.of_Z z) -> (0 <= z <= 2 ^ 39)%Z ->
  (Z.of_nat (List.length array) < 2 ^ 32)%Z ->
  exists shuffled seed' z',
    shuffle array seed = (mkJSArray (map Some shuffled) [], seed') /\
    Permutation array shuffled /\
    num_eq seed' (JS.of_Z z') /\ (0 <= z' <= 2 ^ 39)%Z /\
    snd (pickMultiple array (JS.of_Z count) seed) = seed' /\
    ((0 <= count)%Z ->
     let k := Z.to_nat (Z.min count (Z.of_nat (List.length array))) in
     fst (pickMultiple array (JS.of_Z count) seed)
       = map Some (firstn k shuffled) /\
     List.length (firstn k shuffled) = k /\
     Permutation array (firstn k shuffled ++ skipn k shuffled)) /\
    ((count < 0)%Z ->
     let k := Z.to_nat (Z.of_nat (List.length array) + count) in
     fst (pickMultiple array (JS.of_Z count) seed)
       = map Some (firstn k shuffled)).
Proof.
  intros Hseed Hz Hlen0. unfold pickMultiple, shuffle.
  destruct (@shuffle_loop_permutes (List.length array - 1)
              (map Some array) seed z Hseed Hz)
    as (elements' & seed' & z' & E & Hperm & Hseed' & Hz').
  { rewrite length_map. exact Hlen0. }
  { rewrite length_map. destruct array; cbn [List.length]; [right | left]; lia. }
  symmetry in Hperm.
  apply Permutation_map_inv in Hperm as (shuffled & -> & Hperm).
  exists shuffled, seed', z'. rewrite E. cbn [fst snd array_elements].
  split; [reflexivity |]. split; [exact Hperm |].
  split; [exact Hseed' |]. split; [exact Hz' |].
  split; [reflexivity |].
  pose proof (Permutation_length Hperm) as Hlen.
  rewrite JS_min_integers.
  unfold Array_slice0, JS.of_Z. rewrite truncate_integer, length_map. split.
  - intros Hc.
    destruct (Z.ltb_spec (Z.min count (Z.of_nat (List.length array))) 0);
      [lia |].
    rewrite firstn_map. split; [reflexivity |].
    split; [rewrite length_firstn; lia |].
    rewrite firstn_skipn. exact Hperm.
  - intros Hc.
    destruct (Z.ltb_spec (Z.min count (Z.of_nat (List.length array))) 0);
      [| lia].
    rewrite Z.min_l by lia. rewrite <- Hlen.
    replace (Z.to_nat (Z.max 0 (Z.of_nat (List.length array) + count)))
      with (Z.to_nat (Z.of_nat (List.length array) + count)) by lia.
    apply firstn_map.
Qed.
End ShuffleFacts.

(* ================================================================== *)
(** ** The further properties on the example games *)

Import MoreExamples.

Lemma distinct_players : NoDup ["p1"%string; "p2"%string].
Proof.
  constructor; [intros [H | []]; discriminate |].
  constructor; [intros [] | constructor].
Defined.

Lemma redo_then_undo_restores_manager_example :
  snd (StateManager_undo (snd (StateManager_redo undone))) = undone.
Proof.
  destruct (@redo_then_undo_restores_manager Z undone initial_state)
    as (_ & _ & H).
  - reflexivity.
  - vm_compute. discriminate.
  - exact H.
Defined.

Lemma setState_then_undo_restores_current_example :
  currentState
    (snd (StateManager_undo (setState (stateManager started) played_state)))
  = Some initial_state.
Proof.
  destruct (@setState_then_undo_restores_current Z (stateManager started)
              initial_state played_state) as (_ & H & _).
  - reflexivity.
  - vm_compute. discriminate.
  - exact H.
Defined.

Lemma checkpoint_restores_saved_state_example :
  fst (restoreCheckpoint
         (run_ops (snd (createCheckpoint (stateManager started) 7))
            [OpSetState played_state; OpUndo Z])
         (fst (createCheckpoint (stateManager started) 7)))
  = true.
Proof.
  destruct (@checkpoint_restores_saved_state Z (stateManager started) 7
              initial_state [OpSetState played_state; OpUndo Z])
    as (H & _).
  - reflexivity.
  - reflexivity.
  - exact H.
Defined.

Lemma empty_checkpoint_is_never_restored_example :
  fst (restoreCheckpoint
         (run_ops (snd (createCheckpoint (GameStateManager_new Z None) 7))
            [OpSetState initial_state])
         (fst (createCheckpoint (GameStateManager_new Z None) 7)))
  = false.
Proof.
  rewrite (@empty_checkpoint_is_never_restored Z (GameStateManager_new Z None)
             7 [OpSetState initial_state]).
  - reflexivity.
  - reflexivity.
  - reflexivity.
Defined.

Lemma restoreCheckpoint_exceeds_maximum_example :
  Z.of_nat
    (List.length
       (history (snd (restoreCheckpoint full_manager "checkpoint_7"))))
  = (maxHistorySize full_manager + 1)%Z.
Proof.
  destruct (@restoreCheckpoint_exceeds_maximum Z full_manager "checkpoint_7"
              initial_state played_state initial_state) as (H & _).
  - reflexivity.
  - reflexivity.
  - reflexivity.
  - exact H.
Defined.

Lemma sequential_turns_cycle_example :
  snd (TurnManager_calls 3
         (mkTurnManager [alice; bob] 0 TurnOrderStrategies.sequential tt))
  = mkTurnManager [alice; bob] 1 TurnOrderStrategies.sequential tt.
Proof.
  destruct (@sequential_turns_cycle [alice; bob] 3 0%Z) as (H & _).
  - exact distinct_players.
  - cbn. lia.
  - exact H.
Defined.

Lemma random_turns_stay_listed_example :
  List.length
    (fst (TurnManager_calls 2
            (mkTurnManager [alice; bob] 0
               (TurnOrderStrategies.random bits_half) 0%nat)))
  = 2%nat.
Proof.
  destruct (@random_turns_stay_listed bits_half 2 [alice; bob] 0%Z 0%nat)
    as (_ & H & _).
  - cbn. lia.
  - exact H.
Defined.

Lemma custom_strategy_cycles_through_sequence_example :
  strategy_calls
    (TurnOrderStrategies.custom ["p2"%string; "p1"%string]) 3 0%Z "p1" []
  = strategy_calls
      (TurnOrderStrategies.custom ["p2"%string; "p1"%string]) 3 0%Z "p2"
      ["p1"%string].
Proof.
  destruct (@custom_strategy_cycles_through_sequence
              ["p2"%string; "p1"%string] 3 0%Z "p1" "p2" [] ["p1"%string])
    as (_ & H & _).
  - discriminate.
  - cbn. lia.
  - exact H.
Defined.

Lemma invalid_next_player_blocks_turn_manager_example :
  TurnManager_getNextPlayer stray_manager =
    (Throws "Invalid next player ID: p3",
     mkTurnManager [alice; bob] (-1)
       (TurnOrderStrategies.custom ["p3"%string]) 0%Z).
Proof.
  destruct (@invalid_next_player_blocks_turn_manager Z stray_manager alice
              (Some "p3"%string) 0%Z) as (H & _).
  - reflexivity.
  - reflexivity.
  - intros x E. inversion E; subst. intros [G | [G | []]]; discriminate.
  - exact H.
Defined.

Lemma initialize_rejects_bad_config_example :
  initialize (mkConfig [alice] None) (GameController_new counting_rules) =
    (Throws "At least 2 players are required",
     GameController_new counting_rules).
Proof.
  destruct (@initialize_rejects_bad_config Z Z
              (GameController_new counting_rules) (mkConfig [alice] None))
    as (_ & H & _).
  - left. cbn. lia.
  - apply H. cbn. lia.
Defined.

Lemma initialize_starts_game_example :
  fst (initialize two_players (GameController_new counting_rules))
  = Returns tt.
Proof.
  destruct (@initialize_starts_game Z Z (GameController_new counting_rules)
              two_players) as (H & _).
  - cbn. lia.
  - exact distinct_players.
  - rewrite H. reflexivity.
Defined.

Lemma executeAction_commits_new_state_example :
  currentState
    (stateManager
       (after (executeAction (mkAction "add" "p1" 3%Z None)) started))
  = Some played_state.
Proof.
  unfold after.
  rewrite (@executeAction_commits_new_state Z Z started
             (mkAction "add" "p1" 3%Z None) initial_state played_state).
  - reflexivity.
  - reflexivity.
  - reflexivity.
  - reflexivity.
  - reflexivity.
  - reflexivity.
Defined.

Lemma executeAction_ends_game_example :
  isGameOver (after (executeAction winning_move) started) =
    (Returns true, after (executeAction winning_move) started).
Proof.
  destruct (@executeAction_ends_game Z Z started winning_move initial_state
              won_state 5) as (E & _ & H & _).
  - reflexivity.
  - reflexivity.
  - reflexivity.
  - reflexivity.
  - reflexivity.
  - unfold after. rewrite E. exact H.
Defined.

Lemma executeAction_passes_rules_failure_on_example :
  executeAction (mkAction "add" "p1" 3%Z None) refused =
    (Returns (mkResult false None (Some "out of order"%string) None),
     refused).
Proof.
  apply (@executeAction_passes_rules_failure_on Z Z refused
           (mkAction "add" "p1" 3%Z None) initial_state).
  - reflexivity.
  - reflexivity.
  - left. reflexivity.
Defined.

Lemma uninitialized_controller_refuses_example :
  getState (GameController_new counting_rules) =
    (Throws "Game not initialized", GameController_new counting_rules).
Proof.
  destruct (@uninitialized_controller_refuses Z Z
              (GameController_new counting_rules)
              (mkAction "add" "p1" 3%Z None) 5) as (H & _).
  - reflexivity.
  - reflexivity.
  - exact H.
Defined.

Lemma reset_returns_to_uninitialized_example :
  history
    (stateManager (snd (initialize two_players (snd (reset played)))))
  = [].
Proof.
  destruct (@reset_returns_to_uninitialized Z Z played two_players)
    as (_ & _ & _ & _ & _ & _ & _ & _ & _ & H).
  destruct H as (_ & _ & H & _).
  - cbn. lia.
  - exact distinct_players.
  - exact H.
Defined.

Lemma endTurn_rotates_through_players_example :
  exists c' state',
    endTurns [5; 6; 7]%Z started = (Returns tt, c') /\
    currentState (stateManager c') = Some state' /\
    currentPlayerId (turnInfo state') = "p2"%string /\
    turnNumber (turnInfo state') = 4%Z.
Proof.
  destruct (@endTurn_rotates_through_players Z Z started [5; 6; 7]%Z
              initial_state 0%Z)
    as (c' & state' & p & E & Hc & _ & _ & Hp & Hid & Ht & _).
  - exact distinct_players.
  - reflexivity.
  - reflexivity.
  - reflexivity.
  - reflexivity.
  - cbn. lia.
  - discriminate.
  - exists c', state'. split; [exact E |]. split; [exact Hc |].
    split; [| exact Ht].
    rewrite Hid. inversion Hp. reflexivity.
Defined.

Lemma undo_after_endTurn_keeps_cursor_example :
  exists c1 c2,
    endTurn 5 started = (Returns tt, c1) /\
    undo c1 = (Returns true, c2) /\
    currentState (stateManager c2) = Some initial_state /\
    currentPlayerIndex (turnManager c2) = 1%Z.
Proof.
  destruct (@undo_after_endTurn_keeps_cursor Z Z started 5 initial_state
              "p2"
              (mkTurnManager [alice; bob] 1 TurnOrderStrategies.sequential tt))
    as (c1 & c2 & E1 & E2 & Hc & Htm & _).
  - reflexivity.
  - reflexivity.
  - vm_compute. discriminate.
  - reflexivity.
  - exists c1, c2. rewrite Htm. repeat split; assumption.
Defined.

Lemma executeAITurn_without_ai_throws_example :
  executeAITurn (unregisterAI [] "p1") started =
    (Throws "No AI registered for player p1", started).
Proof.
  destruct (@executeAITurn_without_ai_throws Z Z started [] initial_state)
    as (_ & _ & H).
  - reflexivity.
  - exact H.
Defined.

Lemma executeAITurn_runs_registered_ai_example :
  isAIPlayer (registerAI [] "p1" first_action) "p1" = true.
Proof.
  destruct (@executeAITurn_runs_registered_ai Z Z started [] first_action
              initial_state) as (H & _).
  - reflexivity.
  - exact H.
Defined.

Lemma addNoise_keeps_value_without_noise_example :
  num_eq
    (addNoise bits_half (minimax_base (minimax_ai MEDIUM 3)) (Fin 3) 10 0)
    (Fin 3).
Proof.
  apply (@addNoise_keeps_value_without_noise bits_half
           (minimax_base (minimax_ai MEDIUM 3)) (Fin 3) 10 0).
  right. reflexivity.
Defined.

Lemma Greedy_chooseAction_takes_first_best_example :
  exists i a,
    nth_error (moves_at 0 "p1") i = Some a /\
    Greedy_chooseAction bits_half Example.evaluateAction
      (minimax_base (minimax_ai MEDIUM 3)) (position 0 "p1")
      (moves_at 0 "p1") 0
    = Some a.
Proof.
  destruct (@Greedy_chooseAction_takes_first_best Z Z bits_half
              Example.evaluateAction (minimax_base (minimax_ai MEDIUM 3))
              (position 0 "p1") (moves_at 0 "p1") 0) as (_ & H).
  - intros a _. discriminate.
  - destruct H as (i & a & Hi & Ha & _); [discriminate |].
    exists i, a. split; assumption.
Defined.

Lemma Minimax_chooseAction_takes_first_best_example :
  exists action,
    Minimax_chooseAction bits_half Example.simulateAction
      Example.getActionsForState Example.isTerminalState
      Example.evaluateState (minimax_ai MEDIUM 3) 3 (position 0 "p1")
      (moves_at 0 "p1") 0
    = Some (Some action).
Proof.
  destruct (@Minimax_chooseAction_takes_first_best Z Z bits_half
              Example.simulateAction Example.getActionsForState
              Example.isTerminalState Example.evaluateState
              (minimax_ai MEDIUM 3) 3 (position 0 "p1") (moves_at 0 "p1") 0)
    as (_ & H).
  - intros s. discriminate.
  - cbn. lia.
  - cbn. lia.
  - destruct H as (evaluated & before & action & value & behind & H);
      [discriminate |].
    destruct H as (_ & _ & _ & H & _).
    exists action. exact H.
Defined.

Lemma minimax_result_bounds_exact_value_example :
  exists v r0,
    minimax_unpruned Example.simulateAction Example.getActionsForState
      Example.isTerminalState Example.evaluateState (minimax_ai MEDIUM 3)
      3 (position 0 "p1") 2 true = Some v /\
    minimax Example.simulateAction Example.getActionsForState
      Example.isTerminalState Example.evaluateState (minimax_ai MEDIUM 3)
      3 (position 0 "p1") 2 NInf PInf true = Some r0 /\
    num_eq r0 v.
Proof.
  destruct (@minimax_result_bounds_exact_value Z Z Example.simulateAction
              Example.getActionsForState Example.isTerminalState
              Example.evaluateState (minimax_ai MEDIUM 3) 3
              (position 0 "p1") 2 (Fin 0) (Fin 1) true)
    as (v & r & r0 & Hv & _ & _ & _ & _ & Hr0 & Heq).
  - intros s. discriminate.
  - discriminate.
  - discriminate.
  - reflexivity.
  - lia.
  - cbn. lia.
  - exists v, r0. repeat split; assumption.
Defined.

Lemma negative_maxDepth_searches_to_terminal_states_example :
  maxDepth (MinimaxAI_new (ai_config MEDIUM (Some (-1)%Z))) = (-1)%Z.
Proof.
  destruct (@negative_maxDepth_searches_to_terminal_states Z Z
              Example.simulateAction Example.getActionsForState
              Example.isTerminalState Example.evaluateState
              (ai_config MEDIUM (Some (-1)%Z)) (-1)%Z) as (H & _).
  - reflexivity.
  - lia.
  - exact H.
Defined.

Lemma MCTS_search_visits_root_every_iteration_example :
  MCTS_chooseAction bits_half rough_sqrt rough_log Example.simulatePlayout
    Example.getActionsForState Example.simulateAction
    Example.isTerminalState (mcts_ai EASY) (position 7 "p1")
    [move "p1" 15] 0
  = Some None.
Proof.
  apply (proj2 (@MCTS_search_visits_root_every_iteration Z Z bits_half
                  rough_sqrt rough_log Example.simulatePlayout
                  Example.getActionsForState Example.simulateAction
                  Example.isTerminalState (mcts_ai EASY) (position 7 "p1"))).
  left. reflexivity.
Defined.

Lemma MCTS_chooseAction_answers_most_visited_example :
  exists action,
    MCTS_chooseAction bits_half rough_sqrt rough_log Example.simulatePlayout
      Example.getActionsForState Example.simulateAction
      Example.isTerminalState (mcts_ai EASY) (position 0 "p1")
      [move "p1" 15] 0
    = Some (Some action) /\
    In action (moves_at 0 "p1").
Proof.
  destruct (@MCTS_chooseAction_answers_most_visited Z Z bits_half
              rough_sqrt rough_log Example.simulatePlayout
              Example.getActionsForState Example.simulateAction
              Example.isTerminalState (mcts_ai EASY) (position 0 "p1")
              [move "p1" 15] 0)
    as (root & n' & child & action & _ & H & _ & _ & Hin & _).
  - discriminate.
  - reflexivity.
  - discriminate.
  - cbn. lia.
  - exists action. split; [exact H | exact Hin].
Defined.

Lemma SeededRandom_stays_in_range_example :
  exists j,
    fst (nextInt (JS.of_Z 0) (JS.of_Z 44)
           (SeededRandom_new (inr (JS.of_Z 167795)))) = JS.of_Z j /\
    (0 <= j <= 44)%Z.
Proof.
  destruct (@SeededRandom_stays_in_range Z (inr (JS.of_Z 167795)) 0 44 [])
    as (z & r & s & _ & _ & _ & _ & _ & _ & _ & H & _).
  - exists 167795%Z. split; [reflexivity | lia].
  - destruct H as (j & E & Hj); [lia | lia | lia |].
    exists j. rewrite E. split; [reflexivity | exact Hj].
Defined.

Lemma shuffle_returns_permutation_example :
  exists shuffled,
    fst (shuffle [1; 2; 3]%Z (JS.of_Z 42)) = mkJSArray (map Some shuffled) [] /\
    Permutation [1; 2; 3]%Z shuffled.
Proof.
  destruct (@shuffle_returns_permutation Z [1; 2; 3]%Z 2%Z (JS.of_Z 42) 42%Z)
    as (shuffled & seed' & z' & E & H & _).
  - reflexivity.
  - lia.
  - cbn. lia.
  - exists shuffled. rewrite E. split; [reflexivity | exact H].
Defined.
